(** * WebRTC-Ionic-Client: the signaling page [HomePage]

    A shallow embedding of [src/app/home/home.page.ts]: the two registries
    ([peerConnectionMap], [targetUserStreamDataMap]), the socket.io event
    handlers registered in [ngOnInit], the callbacks wired onto each
    [RTCPeerConnection], and the teardown paths.

    Modelling conventions.
    - A JavaScript [Map] is an insertion-ordered association list
      ([JSMap]); [Array.from(map.keys())] and [forEach] walk it in that
      order.
    - An identifier of TypeScript type [string] may still be [null] or
      [undefined] at run time (the code tests [remoteId != null]); [jsid]
      has the three cases.
    - [RTCPeerConnection] objects live in a store ([pcs]) and are named by
      their allocation index, so that "the same object" is equality of
      references.
    - Every call into the browser or socket.io is appended to [trace], in
      program order, whether it succeeds or not.  Whether a call on an
      [RTCPeerConnection] succeeds, and what [createOffer] and [createAnswer]
      resolve to, is the browser's business: the page is verified against
      every browser ([Platform]), which answers from the state of the
      connection and the argument of the call.  A call that fails throws (or
      rejects) and leaves the connection as it was.
    - An [await] resumes before the next event is delivered: a listener and
      the steps it awaits are one turn ([deliver]).  Inside [sendOffers] the
      callbacks of [forEach] are not awaited: each runs to its first [await]
      before the next starts, and they resume one after the other.  A
      rejection that nobody handles is recorded where the function stops
      ([UnhandledRejection]); the general statements use which rejections a
      trace reports and how many, not where they stand.
    - Socket listeners run once [ngOnInit] has created the socket.  A closed
      peer connection delivers no candidate, track or negotiation event; it
      may still report a change of state. *)

From stdpp Require Import base option list strings sets.



(** ** JavaScript values used as identifiers *)

Inductive jsid : Type :=
| JNull
| JUndefined
| JStr (s : string).

#[global] Instance jsid_eq_dec : EqDecision jsid.
Proof. solve_decision. Defined.

(** [x == null] in JavaScript: true of [null] and of [undefined]. *)
Definition nullish (x : jsid) : bool :=
  match x with
  | JStr _ => false
  | _ => true
  end.

(** ** JavaScript [Map]: insertion-ordered, one entry per key *)

Module JSMap.

Definition t (K V : Type) : Type := list (K * V).

Section Ops.
Context {K V : Type} `{EqDecision K}.

Definition empty : t K V := [].

Fixpoint get (k : K) (m : t K V) : option V :=
  match m with
  | [] => None
  | (k', v) :: m' => if decide (k' = k) then Some v else get k m'
  end.

Definition has (k : K) (m : t K V) : bool := bool_decide (is_Some (get k m)).

(** [map.set(k, v)]: an existing key keeps its place, a new one goes last. *)
Fixpoint set (k : K) (v : V) (m : t K V) : t K V :=
  match m with
  | [] => [(k, v)]
  | (k', v') :: m' =>
      if decide (k' = k) then (k', v) :: m' else (k', v') :: set k v m'
  end.

Fixpoint delete (k : K) (m : t K V) : t K V :=
  match m with
  | [] => []
  | (k', v) :: m' =>
      if decide (k' = k) then delete k m' else (k', v) :: delete k m'
  end.

Definition keys (m : t K V) : list K := m.*1.
Definition values (m : t K V) : list V := m.*2.
Definition size (m : t K V) : nat := length m.
Definition clear (m : t K V) : t K V := [].

(** How many entries the key [k] has. *)
Fixpoint count (k : K) (m : t K V) : nat :=
  match m with
  | [] => 0
  | (k', _) :: m' => if decide (k' = k) then S (count k m') else count k m'
  end.

(** The representation invariant of a [Map]: no key twice. *)
Definition wf (m : t K V) : Prop := NoDup (keys m).

End Ops.

#[global] Arguments t : clear implicits.

End JSMap.

(** ** Media, descriptions, candidates *)

Record MediaStreamTrack : Type := mkTrack {
  track_id : nat;
  track_enabled : bool
}.

#[global] Instance MediaStreamTrack_eq_dec : EqDecision MediaStreamTrack.
Proof. solve_decision. Defined.

(** A [MediaStream] is its track set, in insertion order. *)
Definition MediaStream : Type := list MediaStreamTrack.

Definition getTracks (s : MediaStream) : list MediaStreamTrack := s.

(** [stream.addTrack(track)]: a track already in the stream is not added
    again. *)
Definition stream_addTrack (track : MediaStreamTrack) (s : MediaStream) : MediaStream :=
  if decide (track ∈ s) then s else s ++ [track].

Inductive SdpType : Type := SdpOffer | SdpAnswer.

Record RTCSessionDescription : Type := mkSdp {
  sdp_type : SdpType;
  sdp_body : string
}.

Definition RTCIceCandidate : Type := string.

(** ** Signaling messages (interfaces [Offer], [Answer], [Candidate]) *)

Record Offer : Type := mkOffer {
  offer_sdp : RTCSessionDescription;
  offer_senderId : jsid;
  offer_receiverId : jsid
}.

Record Answer : Type := mkAnswer {
  answer_sdp : RTCSessionDescription;
  answer_senderId : jsid;
  answer_receiverId : jsid
}.

Record Candidate : Type := mkCandidate {
  candidate_candidate : RTCIceCandidate;
  candidate_senderId : jsid;
  candidate_receiverId : jsid
}.

(** What the page sends with [ioConnection.emit]. *)
Inductive OutMessage : Type :=
| JoinRoom (roomId : nat)
| CreateRoom (roomId : nat)
| TransferOffer (sdp : option RTCSessionDescription) (senderId : string) (receiverId : jsid)
| TransferAnswer (sdp : option RTCSessionDescription) (senderId : string) (receiverId : jsid)
| TransferCandidate (candidate : RTCIceCandidate) (senderId : string) (receiverId : jsid)
| RemoveConnection (userId : jsid).

Record Socket : Type := mkSocket {
  socket_id : string;
  socket_closed : bool
}.

(** ** Peer connections *)

(** A peer connection is named by its index in the store. *)
Abbreviation PcRef := nat (only parsing).

(** The event-handler properties assigned in [getOrCreatePeerConnection]. *)
Inductive CallbackSlot : Type :=
| Onicecandidate
| Ontrack
| Onconnectionstatechange
| Onnegotiationneeded
| Oniceconnectionstatechange.

#[global] Instance CallbackSlot_eq_dec : EqDecision CallbackSlot.
Proof. solve_decision. Defined.

(** The part of an [RTCPeerConnection] the page reads or drives.  A
    callback is a closure over [this] and [remoteId]; [pc_callbacks] keeps,
    per property, the [remoteId] its closure captured. *)
Record RTCPeerConnection : Type := mkPc {
  pc_closed : bool;
  pc_senders : list MediaStreamTrack;
  pc_remoteDescription : option RTCSessionDescription;
  pc_localDescription : option RTCSessionDescription;
  pc_iceCandidates : list RTCIceCandidate;
  pc_callbacks : JSMap.t CallbackSlot jsid
}.

Definition fresh_pc : RTCPeerConnection :=
  mkPc false [] None None [] JSMap.empty.

(** ** Errors and effects *)

Inductive JsError : Type :=
| RTCNotSupportedError
| RTCNoAvailableCameraError
| RTCNoAvailableMicrophoneError
| TypeError
| MediaUnavailable
| InvalidStateError
| InvalidAccessError.

Inductive LogArg : Type :=
| LogText (s : string)
| LogFlag (b : bool)
| LogRoom (roomId : nat)
| LogUserIds (userIds : option (list jsid))
| LogUserId (userId : jsid)
| LogOffer (offer : Offer)
| LogAnswer (answer : Answer)
| LogCandidate (candidate : Candidate)
| LogIceEvent (candidate : option RTCIceCandidate)
| LogTrackEvent (track : MediaStreamTrack)
| LogEvent
| LogError (e : JsError).

Inductive Effect : Type :=
| ConsoleLog (args : list LogArg)
| SocketEmit (m : OutMessage)
| SocketClose
| AppExit
| PcNew (pc : PcRef) (iceServers : list string)
| PcAssign (pc : PcRef) (slot : CallbackSlot) (remoteId : jsid)
| PcAddTrack (pc : PcRef) (track : MediaStreamTrack)
| PcCreateOffer (pc : PcRef)
| PcCreateAnswer (pc : PcRef)
| PcSetLocalDescription (pc : PcRef) (sdp : RTCSessionDescription)
| PcSetRemoteDescription (pc : PcRef) (sdp : RTCSessionDescription)
| PcAddIceCandidate (pc : PcRef) (candidate : RTCIceCandidate)
| PcClose (pc : PcRef)
| TrackStop (track : MediaStreamTrack)
| UnhandledRejection (e : JsError).

(** ** The component state *)

Record State : Type := mkState {
  ioConnection : option Socket;
  peerConnectionMap : JSMap.t jsid PcRef;
  localUserStreamData : option MediaStream;
  localVideo_srcObject : option MediaStream;
  targetUserStreamDataMap : JSMap.t jsid MediaStream;
  pcs : list RTCPeerConnection;
  stopped : list nat;
  trace : list Effect
}.

(** [new HomePage(...)]. *)
Definition newHomePage : State :=
  mkState None JSMap.empty None None JSMap.empty [] [] [].

Definition with_ioConnection (x : option Socket) (st : State) : State :=
  mkState x (peerConnectionMap st) (localUserStreamData st) (localVideo_srcObject st)
    (targetUserStreamDataMap st) (pcs st) (stopped st) (trace st).

Definition with_peerConnectionMap (x : JSMap.t jsid PcRef) (st : State) : State :=
  mkState (ioConnection st) x (localUserStreamData st) (localVideo_srcObject st)
    (targetUserStreamDataMap st) (pcs st) (stopped st) (trace st).

Definition with_localUserStreamData (x : option MediaStream) (st : State) : State :=
  mkState (ioConnection st) (peerConnectionMap st) x (localVideo_srcObject st)
    (targetUserStreamDataMap st) (pcs st) (stopped st) (trace st).

Definition with_localVideo_srcObject (x : option MediaStream) (st : State) : State :=
  mkState (ioConnection st) (peerConnectionMap st) (localUserStreamData st) x
    (targetUserStreamDataMap st) (pcs st) (stopped st) (trace st).

Definition with_targetUserStreamDataMap (x : JSMap.t jsid MediaStream) (st : State) : State :=
  mkState (ioConnection st) (peerConnectionMap st) (localUserStreamData st)
    (localVideo_srcObject st) x (pcs st) (stopped st) (trace st).

Definition with_pcs (x : list RTCPeerConnection) (st : State) : State :=
  mkState (ioConnection st) (peerConnectionMap st) (localUserStreamData st)
    (localVideo_srcObject st) (targetUserStreamDataMap st) x (stopped st) (trace st).

Definition with_stopped (x : list nat) (st : State) : State :=
  mkState (ioConnection st) (peerConnectionMap st) (localUserStreamData st)
    (localVideo_srcObject st) (targetUserStreamDataMap st) (pcs st) x (trace st).

Definition with_trace (x : list Effect) (st : State) : State :=
  mkState (ioConnection st) (peerConnectionMap st) (localUserStreamData st)
    (localVideo_srcObject st) (targetUserStreamDataMap st) (pcs st) (stopped st) x.

(** ** Computations that may throw *)

Inductive Outcome (A : Type) : Type :=
| Returned (a : A)
| Thrown (e : JsError).

#[global] Arguments Returned {A} a.
#[global] Arguments Thrown {A} e.

Definition M (A : Type) : Type := State -> Outcome A * State.

Definition ret {A : Type} (a : A) : M A := fun st => (Returned a, st).

Definition throw {A : Type} (e : JsError) : M A := fun st => (Thrown e, st).

Definition bind {A B : Type} (m : M A) (k : A -> M B) : M B :=
  fun st =>
    match m st with
    | (Returned a, st') => k a st'
    | (Thrown e, st') => (Thrown e, st')
    end.

Declare Scope js_scope.
Delimit Scope js_scope with js.
Notation "x <- m ;; k" := (bind m (fun x => k))
  (at level 20, m at level 99, k at level 200, only parsing) : js_scope.
Notation "m ;; k" := (bind m (fun _ => k))
  (at level 100, k at level 200, only parsing, right associativity) : js_scope.
Open Scope js_scope.

Definition gets {A : Type} (f : State -> A) : M A := fun st => (Returned (f st), st).

Definition modify (f : State -> State) : M unit := fun st => (Returned tt, f st).

Definition effect (e : Effect) : M unit :=
  modify (fun st => with_trace (trace st ++ [e]) st).

(** [array.forEach(f)] for a synchronous [f]. *)
Fixpoint forEach {A : Type} (l : list A) (f : A -> M unit) : M unit :=
  match l with
  | [] => ret tt
  | x :: l' => f x ;; forEach l' f
  end.

(** A stretch of an [async] function whose promise nobody awaits or catches:
    it gives its result, or, when it throws, the promise is rejected, the
    rejection is unhandled and nothing reaches the caller. *)
Definition settled {A : Type} (m : M A) : M (option A) :=
  fun st =>
    match m st with
    | (Returned a, st') => (Returned (Some a), st')
    | (Thrown e, st') => (Returned None, with_trace (trace st' ++ [UnhandledRejection e]) st')
    end.

(** The unawaited callbacks of [array.forEach(async ...)], each taken from
    where it stands to its next [await] (or to its end), one after the
    other: [f x] is that stretch for the callback that stands at [x], and
    gives where it stands afterwards.  A callback that throws is gone. *)
Fixpoint each_settled {A B : Type} (l : list A) (f : A -> M B) : M (list B) :=
  match l with
  | [] => ret []
  | x :: l' =>
      r <- settled (f x) ;;
      rs <- each_settled l' f ;;
      ret (match r with Some b => b :: rs | None => rs end)
  end.

(** Calling an [async] function whose promise nobody awaits or catches: the
    body runs, and an exception in it becomes an unhandled rejection instead
    of reaching the caller. *)
Definition async (m : M unit) : M unit :=
  fun st =>
    match m st with
    | (Returned _, st') => (Returned tt, st')
    | (Thrown e, st') => (Returned tt, with_trace (trace st' ++ [UnhandledRejection e]) st')
    end.

(** [try { m } catch (e) { h e }]. *)
Definition try_catch (m : M unit) (h : JsError -> M unit) : M unit :=
  fun st =>
    match m st with
    | (Returned _, st') => (Returned tt, st')
    | (Thrown e, st') => h e st'
    end.

Definition exec {A : Type} (m : M A) (st : State) : State := (m st).2.
Definition outcome {A : Type} (m : M A) (st : State) : Outcome A := (m st).1.

(** ** The platform: what the browser and the build environment supply *)

Class Platform : Type := {
  (** [environment.iceServers] *)
  iceServers : list string;
  (** the exception [pc.addTrack(track)] throws, if it throws *)
  addTrack_error : RTCPeerConnection -> MediaStreamTrack -> option JsError;
  (** what [pc.createOffer(...)] settles to: a description, or a rejection *)
  createOffer : PcRef -> RTCPeerConnection -> Outcome RTCSessionDescription;
  (** what [pc.createAnswer(...)] settles to *)
  createAnswer : PcRef -> RTCPeerConnection -> Outcome RTCSessionDescription;
  (** the rejection of [pc.setLocalDescription(d)], if it rejects *)
  setLocalDescription_error :
    RTCPeerConnection -> RTCSessionDescription -> option JsError;
  (** the rejection of [pc.setRemoteDescription(d)], if it rejects *)
  setRemoteDescription_error :
    RTCPeerConnection -> RTCSessionDescription -> option JsError;
  (** the rejection of [pc.addIceCandidate(c)], if it rejects *)
  addIceCandidate_error : RTCPeerConnection -> RTCIceCandidate -> option JsError
}.

Definition set_pc_closed (p : RTCPeerConnection) : RTCPeerConnection :=
  mkPc true (pc_senders p) (pc_remoteDescription p) (pc_localDescription p)
    (pc_iceCandidates p) (pc_callbacks p).

Definition add_pc_sender (track : MediaStreamTrack) (p : RTCPeerConnection) : RTCPeerConnection :=
  mkPc (pc_closed p) (pc_senders p ++ [track]) (pc_remoteDescription p)
    (pc_localDescription p) (pc_iceCandidates p) (pc_callbacks p).

Definition set_pc_remoteDescription (d : RTCSessionDescription) (p : RTCPeerConnection) : RTCPeerConnection :=
  mkPc (pc_closed p) (pc_senders p) (Some d) (pc_localDescription p)
    (pc_iceCandidates p) (pc_callbacks p).

Definition set_pc_localDescription (d : RTCSessionDescription) (p : RTCPeerConnection) : RTCPeerConnection :=
  mkPc (pc_closed p) (pc_senders p) (pc_remoteDescription p) (Some d)
    (pc_iceCandidates p) (pc_callbacks p).

Definition add_pc_iceCandidate (c : RTCIceCandidate) (p : RTCPeerConnection) : RTCPeerConnection :=
  mkPc (pc_closed p) (pc_senders p) (pc_remoteDescription p) (pc_localDescription p)
    (pc_iceCandidates p ++ [c]) (pc_callbacks p).

Definition set_pc_callback (slot : CallbackSlot) (remoteId : jsid) (p : RTCPeerConnection) : RTCPeerConnection :=
  mkPc (pc_closed p) (pc_senders p) (pc_remoteDescription p) (pc_localDescription p)
    (pc_iceCandidates p) (JSMap.set slot remoteId (pc_callbacks p)).

(** A call on the peer connection [pc] that cannot fail (an assignment to a
    property, [close()]): recorded in the trace, and its effect [f] applied
    to the object. *)
Definition pc_call (pc : PcRef) (e : Effect) (f : RTCPeerConnection -> RTCPeerConnection) : M unit :=
  modify (fun st => with_trace (trace st ++ [e]) (with_pcs (alter f pc (pcs st)) st)).

(** A call on the peer connection [pc] that the browser may refuse: recorded
    in the trace; then either it throws what [err] says for the object as it
    is, or its effect [f] is applied. *)
Definition pc_try (pc : PcRef) (e : Effect) (err : RTCPeerConnection -> option JsError)
    (f : RTCPeerConnection -> RTCPeerConnection) : M unit :=
  fun st =>
    match err (default fresh_pc (pcs st !! pc)) with
    | Some x => (Thrown x, with_trace (trace st ++ [e]) st)
    | None =>
        (Returned tt, with_trace (trace st ++ [e]) (with_pcs (alter f pc (pcs st)) st))
    end.

(** [DetectRTC]'s flags. *)
Record DetectRTC : Type := mkDetectRTC {
  isWebRTCSupported : bool;
  hasWebcam : bool;
  hasMicrophone : bool
}.

(** What the device answers during [ngOnInit].  A permission is the pair
    of what [checkPermission] and [requestPermission] report. *)
Record Environment : Type := mkEnvironment {
  platform_android : bool;
  platform_ios : bool;
  permission_READ_EXTERNAL_STORAGE : bool * bool;
  permission_CAMERA : bool * bool;
  permission_RECORD_AUDIO : bool * bool;
  detectRTC : DetectRTC;
  probe_video : option MediaStream;
  probe_audio : option MediaStream;
  diagnostic_isCameraAvailable : bool;
  diagnostic_isMicrophoneAuthorized : bool;
  io_socket : Socket;
  userMedia : option MediaStream
}.

(** ** Events *)

Inductive SocketEvent : Type :=
| OnCreate (roomId : nat)
| OnJoin (userIds : option (list jsid))
| OnReceivedOffer (offer : Offer)
| OnReceivedAnswer (answer : Answer)
| OnReceivedCandidate (candidate : Candidate)
| OnUserDisconnect (userId : jsid)
| Disconnect.

Inductive PcEvent : Type :=
| IceCandidateEvent (candidate : option RTCIceCandidate)
| TrackEvent (track : MediaStreamTrack)
| ConnectionStateChange
| NegotiationNeeded
| IceConnectionStateChange.

Inductive Event : Type :=
| FromSocket (e : SocketEvent)
| FromPeer (pc : PcRef) (e : PcEvent)
| LocalStreamChange (media : option MediaStream).

Section Page.
Context `{Platform}.

(** *** Console, socket, tracks, peer connections *)

Definition console_log (args : list LogArg) : M unit := effect (ConsoleLog args).

(** [this.ioConnection.emit(...)]; a [TypeError] when [ioConnection] is
    undefined. *)
Definition emit (m : OutMessage) : M unit :=
  fun st =>
    match ioConnection st with
    | Some _ => effect (SocketEmit m) st
    | None => (Thrown TypeError, st)
    end.

(** [this.ioConnection.id] *)
Definition ioConnection_id : M string :=
  fun st =>
    match ioConnection st with
    | Some sock => (Returned (socket_id sock), st)
    | None => (Thrown TypeError, st)
    end.

(** [this.ioConnection.close()] *)
Definition ioConnection_close : M unit :=
  fun st =>
    match ioConnection st with
    | Some sock =>
        (Returned tt,
         with_trace (trace st ++ [SocketClose])
           (with_ioConnection (Some (mkSocket (socket_id sock) true)) st))
    | None => (Thrown TypeError, st)
    end.

(** [track.stop()] *)
Definition track_stop (value : MediaStreamTrack) : M unit :=
  modify (fun st =>
    with_trace (trace st ++ [TrackStop value])
      (with_stopped (stopped st ++ [track_id value]) st)).

(** [new RTCPeerConnection({ iceServers: environment.iceServers })] *)
Definition new_RTCPeerConnection : M PcRef :=
  fun st =>
    let pc := length (pcs st) in
    (Returned pc,
     with_trace (trace st ++ [PcNew pc iceServers])
       (with_pcs (pcs st ++ [fresh_pc]) st)).

Definition pc_assign (pc : PcRef) (slot : CallbackSlot) (remoteId : jsid) : M unit :=
  pc_call pc (PcAssign pc slot remoteId) (set_pc_callback slot remoteId).

Definition pc_addTrack (pc : PcRef) (track : MediaStreamTrack) : M unit :=
  pc_try pc (PcAddTrack pc track) (fun p => addTrack_error p track)
    (add_pc_sender track).

Definition pc_setRemoteDescription (pc : PcRef) (d : RTCSessionDescription) : M unit :=
  pc_try pc (PcSetRemoteDescription pc d) (fun p => setRemoteDescription_error p d)
    (set_pc_remoteDescription d).

Definition pc_setLocalDescription (pc : PcRef) (d : RTCSessionDescription) : M unit :=
  pc_try pc (PcSetLocalDescription pc d) (fun p => setLocalDescription_error p d)
    (set_pc_localDescription d).

Definition pc_addIceCandidate (pc : PcRef) (c : RTCIceCandidate) : M unit :=
  pc_try pc (PcAddIceCandidate pc c) (fun p => addIceCandidate_error p c)
    (add_pc_iceCandidate c).

Definition pc_close (pc : PcRef) : M unit :=
  pc_call pc (PcClose pc) set_pc_closed.

(** The call [pc.createOffer(...)]: made now, it settles later; the value is
    what it will settle to. *)
Definition pc_createOffer_call (pc : PcRef) : M (Outcome RTCSessionDescription) :=
  fun st =>
    (Returned (createOffer pc (default fresh_pc (pcs st !! pc))),
     with_trace (trace st ++ [PcCreateOffer pc]) st).

(** [await promise] *)
Definition await {A : Type} (promise : Outcome A) : M A :=
  match promise with
  | Returned a => ret a
  | Thrown e => throw e
  end.

(** [await pc.createAnswer(...)] *)
Definition pc_createAnswer (pc : PcRef) : M RTCSessionDescription :=
  fun st =>
    (createAnswer pc (default fresh_pc (pcs st !! pc)),
     with_trace (trace st ++ [PcCreateAnswer pc]) st).

(** [peerConnection.localDescription] *)
Definition pc_get_localDescription (pc : PcRef) : M (option RTCSessionDescription) :=
  gets (fun st => pcs st !! pc ≫= pc_localDescription).

(** The tracks of [this.localVideo.nativeElement.srcObject] when it is a
    [MediaStream], none otherwise. *)
Definition addLocalTracks (peerConnection : PcRef) : M unit :=
  srcObject <- gets localVideo_srcObject ;;
  match srcObject with
  | Some stream =>
      forEach (getTracks stream) (fun value1 => pc_addTrack peerConnection value1)
  | None => ret tt
  end.

(** *** [getOrCreatePeerConnection] (lines 289-347) *)

Definition getOrCreatePeerConnection (remoteId : jsid) : M PcRef :=
  peerConnection <-
    (if negb (nullish remoteId)
     then gets (fun st => JSMap.get remoteId (peerConnectionMap st))
     else ret None) ;;
  match peerConnection with
  | Some pc => ret pc
  | None =>
      newPeerConnection <- new_RTCPeerConnection ;;
      pc_assign newPeerConnection Onicecandidate remoteId ;;
      pc_assign newPeerConnection Ontrack remoteId ;;
      pc_assign newPeerConnection Onconnectionstatechange remoteId ;;
      pc_assign newPeerConnection Onnegotiationneeded remoteId ;;
      pc_assign newPeerConnection Oniceconnectionstatechange remoteId ;;
      modify (fun st =>
        with_peerConnectionMap
          (JSMap.set remoteId newPeerConnection (peerConnectionMap st)) st) ;;
      ret newPeerConnection
  end.

(** The callbacks assigned above, as functions of the captured [remoteId]. *)

Definition onicecandidate (remoteId : jsid) (candidate : option RTCIceCandidate) : M unit :=
  console_log [LogText "onicecandidate"; LogIceEvent candidate] ;;
  match candidate with
  | Some c =>
      senderId <- ioConnection_id ;;
      emit (TransferCandidate c senderId remoteId)
  | None => ret tt
  end.

Definition ontrack (remoteId : jsid) (track : MediaStreamTrack) : M unit :=
  console_log [LogText "ontrack"; LogTrackEvent track] ;;
  found <- gets (fun st => JSMap.get remoteId (targetUserStreamDataMap st)) ;;
  let item := stream_addTrack track (default [] found) in
  modify (fun st =>
    with_targetUserStreamDataMap
      (JSMap.set remoteId item (targetUserStreamDataMap st)) st).

Definition onconnectionstatechange : M unit :=
  async (console_log [LogText "onconnectionstatechange"; LogEvent]).

Definition onnegotiationneeded : M unit :=
  async (console_log [LogText "onnegotiationneeded"; LogEvent]).

Definition oniceconnectionstatechange : M unit :=
  console_log [LogText "oniceconnectionstatechange"; LogEvent].

(** *** Removal (lines 349-382) *)

Definition removePeerConnection (remoteId : jsid) : M unit :=
  if nullish remoteId then ret tt
  else
    peerConnection <- gets (fun st => JSMap.get remoteId (peerConnectionMap st)) ;;
    match peerConnection with
    | Some pc => pc_close pc
    | None => ret tt
    end ;;
    modify (fun st =>
      with_peerConnectionMap (JSMap.delete remoteId (peerConnectionMap st)) st).

Definition removeStream (remoteId : jsid) : M unit :=
  if nullish remoteId then ret tt
  else
    streamData <- gets (fun st => JSMap.get remoteId (targetUserStreamDataMap st)) ;;
    match streamData with
    | Some stream => forEach (getTracks stream) track_stop
    | None => ret tt
    end ;;
    modify (fun st =>
      with_targetUserStreamDataMap
        (JSMap.delete remoteId (targetUserStreamDataMap st)) st).

(** [data.pop()] takes from the end of the array: the connections are
    closed last-inserted first.  The [Map] itself is not touched. *)
Definition removeAllPeerConnection : M unit :=
  data <- gets (fun st => JSMap.values (peerConnectionMap st)) ;;
  forEach (reverse data) pc_close.

Definition removeAllCurrentConnection : M unit :=
  io <- gets ioConnection ;;
  match io with
  | None => ret tt
  | Some _ =>
      data <- gets (fun st => JSMap.keys (peerConnectionMap st)) ;;
      forEach data (fun value => emit (RemoveConnection value))
  end.

(** *** [sendOffers] (lines 388-417)

    The callback of [userIds.forEach(async value => ...)] has two [await]s
    and so three stretches.  [forEach] does not await it: every callback
    runs its first stretch before any runs its second. *)

(** Lines 395-406, up to the call of [createOffer]. *)
Definition sendOffers_begin (value : jsid)
    : M (jsid * PcRef * Outcome RTCSessionDescription) :=
  peerConnection <- getOrCreatePeerConnection value ;;
  addLocalTracks peerConnection ;;
  promise <- pc_createOffer_call peerConnection ;;
  ret (value, peerConnection, promise).

(** Line 406, once [createOffer] has settled: the call of
    [setLocalDescription]. *)
Definition sendOffers_describe
    (callback : jsid * PcRef * Outcome RTCSessionDescription) : M (jsid * PcRef) :=
  let '(value, peerConnection, promise) := callback in
  offer <- await promise ;;
  pc_setLocalDescription peerConnection offer ;;
  ret (value, peerConnection).

(** Lines 411-415, once [setLocalDescription] has settled. *)
Definition sendOffers_emit (callback : jsid * PcRef) : M unit :=
  let '(value, peerConnection) := callback in
  localDescription <- pc_get_localDescription peerConnection ;;
  senderId <- ioConnection_id ;;
  emit (TransferOffer localDescription senderId value).

Definition sendOffers (userIds : list jsid) : M unit :=
  io <- gets ioConnection ;;
  match io with
  | None => ret tt
  | Some _ =>
      begun <- each_settled userIds sendOffers_begin ;;
      described <- each_settled begun sendOffers_describe ;;
      each_settled described sendOffers_emit ;;
      ret tt
  end.

(** *** [getUserStreamData] (lines 419-432)

    [media] is what [navigator.mediaDevices.getUserMedia] resolves to;
    [None] when it rejects. *)
Definition getUserStreamData (media : option MediaStream) : M unit :=
  match media with
  | None => throw MediaUnavailable
  | Some stream =>
      modify (with_localUserStreamData (Some stream)) ;;
      localStream <- gets localUserStreamData ;;
      modify (with_localVideo_srcObject localStream) ;;
      size <- gets (fun st => JSMap.size (peerConnectionMap st)) ;;
      if bool_decide (0 < size) then
        userIds <- gets (fun st => JSMap.keys (peerConnectionMap st)) ;;
        removeAllCurrentConnection ;;
        sendOffers userIds
      else ret tt
  end.

(** *** The socket.io handlers registered in [ngOnInit] (lines 82-186) *)

Definition on_create (roomId : nat) : M unit :=
  console_log [LogText "on-create"; LogRoom roomId].

Definition on_join (userIds : option (list jsid)) : M unit :=
  console_log [LogText "on-join"; LogUserIds userIds] ;;
  match userIds with
  | None => emit (CreateRoom 1)
  | Some ids => sendOffers ids
  end.

Definition on_received_offer_body (offer : Offer) : M unit :=
  console_log [LogText "on-received-offer"; LogOffer offer] ;;
  peerConnection <- getOrCreatePeerConnection (offer_senderId offer) ;;
  addLocalTracks peerConnection ;;
  pc_setRemoteDescription peerConnection (offer_sdp offer) ;;
  answer <- pc_createAnswer peerConnection ;;
  pc_setLocalDescription peerConnection answer ;;
  localDescription <- pc_get_localDescription peerConnection ;;
  senderId <- ioConnection_id ;;
  emit (TransferAnswer localDescription senderId (offer_senderId offer)).

Definition on_received_offer (offer : Offer) : M unit :=
  async (on_received_offer_body offer).

Definition on_received_answer_body (answer : Answer) : M unit :=
  console_log [LogText "on-received-answer"; LogAnswer answer] ;;
  peerConnection <- getOrCreatePeerConnection (answer_senderId answer) ;;
  pc_setRemoteDescription peerConnection (answer_sdp answer).

Definition on_received_answer (answer : Answer) : M unit :=
  async (on_received_answer_body answer).

Definition on_received_candidate_body (candidate : Candidate) : M unit :=
  console_log [LogText "on-received-candidate"; LogCandidate candidate] ;;
  peerConnection <- getOrCreatePeerConnection (candidate_senderId candidate) ;;
  pc_addIceCandidate peerConnection (candidate_candidate candidate).

Definition on_received_candidate (candidate : Candidate) : M unit :=
  async (on_received_candidate_body candidate).

Definition on_user_disconnect (userId : jsid) : M unit :=
  console_log [LogText "on-user-disconnect"; LogUserId userId] ;;
  removePeerConnection userId ;;
  removeStream userId.

Definition on_disconnect : M unit :=
  console_log [LogText "disconnect"] ;;
  removeAllPeerConnection.

(** *** [ngOnDestroy] (lines 202-214) *)

Definition ngOnDestroy : M unit :=
  connections <- gets (fun st => JSMap.values (peerConnectionMap st)) ;;
  forEach connections pc_close ;;
  streams <- gets (fun st => JSMap.values (targetUserStreamDataMap st)) ;;
  forEach streams (fun item => forEach (getTracks item) track_stop) ;;
  modify (fun st => with_peerConnectionMap (JSMap.clear (peerConnectionMap st)) st) ;;
  modify (fun st =>
    with_targetUserStreamDataMap (JSMap.clear (targetUserStreamDataMap st)) st) ;;
  ioConnection_close.

(** *** Capability probing (lines 216-287) *)

(** [stream?.getTracks().some(f)]: [undefined] (falsy) when the stream is
    [undefined].  The source's test [value != null] is true of every
    element of [getTracks()], so [f] is the rest of the conjunction. *)
Definition some_track (f : MediaStreamTrack -> bool) (stream : option MediaStream) : bool :=
  match stream with
  | Some s => existsb f (getTracks s)
  | None => false
  end.

(** [stream.getTracks().forEach(value => value.stop())] *)
Definition stop_tracks (stream : option MediaStream) : M unit :=
  match stream with
  | Some s => forEach (getTracks s) track_stop
  | None => throw TypeError
  end.

(** [videoStream] and [audioStream] are what the two [getUserMedia] probes
    resolve to, [None] after [.catch(() => undefined)]. *)
Definition checkWebRTCAvailability (rtc : DetectRTC)
    (videoStream audioStream : option MediaStream) : M unit :=
  console_log [LogFlag (isWebRTCSupported rtc)] ;;
  console_log [LogFlag (hasWebcam rtc)] ;;
  console_log [LogFlag (hasMicrophone rtc)] ;;
  (if negb (isWebRTCSupported rtc) then throw RTCNotSupportedError else ret tt) ;;
  (if negb (some_track (fun value => negb (track_enabled value)) videoStream)
      || negb (hasWebcam rtc)
   then throw RTCNoAvailableCameraError
   else stop_tracks videoStream) ;;
  (if negb (some_track (fun value => track_enabled value) audioStream)
      || negb (hasMicrophone rtc)
   then throw RTCNoAvailableMicrophoneError
   else stop_tracks audioStream).

Definition checkMobileRTCAvailability (rtc : DetectRTC) (ios : bool)
    (videoStream audioStream : option MediaStream)
    (isCameraAvailable isMicrophoneAuthorized : bool) : M unit :=
  console_log [LogFlag (isWebRTCSupported rtc)] ;;
  (if negb (isWebRTCSupported rtc) then throw RTCNotSupportedError else ret tt) ;;
  (if ios then
     match videoStream with
     | None => throw RTCNoAvailableMicrophoneError
     | Some s => forEach (getTracks s) track_stop
     end
   else ret tt) ;;
  (if negb isCameraAvailable then throw RTCNoAvailableCameraError else ret tt) ;;
  (if ios then
     match audioStream with
     | None => throw RTCNoAvailableMicrophoneError
     | Some s => forEach (getTracks s) track_stop
     end
   else ret tt) ;;
  (if negb isMicrophoneAuthorized then throw RTCNoAvailableMicrophoneError else ret tt).

Definition checkRTCAvailability (env : Environment) : M unit :=
  if platform_android env || platform_ios env
  then checkMobileRTCAvailability (detectRTC env) (platform_ios env)
         (probe_video env) (probe_audio env)
         (diagnostic_isCameraAvailable env) (diagnostic_isMicrophoneAuthorized env)
  else checkWebRTCAvailability (detectRTC env) (probe_video env) (probe_audio env).

(** *** [ngOnInit] (lines 49-200) *)

(** [checkPermission], then [requestPermission] when the check says no. *)
Definition hasPermission (p : bool * bool) : bool := p.1 || p.2.

Definition ngOnInit_try (env : Environment) : M unit :=
  try_catch
    (checkRTCAvailability env ;;
     modify (with_ioConnection (Some (io_socket env))) ;;
     getUserStreamData (userMedia env) ;;
     emit (JoinRoom 0))
    (fun e => console_log [LogError e]).

Definition ngOnInit (env : Environment) : M unit :=
  if platform_android env then
    if negb (hasPermission (permission_READ_EXTERNAL_STORAGE env)) then effect AppExit
    else if negb (hasPermission (permission_CAMERA env)) then effect AppExit
    else if negb (hasPermission (permission_RECORD_AUDIO env)) then effect AppExit
    else ngOnInit_try env
  else ngOnInit_try env.

(** ** Event delivery *)

(** The listener socket.io runs for an inbound event. *)
Definition socket_listener (e : SocketEvent) : M unit :=
  match e with
  | OnCreate roomId => on_create roomId
  | OnJoin userIds => on_join userIds
  | OnReceivedOffer offer => on_received_offer offer
  | OnReceivedAnswer answer => on_received_answer answer
  | OnReceivedCandidate candidate => on_received_candidate candidate
  | OnUserDisconnect userId => on_user_disconnect userId
  | Disconnect => on_disconnect
  end.

Definition slot_of (e : PcEvent) : CallbackSlot :=
  match e with
  | IceCandidateEvent _ => Onicecandidate
  | TrackEvent _ => Ontrack
  | ConnectionStateChange => Onconnectionstatechange
  | NegotiationNeeded => Onnegotiationneeded
  | IceConnectionStateChange => Oniceconnectionstatechange
  end.

(** The closure stored in a callback property, applied to its event. *)
Definition pc_callback (remoteId : jsid) (e : PcEvent) : M unit :=
  match e with
  | IceCandidateEvent candidate => onicecandidate remoteId candidate
  | TrackEvent track => ontrack remoteId track
  | ConnectionStateChange => onconnectionstatechange
  | NegotiationNeeded => onnegotiationneeded
  | IceConnectionStateChange => oniceconnectionstatechange
  end.

(** The events a peer connection may still deliver once it is closed. *)
Definition after_close (e : PcEvent) : bool :=
  match e with
  | ConnectionStateChange | IceConnectionStateChange => true
  | _ => false
  end.

(** One turn of the event loop.  Socket listeners exist once [ngOnInit] has
    created the socket.  A peer connection runs a callback only if the
    property was assigned; once closed it delivers no candidate, track or
    negotiation event.  An exception that leaves a listener ends that turn;
    the state it left stays. *)
Definition deliver (ev : Event) (st : State) : State :=
  match ev with
  | FromSocket e =>
      match ioConnection st with
      | Some _ => exec (socket_listener e) st
      | None => st
      end
  | FromPeer pc e =>
      match pcs st !! pc with
      | Some p =>
          if pc_closed p && negb (after_close e) then st
          else match JSMap.get (slot_of e) (pc_callbacks p) with
               | Some remoteId => exec (pc_callback remoteId e) st
               | None => st
               end
      | None => st
      end
  | LocalStreamChange media => exec (getUserStreamData media) st
  end.

Definition run (evs : list Event) (st : State) : State :=
  foldl (fun s ev => deliver ev s) st evs.

End Page.

(** * Notions used in the statements *)

Section Derived.
Context `{Platform}.

(** [addTrack] for each track of [l], in order. *)
Definition add_pc_senders (l : list MediaStreamTrack) (p : RTCPeerConnection) : RTCPeerConnection :=
  mkPc (pc_closed p) (pc_senders p ++ l) (pc_remoteDescription p)
    (pc_localDescription p) (pc_iceCandidates p) (pc_callbacks p).

(** The tracks of [localVideo.nativeElement.srcObject]; none while it is
    [null]. *)
Definition local_tracks (st : State) : list MediaStreamTrack :=
  match localVideo_srcObject st with
  | Some stream => getTracks stream
  | None => []
  end.

(** The calls with which [getOrCreatePeerConnection] creates the connection
    [pc] and assigns its callbacks (lines 298-343). *)
Definition wiring (pc : PcRef) (remoteId : jsid) : list Effect :=
  [PcNew pc iceServers;
   PcAssign pc Onicecandidate remoteId;
   PcAssign pc Ontrack remoteId;
   PcAssign pc Onconnectionstatechange remoteId;
   PcAssign pc Onnegotiationneeded remoteId;
   PcAssign pc Oniceconnectionstatechange remoteId].

(** The connection object those calls leave behind. *)
Definition wired_pc (remoteId : jsid) : RTCPeerConnection :=
  mkPc false [] None None []
    [(Onicecandidate, remoteId); (Ontrack, remoteId);
     (Onconnectionstatechange, remoteId); (Onnegotiationneeded, remoteId);
     (Oniceconnectionstatechange, remoteId)].

(** The state once [getOrCreatePeerConnection] has created a connection for
    [remoteId] and stored it (lines 298-346). *)
Definition register (remoteId : jsid) (st : State) : State :=
  let pc := length (pcs st) in
  with_peerConnectionMap (JSMap.set remoteId pc (peerConnectionMap st))
    (with_trace (trace st ++ wiring pc remoteId)
       (with_pcs (pcs st ++ [wired_pc remoteId]) st)).

(** The store once [close()] has been called on each connection of [l]. *)
Definition close_all (l : list PcRef) (h : list RTCPeerConnection) : list RTCPeerConnection :=
  foldl (fun h pc => alter set_pc_closed pc h) h l.

(** The state once [console.log] has printed [args]. *)
Definition logged (args : list LogArg) (st : State) : State :=
  with_trace (trace st ++ [ConsoleLog args]) st.

(** Every reference held by the Peer Session Registry names an object of the
    store. *)
Definition registry_valid (st : State) : Prop :=
  Forall (fun pc => pc < length (pcs st)) (JSMap.values (peerConnectionMap st)).

(** How many times the trace [t] assigns the callback property [slot] a
    closure over [remoteId]. *)
Definition is_assign (slot : CallbackSlot) (remoteId : jsid) (e : Effect) : bool :=
  match e with
  | PcAssign _ slot' remoteId' =>
      bool_decide (slot' = slot) && bool_decide (remoteId' = remoteId)
  | _ => false
  end.

Fixpoint assignments (slot : CallbackSlot) (remoteId : jsid) (t : list Effect) : nat :=
  match t with
  | [] => 0
  | e :: t' =>
      (if is_assign slot remoteId e then 1 else 0) + assignments slot remoteId t'
  end.

(** A property of the state that a computation keeps. *)
Definition preserves {A : Type} (P : State -> Prop) (m : M A) : Prop :=
  forall st, P st -> P (exec m st).

(** An update of a peer connection that assigns no callback and does not
    reopen it. *)
Definition passive (f : RTCPeerConnection -> RTCPeerConnection) : Prop :=
  forall p,
    pc_callbacks (f p) = pc_callbacks p
    /\ (pc_closed (f p) = false -> pc_closed p = false).

(** A property that survives output, passive updates of peer connections,
    stopping tracks, and a change of the local stream. *)
Definition stable (P : State -> Prop) : Prop :=
  (forall st t, P st -> P (with_trace (trace st ++ t) st))
  /\ (forall st f pc, passive f -> P st -> P (with_pcs (alter f pc (pcs st)) st))
  /\ (forall st ids, P st -> P (with_stopped (stopped st ++ ids) st))
  /\ (forall st x, P st -> P (with_localUserStreamData x st))
  /\ (forall st x, P st -> P (with_localVideo_srcObject x st))
  /\ (forall st x, P st -> P (with_ioConnection x st)).

(** From [st] to [st']: the line [line] was printed, then a fresh peer
    connection was created, wired for [remoteId] and stored in the Peer
    Session Registry under [remoteId]; the Remote Stream Registry is as it
    was. *)
Definition session_registered (remoteId : jsid) (line : list LogArg) (st st' : State) : Prop :=
  let pc := length (pcs st) in
  (exists t, trace st' = trace st ++ ConsoleLog line :: wiring pc remoteId ++ t)
  /\ peerConnectionMap st' = JSMap.set remoteId pc (peerConnectionMap st)
  /\ length (pcs st') = S (length (pcs st))
  /\ targetUserStreamDataMap st' = targetUserStreamDataMap st.

(** The state after [on-user-disconnect] for a non-null [userId]
    (lines 169-177, 349-367). *)
Definition peer_removed (userId : jsid) (st : State) : State :=
  let session := JSMap.get userId (peerConnectionMap st) in
  let stream := default [] (JSMap.get userId (targetUserStreamDataMap st)) in
  mkState (ioConnection st)
    (JSMap.delete userId (peerConnectionMap st))
    (localUserStreamData st) (localVideo_srcObject st)
    (JSMap.delete userId (targetUserStreamDataMap st))
    match session with
    | Some pc => alter set_pc_closed pc (pcs st)
    | None => pcs st
    end
    (stopped st ++ (track_id <$> stream))
    (trace st ++
     ConsoleLog [LogText "on-user-disconnect"; LogUserId userId] ::
     match session with Some pc => [PcClose pc] | None => [] end ++
     (TrackStop <$> stream)).

(** Every identifier with a remote stream has a peer session. *)
Definition keyset_consistent (st : State) : Prop :=
  JSMap.keys (targetUserStreamDataMap st) ⊆ JSMap.keys (peerConnectionMap st).

(** Every peer connection that can still fire [ontrack] is accounted for in
    the Peer Session Registry: under a non-null captured identifier it is the
    very session registered; a null or undefined captured identifier is at
    least a key of the registry. *)
Definition callbacks_registered (st : State) : Prop :=
  forall pc p remoteId,
    pcs st !! pc = Some p ->
    pc_closed p = false ->
    JSMap.get Ontrack (pc_callbacks p) = Some remoteId ->
    if nullish remoteId then remoteId ∈ JSMap.keys (peerConnectionMap st)
    else JSMap.get remoteId (peerConnectionMap st) = Some pc.

(** The invariant of the event loop. *)
Definition registries_linked (st : State) : Prop :=
  keyset_consistent st /\ callbacks_registered st.

(** Both registries are [Map]s and the Peer Session Registry holds live
    references. *)
Definition wellformed (st : State) : Prop :=
  JSMap.wf (peerConnectionMap st)
  /\ JSMap.wf (targetUserStreamDataMap st)
  /\ registry_valid st.

(** A property of the registry and of the number of connection objects. *)
Definition sessions_are (m : JSMap.t jsid PcRef) (n : nat) (st : State) : Prop :=
  peerConnectionMap st = m /\ length (pcs st) = n.

(** The messages a trace sends to the relay, in order. *)
Definition emitted (t : list Effect) : list OutMessage :=
  omap (fun e => match e with SocketEmit m => Some m | _ => None end) t.

(** The identifiers of the tracks of a probe stream; none without a stream. *)
Definition probe_ids (stream : option MediaStream) : list nat :=
  track_id <$> default [] stream.

(** Every session of the Peer Session Registry is a connection of the store
    whose callbacks are the closures [getOrCreatePeerConnection] made for the
    key it is registered under. *)
Definition registry_wired (st : State) : Prop :=
  forall k pc,
    JSMap.get k (peerConnectionMap st) = Some pc ->
    exists p, pcs st !! pc = Some p /\ pc_callbacks p = pc_callbacks (wired_pc k).

(** The listeners that, by their code, have no reason to write to the socket. *)
Definition silent (e : SocketEvent) : bool :=
  match e with
  | OnJoin _ | OnReceivedOffer _ => false
  | _ => true
  end.




(** From [st] to [st']: the socket is the same, the trace has grown, and
    what it has grown by sends exactly the messages [ms] to the relay. *)
Definition follows (ms : list OutMessage) (st st' : State) : Prop :=
  ioConnection st' = ioConnection st
  /\ exists t, trace st' = trace st ++ t /\ emitted t = ms.

(** A computation that keeps the socket and whose messages satisfy [Q],
    whatever the state it starts from and whether it returns or throws. *)
Definition sends (Q : list OutMessage -> Prop) {A : Type} (m : M A) : Prop :=
  forall st, exists ms, follows ms st (exec m st) /\ Q ms.

(** The local stream as the page holds it: the field and the source of the
    local video element. *)
Definition local_stream (st : State) : option MediaStream * option MediaStream :=
  (localUserStreamData st, localVideo_srcObject st).

(** The errors the capability probes throw on purpose. *)
Definition rtc_error (e : JsError) : bool :=
  match e with
  | RTCNotSupportedError | RTCNoAvailableCameraError | RTCNoAvailableMicrophoneError =>
      true
  | _ => false
  end.

(** The rejections of unawaited callbacks and [async] listeners that a
    trace reports, in order. *)
Definition rejected (t : list Effect) : list JsError :=
  omap (fun e => match e with UnhandledRejection x => Some x | _ => None end) t.

(** A computation whose own stretch of trace reports no rejection: what it
    throws, it throws to its caller. *)
Definition unrejected {A : Type} (m : M A) : Prop :=
  forall st, exists t, trace (exec m st) = trace st ++ t /\ rejected t = [].

(** The stretch of trace written from [st] to [st']. *)
Definition since (st st' : State) : list Effect :=
  drop (length (trace st)) (trace st').

(** The candidates a trace hands to [addIceCandidate] on the connection
    [pc], in order. *)
Definition candidates_tried (pc : PcRef) (t : list Effect) : list RTCIceCandidate :=
  omap (fun e => match e with
                 | PcAddIceCandidate pc' c => if decide (pc' = pc) then Some c else None
                 | _ => None
                 end) t.

(** A computation that leaves the part [g] of the state as it is. *)
Definition keeps {X A : Type} (g : State -> X) (m : M A) : Prop :=
  forall st, g (exec m st) = g st.

End Derived.

(** * Sample data for concrete runs *)

(** A browser for the concrete runs.  It refuses what the WebRTC API says
    a browser refuses: any call but [close()] on a closed connection
    ([InvalidStateError]), [addTrack] for a track the connection already
    sends ([InvalidAccessError]), [createAnswer] and [addIceCandidate] while
    there is no remote description ([InvalidStateError]). *)
Definition sample_platform : Platform :=
  {| iceServers := ["stun:stun.example.org"];
     addTrack_error := fun p track =>
       if pc_closed p then Some InvalidStateError
       else if bool_decide (track ∈ pc_senders p) then Some InvalidAccessError
       else None;
     createOffer := fun pc p =>
       if pc_closed p then Thrown InvalidStateError
       else Returned (mkSdp SdpOffer "offer");
     createAnswer := fun pc p =>
       if pc_closed p then Thrown InvalidStateError
       else if pc_remoteDescription p is Some _
            then Returned (mkSdp SdpAnswer "answer")
            else Thrown InvalidStateError;
     setLocalDescription_error := fun p d =>
       if pc_closed p then Some InvalidStateError else None;
     setRemoteDescription_error := fun p d =>
       if pc_closed p then Some InvalidStateError else None;
     addIceCandidate_error := fun p c =>
       if pc_closed p then Some InvalidStateError
       else if pc_remoteDescription p is Some _ then None
       else Some InvalidStateError |}.

Definition sample_socket : Socket := mkSocket "me" false.

Definition camera_track : MediaStreamTrack := mkTrack 1 true.
Definition microphone_track : MediaStreamTrack := mkTrack 2 true.
Definition remote_track : MediaStreamTrack := mkTrack 7 true.
Definition new_camera_track : MediaStreamTrack := mkTrack 3 true.

(** An Android device with every permission granted, a camera and a
    microphone. *)
Definition sample_env : Environment :=
  {| platform_android := true;
     platform_ios := false;
     permission_READ_EXTERNAL_STORAGE := (true, false);
     permission_CAMERA := (false, true);
     permission_RECORD_AUDIO := (true, false);
     detectRTC := mkDetectRTC true true true;
     probe_video := None;
     probe_audio := None;
     diagnostic_isCameraAvailable := true;
     diagnostic_isMicrophoneAuthorized := true;
     io_socket := sample_socket;
     userMedia := Some [camera_track; microphone_track] |}.

(** The same device with the camera permission refused, at the check and at
    the request. *)
Definition refused_env : Environment :=
  {| platform_android := true;
     platform_ios := false;
     permission_READ_EXTERNAL_STORAGE := (true, false);
     permission_CAMERA := (false, false);
     permission_RECORD_AUDIO := (true, false);
     detectRTC := mkDetectRTC true true true;
     probe_video := None;
     probe_audio := None;
     diagnostic_isCameraAvailable := true;
     diagnostic_isMicrophoneAuthorized := true;
     io_socket := sample_socket;
     userMedia := Some [camera_track; microphone_track] |}.

Section Samples.
#[local] Existing Instance sample_platform.

(** The page once [ngOnInit] has run on that device. *)
Definition joined : State := exec (ngOnInit sample_env) newHomePage.

(** The room already held "B": an offer went out to "B", and a track of "B"
    has arrived. *)
Definition in_call : State :=
  run [FromSocket (OnJoin (Some [JStr "B"])); FromPeer 0 (TrackEvent remote_track)] joined.

(** The session of "B" while in the call: wired for "B", carrying the two
    local tracks and the offer as its local description. *)
Definition session_b : RTCPeerConnection :=
  set_pc_localDescription (mkSdp SdpOffer "offer")
    (add_pc_senders [camera_track; microphone_track] (wired_pc (JStr "B"))).

(** "B" has answered. *)
Definition answered : State :=
  deliver (FromSocket (OnReceivedAnswer
                         (mkAnswer (mkSdp SdpAnswer "remote") (JStr "B") (JStr "me"))))
    in_call.

(** The session of "B" once its answer is in. *)
Definition session_b_answered : RTCPeerConnection :=
  set_pc_remoteDescription (mkSdp SdpAnswer "remote") session_b.

End Samples.

(** * Facts about [JSMap] *)

Section JSMapFacts.
Context {K V : Type} `{EqDecision K}.
Implicit Types (k : K) (v : V) (m : JSMap.t K V).

Lemma get_set_eq k v m : JSMap.get k (JSMap.set k v m) = Some v.
Proof.
  induction m as [|[k' v'] m IH]; simpl.
  - by rewrite decide_True.
  - destruct (decide (k' = k)) as [->|Hne]; simpl.
    + by rewrite decide_True.
    + by rewrite decide_False.
Qed.

Lemma get_set_ne k k' v m : k <> k' -> JSMap.get k' (JSMap.set k v m) = JSMap.get k' m.
Proof.
  intros Hne. induction m as [|[k0 v0] m IH]; simpl.
  - by rewrite decide_False.
  - destruct (decide (k0 = k)) as [->|Hk0]; simpl.
    + by rewrite !decide_False.
    + by rewrite IH.
Qed.

Lemma elem_of_keys_get k m : k ∈ JSMap.keys m <-> is_Some (JSMap.get k m).
Proof.
  unfold JSMap.keys. induction m as [|[k' v'] m IH]; csimpl.
  - split; [by intros ?%elem_of_nil | by intros [? ?]].
  - rewrite elem_of_cons. destruct (decide (k' = k)) as [->|Hne].
    + split; [eauto | by left].
    + rewrite <- IH. split; [intros [?|?]; [congruence|done] | by right].
Qed.

Lemma not_elem_of_keys_get k m : k ∉ JSMap.keys m <-> JSMap.get k m = None.
Proof. rewrite elem_of_keys_get, eq_None_not_Some. done. Qed.

Lemma get_elem_of k v m : JSMap.get k m = Some v -> (k, v) ∈ m.
Proof.
  induction m as [|[k' v'] m IH]; simpl; [done|].
  destruct (decide (k' = k)) as [->|Hne].
  - intros [= ->]. left.
  - intros Hg. right. by apply IH.
Qed.

Lemma get_elem_of_values k v m : JSMap.get k m = Some v -> v ∈ JSMap.values m.
Proof.
  intros Hg%get_elem_of. unfold JSMap.values.
  apply list_elem_of_fmap. by exists (k, v).
Qed.

Lemma keys_set_present k v m :
  is_Some (JSMap.get k m) -> JSMap.keys (JSMap.set k v m) = JSMap.keys m.
Proof.
  unfold JSMap.keys. induction m as [|[k' v'] m IH]; csimpl.
  - by intros [? ?].
  - destruct (decide (k' = k)) as [->|Hne]; csimpl; [done|].
    intros Hs. by rewrite IH.
Qed.

Lemma keys_set_absent k v m :
  JSMap.get k m = None -> JSMap.keys (JSMap.set k v m) = JSMap.keys m ++ [k].
Proof.
  unfold JSMap.keys. induction m as [|[k' v'] m IH]; csimpl; [done|].
  destruct (decide (k' = k)) as [->|Hne]; csimpl; [done|].
  intros Hs. by rewrite IH.
Qed.

Lemma elem_of_keys_set k k' v m :
  k' ∈ JSMap.keys (JSMap.set k v m) <-> k' = k \/ k' ∈ JSMap.keys m.
Proof.
  destruct (JSMap.get k m) as [v0|] eqn:Hg.
  - rewrite keys_set_present by eauto.
    split; [by right|]. intros [->|?]; [|done].
    apply elem_of_keys_get. eauto.
  - rewrite keys_set_absent by done.
    rewrite elem_of_app, list_elem_of_singleton. tauto.
Qed.

Lemma wf_empty : JSMap.wf (JSMap.empty : JSMap.t K V).
Proof. apply NoDup_nil_2. Qed.

Lemma wf_set k v m : JSMap.wf m -> JSMap.wf (JSMap.set k v m).
Proof.
  unfold JSMap.wf. intros Hwf.
  destruct (JSMap.get k m) as [v0|] eqn:Hg.
  - by rewrite keys_set_present by eauto.
  - rewrite keys_set_absent by done.
    apply NoDup_app. split_and!; [done| |apply NoDup_singleton].
    intros x Hx ->%list_elem_of_singleton.
    by apply not_elem_of_keys_get in Hg.
Qed.

Lemma elem_of_keys_delete k k' m :
  k' ∈ JSMap.keys (JSMap.delete k m) <-> k' <> k /\ k' ∈ JSMap.keys m.
Proof.
  unfold JSMap.keys. induction m as [|[k0 v0] m IH]; csimpl.
  - split; [by intros ?%elem_of_nil | by intros [_ ?%elem_of_nil]].
  - destruct (decide (k0 = k)) as [->|Hne]; csimpl.
    + rewrite IH, elem_of_cons. split; [intros [? ?]; eauto|].
      intros [? [?|?]]; [congruence|done].
    + rewrite !elem_of_cons, IH. split.
      * intros [->|[? ?]]; eauto.
      * intros [? [?|?]]; eauto.
Qed.

Lemma wf_delete k m : JSMap.wf m -> JSMap.wf (JSMap.delete k m).
Proof.
  unfold JSMap.wf. induction m as [|[k0 v0] m IH]; csimpl; [done|].
  rewrite NoDup_cons. intros [Hnot Hnd].
  destruct (decide (k0 = k)) as [->|Hne]; csimpl; [by apply IH|].
  apply NoDup_cons. split; [|by apply IH].
  intros Hin. apply Hnot.
  by apply (elem_of_keys_delete k k0 m) in Hin as [_ ?].
Qed.

Lemma get_delete_eq k m : JSMap.get k (JSMap.delete k m) = None.
Proof.
  apply not_elem_of_keys_get. rewrite elem_of_keys_delete. tauto.
Qed.

Lemma get_delete_ne k k' m :
  k <> k' -> JSMap.get k' (JSMap.delete k m) = JSMap.get k' m.
Proof.
  intros Hne. induction m as [|[k0 v0] m IH]; simpl; [done|].
  destruct (decide (k0 = k)) as [->|Hk0]; simpl.
  - by rewrite decide_False.
  - by rewrite IH.
Qed.

(** Deleting a key the [Map] does not hold leaves it as it is. *)
Lemma delete_absent k m : JSMap.get k m = None -> JSMap.delete k m = m.
Proof.
  induction m as [|[k' v'] m IH]; simpl; [done|].
  destruct (decide (k' = k)) as [->|Hne]; [done|].
  intros Hg. by rewrite IH.
Qed.

Lemma count_absent k m : k ∉ JSMap.keys m -> JSMap.count k m = 0.
Proof.
  unfold JSMap.keys. induction m as [|[k' v'] m IH]; csimpl; [done|].
  rewrite not_elem_of_cons. intros [Hne Hm].
  rewrite decide_False by done. by apply IH.
Qed.

Lemma count_wf k m :
  JSMap.wf m -> k ∈ JSMap.keys m -> JSMap.count k m = 1.
Proof.
  unfold JSMap.wf. induction m as [|[k' v'] m IH]; csimpl.
  - by intros _ ?%elem_of_nil.
  - rewrite NoDup_cons. intros [Hnot Hnd] Hin.
    destruct (decide (k' = k)) as [->|Hne].
    + by rewrite count_absent.
    + apply IH; [done|].
      apply elem_of_cons in Hin as [->|?]; done.
Qed.

End JSMapFacts.

(** * Execution lemmas *)

(** Run the monadic primitives and the record projections, call by value,
    leaving list operations and the platform's functions as they are. *)
Ltac js_eval :=
  cbv beta iota zeta delta
    [bind ret throw gets modify effect async settled await try_catch exec outcome
     console_log emit ioConnection_id ioConnection_close track_stop
     new_RTCPeerConnection pc_assign pc_call pc_try pc_addTrack
     pc_setRemoteDescription pc_setLocalDescription pc_addIceCandidate
     pc_close pc_createOffer_call pc_createAnswer pc_get_localDescription
     logged with_ioConnection with_peerConnectionMap with_localUserStreamData
     with_localVideo_srcObject with_targetUserStreamDataMap with_pcs
     with_stopped with_trace
     ioConnection peerConnectionMap localUserStreamData localVideo_srcObject
     targetUserStreamDataMap pcs stopped trace fst snd].

Section Exec.
Context `{Platform}.

Lemma forEach_track_stop (l : list MediaStreamTrack) (st : State) :
  forEach l track_stop st =
  (Returned tt,
   with_trace (trace st ++ (TrackStop <$> l))
     (with_stopped (stopped st ++ (track_id <$> l)) st)).
Proof.
  revert st. induction l as [|t l IH]; intros st; simpl.
  - unfold ret. destruct st; unfold with_trace, with_stopped; simpl.
    by rewrite !app_nil_r.
  - unfold bind. unfold track_stop at 1, modify. rewrite IH.
    destruct st; unfold with_trace, with_stopped; simpl.
    by rewrite <- !app_assoc.
Qed.

Lemma alter_snoc {A : Type} (f : A -> A) (l : list A) (x : A) :
  alter f (length l) (l ++ [x]) = l ++ [f x].
Proof. rewrite alter_app_r_alt by lia. by rewrite Nat.sub_diag. Qed.

Lemma getOrCreatePeerConnection_found (s : string) (pc : PcRef) (st : State) :
  JSMap.get (JStr s) (peerConnectionMap st) = Some pc ->
  getOrCreatePeerConnection (JStr s) st = (Returned pc, st).
Proof.
  intros Hg. unfold getOrCreatePeerConnection, bind, gets. simpl. by rewrite Hg.
Qed.

Lemma getOrCreatePeerConnection_new (remoteId : jsid) (st : State) :
  (if nullish remoteId then True else JSMap.get remoteId (peerConnectionMap st) = None) ->
  getOrCreatePeerConnection remoteId st = (Returned (length (pcs st)), register remoteId st).
Proof.
  intros Hg. unfold getOrCreatePeerConnection, register, wiring, wired_pc.
  unfold bind at 1.
  replace ((if negb (nullish remoteId)
            then gets (fun st => JSMap.get remoteId (peerConnectionMap st))
            else ret None) st)
    with (@Returned (option PcRef) None, st)
    by (destruct (nullish remoteId); cbn; [done|]; unfold gets; by rewrite Hg).
  destruct st as [io pcm lus src streams heap stp tr].
  js_eval. do 5 rewrite alter_snoc.
  by rewrite <- !app_assoc.
Qed.

Lemma async_returned (m : M unit) (st st' : State) :
  m st = (Returned tt, st') -> async m st = (Returned tt, st').
Proof. intros Hm. unfold async. by rewrite Hm. Qed.

Lemma getOrCreatePeerConnection_cases (remoteId : jsid) (st : State) :
  (exists pc, nullish remoteId = false
     /\ JSMap.get remoteId (peerConnectionMap st) = Some pc
     /\ getOrCreatePeerConnection remoteId st = (Returned pc, st))
  \/ ((if nullish remoteId then True
       else JSMap.get remoteId (peerConnectionMap st) = None)
      /\ getOrCreatePeerConnection remoteId st
         = (Returned (length (pcs st)), register remoteId st)).
Proof.
  destruct remoteId as [| |s]; simpl.
  - right. split; [done|]. by apply getOrCreatePeerConnection_new.
  - right. split; [done|]. by apply getOrCreatePeerConnection_new.
  - destruct (JSMap.get (JStr s) (peerConnectionMap st)) as [pc|] eqn:Hg.
    + left. exists pc. split_and!; [done..|]. by apply getOrCreatePeerConnection_found.
    + right. split; [done|]. by apply getOrCreatePeerConnection_new.
Qed.

Lemma assignments_app (slot : CallbackSlot) (remoteId : jsid) (t1 t2 : list Effect) :
  assignments slot remoteId (t1 ++ t2)
  = assignments slot remoteId t1 + assignments slot remoteId t2.
Proof. induction t1 as [|e t1 IH]; simpl; [done|]. rewrite IH. lia. Qed.

Lemma assignments_wiring (slot : CallbackSlot) (pc : PcRef) (remoteId : jsid) :
  assignments slot remoteId (wiring pc remoteId) = 1.
Proof.
  unfold wiring. simpl.
  rewrite (bool_decide_eq_true_2 (remoteId = remoteId)) by done.
  destruct slot; simpl; reflexivity.
Qed.

Lemma values_set_Forall {K V : Type} `{EqDecision K} (P : V -> Prop) (k : K) (v : V) (m : JSMap.t K V) :
  Forall P (JSMap.values m) -> P v -> Forall P (JSMap.values (JSMap.set k v m)).
Proof.
  unfold JSMap.values. intros Hm Hv.
  induction m as [|[k' v'] m IH]; csimpl.
  - by constructor.
  - apply Forall_cons in Hm as [Hv' Hm].
    destruct (decide (k' = k)); csimpl; constructor; auto.
Qed.

Lemma registry_valid_register (remoteId : jsid) (st : State) :
  registry_valid st -> registry_valid (register remoteId st).
Proof.
  unfold registry_valid, register. cbn. intros Hv.
  rewrite length_app. cbn. apply values_set_Forall; [|lia].
  eapply Forall_impl; [exact Hv|]. cbn. lia.
Qed.

Lemma getOrCreatePeerConnection_returns (remoteId : jsid) (st : State) :
  exists pc st0, getOrCreatePeerConnection remoteId st = (Returned pc, st0).
Proof.
  destruct (getOrCreatePeerConnection_cases remoteId st)
    as [(pc & _ & _ & Hrun)|[_ Hrun]]; eauto.
Qed.

(** What obtaining or creating a session leaves untouched, and what it
    guarantees about the session returned. *)
Lemma getOrCreatePeerConnection_spec (remoteId : jsid) (pc : PcRef) (st st0 : State) :
  getOrCreatePeerConnection remoteId st = (Returned pc, st0) ->
  ioConnection st0 = ioConnection st
  /\ localVideo_srcObject st0 = localVideo_srcObject st
  /\ targetUserStreamDataMap st0 = targetUserStreamDataMap st
  /\ JSMap.get remoteId (peerConnectionMap st0) = Some pc
  /\ (exists t, trace st0 = trace st ++ t)
  /\ (registry_valid st -> pc < length (pcs st0) /\ registry_valid st0).
Proof.
  destruct (getOrCreatePeerConnection_cases remoteId st)
    as [(pc' & _ & Hg & ->)|[_ ->]]; intros [= <- <-].
  - split_and!; [done..| |].
    + exists []. by rewrite app_nil_r.
    + intros Hv. split; [|done].
      unfold registry_valid in Hv. rewrite Forall_forall in Hv.
      by eapply Hv, get_elem_of_values.
  - split_and!; [done..| | |].
    + apply get_set_eq.
    + by eexists.
    + intros Hv. split; [|by apply registry_valid_register].
      unfold register. cbn. rewrite length_app. cbn. lia.
Qed.

Lemma removePeerConnection_eq (s : string) (st : State) :
  removePeerConnection (JStr s) st =
  (Returned tt,
   with_peerConnectionMap (JSMap.delete (JStr s) (peerConnectionMap st))
     match JSMap.get (JStr s) (peerConnectionMap st) with
     | Some pc =>
         with_trace (trace st ++ [PcClose pc])
           (with_pcs (alter set_pc_closed pc (pcs st)) st)
     | None => st
     end).
Proof.
  unfold removePeerConnection. cbn [nullish].
  destruct st as [io pcm lus src streams heap stp tr].
  unfold bind at 1, gets. cbn [peerConnectionMap fst snd].
  destruct (JSMap.get (JStr s) pcm) as [pc|]; js_eval; done.
Qed.

Lemma removeStream_eq (s : string) (st : State) :
  removeStream (JStr s) st =
  (Returned tt,
   with_targetUserStreamDataMap (JSMap.delete (JStr s) (targetUserStreamDataMap st))
     match JSMap.get (JStr s) (targetUserStreamDataMap st) with
     | Some stream =>
         with_trace (trace st ++ (TrackStop <$> stream))
           (with_stopped (stopped st ++ (track_id <$> stream)) st)
     | None => st
     end).
Proof.
  unfold removeStream. cbn [nullish].
  unfold bind at 1, gets. cbn [fst snd].
  destruct (JSMap.get (JStr s) (targetUserStreamDataMap st)) as [stream|].
  - unfold bind. unfold getTracks. rewrite forEach_track_stop.
    destruct st; js_eval; done.
  - destruct st; js_eval; done.
Qed.

Lemma forEach_pc_close (l : list PcRef) (st : State) :
  forEach l pc_close st =
  (Returned tt,
   with_trace (trace st ++ (PcClose <$> l))
     (with_pcs (close_all l (pcs st)) st)).
Proof.
  revert st. induction l as [|pc l IH]; intros st; simpl.
  - destruct st; js_eval. by rewrite app_nil_r.
  - unfold bind. unfold pc_close at 1, pc_call, modify. rewrite IH.
    destruct st; js_eval. by rewrite <- app_assoc.
Qed.

Lemma close_all_lookup (l : list PcRef) (h : list RTCPeerConnection) (pc : PcRef) :
  close_all l h !! pc
  = (if bool_decide (pc ∈ l) then set_pc_closed else id) <$> h !! pc.
Proof.
  revert h. induction l as [|x l IH]; intros h; simpl.
  - by rewrite option_fmap_id.
  - rewrite IH. destruct (decide (x = pc)) as [->|Hne].
    + rewrite list_lookup_alter_eq.
      rewrite (bool_decide_eq_true_2 (pc ∈ pc :: l)) by left.
      destruct (h !! pc); simpl; [|done]. by case_bool_decide.
    + rewrite list_lookup_alter_ne by done.
      destruct (decide (pc ∈ l)) as [Hin|Hnin].
      * rewrite !bool_decide_eq_true_2; [done|by right|done].
      * rewrite !bool_decide_eq_false_2; [done| |done].
        rewrite not_elem_of_cons. split; [congruence|done].
Qed.

Lemma close_all_length (l : list PcRef) (h : list RTCPeerConnection) :
  length (close_all l h) = length h.
Proof.
  revert h. induction l as [|x l IH]; intros h; simpl; [done|].
  by rewrite IH, length_alter.
Qed.

Lemma elem_of_concat_2 {A : Type} (x : A) (l : list A) (ls : list (list A)) :
  x ∈ l -> l ∈ ls -> x ∈ concat ls.
Proof.
  intros Hx Hl. induction ls as [|l' ls IH]; simpl.
  - by apply elem_of_nil in Hl.
  - apply elem_of_app. apply elem_of_cons in Hl as [<-|Hl]; auto.
Qed.

Lemma forEach_stop_streams (l : list MediaStream) (st : State) :
  forEach l (fun item => forEach (getTracks item) track_stop) st =
  (Returned tt,
   with_trace (trace st ++ (TrackStop <$> concat l))
     (with_stopped (stopped st ++ (track_id <$> concat l)) st)).
Proof.
  revert st. induction l as [|item l IH]; intros st; simpl.
  - destruct st; js_eval. by rewrite !app_nil_r.
  - unfold bind. unfold getTracks at 1. rewrite forEach_track_stop, IH.
    destruct st; js_eval. by rewrite !fmap_app, <- !app_assoc.
Qed.

Lemma removeAllPeerConnection_eq (st : State) :
  removeAllPeerConnection st =
  (Returned tt,
   let data := reverse (JSMap.values (peerConnectionMap st)) in
   with_trace (trace st ++ (PcClose <$> data))
     (with_pcs (close_all data (pcs st)) st)).
Proof.
  unfold removeAllPeerConnection, bind, gets. cbn [fst snd].
  apply forEach_pc_close.
Qed.

Lemma on_disconnect_eq (st : State) :
  on_disconnect st =
  (Returned tt,
   let data := reverse (JSMap.values (peerConnectionMap st)) in
   with_trace (trace st ++ ConsoleLog [LogText "disconnect"] :: (PcClose <$> data))
     (with_pcs (close_all data (pcs st)) st)).
Proof.
  unfold on_disconnect. unfold bind, console_log, effect, modify.
  rewrite removeAllPeerConnection_eq.
  destruct st; js_eval. by rewrite <- app_assoc.
Qed.

(** The [disconnect] listener closes connections and leaves both registries
    exactly as they were. *)
Lemma on_disconnect_keeps_registries (st : State) :
  peerConnectionMap (exec on_disconnect st) = peerConnectionMap st
  /\ targetUserStreamDataMap (exec on_disconnect st) = targetUserStreamDataMap st.
Proof. unfold exec. by rewrite on_disconnect_eq. Qed.

Lemma ngOnDestroy_eq (sock : Socket) (st : State) :
  ioConnection st = Some sock ->
  ngOnDestroy st =
  (Returned tt,
   mkState (Some (mkSocket (socket_id sock) true)) [] (localUserStreamData st)
     (localVideo_srcObject st) []
     (close_all (JSMap.values (peerConnectionMap st)) (pcs st))
     (stopped st ++ (track_id <$> concat (JSMap.values (targetUserStreamDataMap st))))
     (trace st ++ (PcClose <$> JSMap.values (peerConnectionMap st))
        ++ (TrackStop <$> concat (JSMap.values (targetUserStreamDataMap st)))
        ++ [SocketClose])).
Proof.
  intros Hio. unfold ngOnDestroy.
  unfold bind at 1, gets. cbn [fst snd].
  unfold bind at 1. rewrite forEach_pc_close.
  unfold bind at 1, gets. cbn [fst snd].
  unfold bind at 1. rewrite forEach_stop_streams.
  destruct st as [io pcm lus src streams heap stp tr]. cbn in Hio. subst io.
  js_eval. unfold JSMap.clear. by rewrite <- !app_assoc.
Qed.

(** Without a socket, [this.ioConnection.close()] is a [TypeError]; what
    precedes it has run. *)
Lemma ngOnDestroy_without_socket (st : State) :
  ioConnection st = None ->
  ngOnDestroy st =
  (Thrown TypeError,
   mkState None [] (localUserStreamData st) (localVideo_srcObject st) []
     (close_all (JSMap.values (peerConnectionMap st)) (pcs st))
     (stopped st ++ (track_id <$> concat (JSMap.values (targetUserStreamDataMap st))))
     (trace st ++ (PcClose <$> JSMap.values (peerConnectionMap st))
        ++ (TrackStop <$> concat (JSMap.values (targetUserStreamDataMap st))))).
Proof.
  intros Hio. unfold ngOnDestroy.
  unfold bind at 1, gets. cbn [fst snd].
  unfold bind at 1. rewrite forEach_pc_close.
  unfold bind at 1, gets. cbn [fst snd].
  unfold bind at 1. rewrite forEach_stop_streams.
  destruct st as [io pcm lus src streams heap stp tr]. cbn in Hio. subst io.
  js_eval. unfold JSMap.clear. by rewrite <- !app_assoc.
Qed.

(** When the web probe throws [RTCNoAvailableCameraError]: WebRTC is
    supported, and the video stream has no track that is disabled (or there is
    no stream), or no webcam was detected. *)
Lemma checkWebRTCAvailability_camera_error (rtc : DetectRTC)
    (videoStream audioStream : option MediaStream) (st : State) :
  outcome (checkWebRTCAvailability rtc videoStream audioStream) st
    = Thrown RTCNoAvailableCameraError
  <-> isWebRTCSupported rtc = true
      /\ (some_track (fun value => negb (track_enabled value)) videoStream = false
          \/ hasWebcam rtc = false).
Proof.
  unfold outcome, checkWebRTCAvailability.
  unfold bind at 1 2 3, console_log, effect, modify. cbn [fst snd].
  destruct (isWebRTCSupported rtc); cbn [negb];
    [|unfold bind, throw; cbn; split; [done|by intros [? _]]].
  unfold bind at 1, ret. cbn [fst snd].
  destruct (some_track (fun value => negb (track_enabled value)) videoStream) eqn:Hv;
    cbn [negb orb].
  - destruct (hasWebcam rtc); cbn [negb].
    + destruct videoStream as [s|]; [|done]. unfold stop_tracks, getTracks.
      unfold bind at 1. rewrite forEach_track_stop.
      split; [|by intros [_ [?|?]]].
      destruct (negb (some_track (fun value => track_enabled value) audioStream)
                || negb (hasMicrophone rtc)); [done|].
      destruct audioStream as [a|]; [|done].
      unfold getTracks. by rewrite forEach_track_stop.
    + unfold bind, throw. cbn. split; auto.
  - unfold bind, throw. cbn. split; auto.
Qed.

Lemma on_user_disconnect_eq (s : string) (st : State) :
  on_user_disconnect (JStr s) st = (Returned tt, peer_removed (JStr s) st).
Proof.
  unfold on_user_disconnect.
  unfold bind at 1. unfold console_log, effect, modify.
  unfold bind. rewrite removePeerConnection_eq, removeStream_eq.
  destruct st as [io pcm lus src streams heap stp tr]. unfold peer_removed. js_eval.
  destruct (JSMap.get (JStr s) pcm), (JSMap.get (JStr s) streams); js_eval; cbn;
    rewrite ?app_nil_r, <- ?app_assoc; done.
Qed.

Lemma on_user_disconnect_nullish (userId : jsid) (st : State) :
  nullish userId = true ->
  on_user_disconnect userId st
  = (Returned tt, logged [LogText "on-user-disconnect"; LogUserId userId] st).
Proof.
  intros Hnull. unfold on_user_disconnect, removePeerConnection, removeStream.
  rewrite Hnull. done.
Qed.

End Exec.

(** * Properties kept by the handlers *)

Section Preserves.
Context `{Platform}.
Context (P : State -> Prop).

Lemma exec_bind {A B : Type} (m : M A) (k : A -> M B) (a : A) (st st1 : State) :
  m st = (Returned a, st1) -> exec (bind m k) st = exec (k a) st1.
Proof. intros Hm. unfold exec, bind. by rewrite Hm. Qed.

Lemma exec_async (m : M unit) (st : State) :
  exists t, exec (async m) st = with_trace (trace (exec m st) ++ t) (exec m st).
Proof.
  unfold exec, async. destruct (m st) as [[[]|e] st']; simpl.
  - exists []. rewrite app_nil_r. by destruct st'.
  - by exists [UnhandledRejection e].
Qed.

Lemma preserves_ret {A : Type} (a : A) : preserves P (ret a).
Proof. by intros st. Qed.

Lemma preserves_throw {A : Type} (e : JsError) : preserves P (@throw A e).
Proof. by intros st. Qed.

Lemma preserves_gets {A : Type} (f : State -> A) : preserves P (gets f).
Proof. by intros st. Qed.

Lemma preserves_bind {A B : Type} (m : M A) (k : A -> M B) :
  preserves P m -> (forall a, preserves P (k a)) -> preserves P (bind m k).
Proof.
  intros Hm Hk st HP. specialize (Hm st HP).
  unfold exec, bind in *. destruct (m st) as [[a|e] st']; simpl in *; [|done].
  by apply Hk.
Qed.

Lemma preserves_forEach {A : Type} (l : list A) (f : A -> M unit) :
  (forall x, preserves P (f x)) -> preserves P (forEach l f).
Proof.
  intros Hf. induction l as [|x l IH]; simpl.
  - apply preserves_ret.
  - apply preserves_bind; [apply Hf | by intros _].
Qed.

Lemma preserves_ioConnection_id : preserves P ioConnection_id.
Proof.
  intros st HP. unfold exec, ioConnection_id. by destruct (ioConnection st).
Qed.

Lemma preserves_bind_gets {A B : Type} (f : State -> A) (k : A -> M B) :
  (forall st, P st -> P (exec (k (f st)) st)) -> preserves P (bind (gets f) k).
Proof. intros Hk st Hst. by apply Hk. Qed.

Lemma preserves_forEach_elem {A : Type} (l : list A) (f : A -> M unit) :
  (forall x, x ∈ l -> preserves P (f x)) -> preserves P (forEach l f).
Proof.
  induction l as [|x l IH]; intros Hf; simpl.
  - apply preserves_ret.
  - apply preserves_bind; [apply Hf; left|intros _].
    apply IH. intros y Hy. apply Hf. by right.
Qed.

Section Stable.
Hypothesis HP : stable P.

Lemma preserves_effect (e : Effect) : preserves P (effect e).
Proof. intros st Hst. by apply HP. Qed.

Lemma preserves_console_log (args : list LogArg) : preserves P (console_log args).
Proof. apply preserves_effect. Qed.

Lemma preserves_emit (m : OutMessage) : preserves P (emit m).
Proof.
  intros st Hst. unfold exec, emit.
  destruct (ioConnection st); [by apply HP | done].
Qed.

Lemma preserves_async (m : M unit) : preserves P m -> preserves P (async m).
Proof.
  intros Hm st Hst. destruct (exec_async m st) as [t ->].
  apply HP. by apply Hm.
Qed.

Lemma preserves_try_catch (m : M unit) (h : JsError -> M unit) :
  preserves P m -> (forall e, preserves P (h e)) -> preserves P (try_catch m h).
Proof.
  intros Hm Hh st Hst. specialize (Hm st Hst).
  unfold exec, try_catch in *. destruct (m st) as [[a|e] st']; simpl in *; [done|].
  by apply Hh.
Qed.

Lemma preserves_pc_call (pc : PcRef) (e : Effect) (f : RTCPeerConnection -> RTCPeerConnection) :
  passive f -> preserves P (pc_call pc e f).
Proof.
  intros Hf st Hst. unfold exec, pc_call, modify. simpl.
  destruct HP as (Htrace & Hpcs & _).
  apply (Htrace (with_pcs (alter f pc (pcs st)) st) [e]). by apply Hpcs.
Qed.

Lemma preserves_pc_try (pc : PcRef) (e : Effect) (err : RTCPeerConnection -> option JsError)
    (f : RTCPeerConnection -> RTCPeerConnection) :
  passive f -> preserves P (pc_try pc e err f).
Proof.
  intros Hf st Hst. unfold exec, pc_try.
  destruct HP as (Htrace & Hpcs & _).
  destruct (err (default fresh_pc (pcs st !! pc))); cbn [snd].
  - by apply Htrace.
  - apply (Htrace (with_pcs (alter f pc (pcs st)) st) [e]). by apply Hpcs.
Qed.

Lemma preserves_settled {A : Type} (m : M A) : preserves P m -> preserves P (settled m).
Proof.
  intros Hm st Hst. specialize (Hm st Hst).
  unfold exec, settled in *. destruct (m st) as [[a|e] st']; cbn [snd] in *; [done|].
  by apply HP.
Qed.

Lemma preserves_each_settled {A B : Type} (l : list A) (f : A -> M B) :
  (forall x, preserves P (f x)) -> preserves P (each_settled l f).
Proof.
  intros Hf. induction l as [|x l IH]; simpl; [apply preserves_ret|].
  apply preserves_bind; [apply preserves_settled, Hf|intros r].
  apply preserves_bind; [exact IH|intros rs]. apply preserves_ret.
Qed.

Lemma preserves_each_settled_elem {A B : Type} (l : list A) (f : A -> M B) :
  (forall x, x ∈ l -> preserves P (f x)) -> preserves P (each_settled l f).
Proof.
  induction l as [|x l IH]; intros Hf; simpl; [apply preserves_ret|].
  apply preserves_bind; [apply preserves_settled, Hf; left|intros r].
  apply preserves_bind; [|intros rs; apply preserves_ret].
  apply IH. intros y Hy. apply Hf. by right.
Qed.

Lemma preserves_await {A : Type} (promise : Outcome A) : preserves P (await promise).
Proof. destruct promise; [apply preserves_ret|apply preserves_throw]. Qed.

Lemma preserves_track_stop (value : MediaStreamTrack) : preserves P (track_stop value).
Proof.
  intros st Hst. unfold exec, track_stop, modify. simpl.
  destruct HP as (Htrace & _ & Hstopped & _).
  apply (Htrace (with_stopped (stopped st ++ [track_id value]) st) [TrackStop value]).
  by apply Hstopped.
Qed.

Lemma passive_add_pc_sender (t : MediaStreamTrack) : passive (add_pc_sender t).
Proof. by intros p. Qed.

Lemma passive_set_pc_remoteDescription (d : RTCSessionDescription) :
  passive (set_pc_remoteDescription d).
Proof. by intros p. Qed.

Lemma passive_set_pc_localDescription (d : RTCSessionDescription) :
  passive (set_pc_localDescription d).
Proof. by intros p. Qed.

Lemma passive_add_pc_iceCandidate (c : RTCIceCandidate) : passive (add_pc_iceCandidate c).
Proof. by intros p. Qed.

Lemma passive_set_pc_closed : passive set_pc_closed.
Proof. by intros p. Qed.

Lemma preserves_pc_addTrack (pc : PcRef) (t : MediaStreamTrack) :
  preserves P (pc_addTrack pc t).
Proof. apply preserves_pc_try, passive_add_pc_sender. Qed.

Lemma preserves_pc_setRemoteDescription (pc : PcRef) (d : RTCSessionDescription) :
  preserves P (pc_setRemoteDescription pc d).
Proof. apply preserves_pc_try, passive_set_pc_remoteDescription. Qed.

Lemma preserves_pc_setLocalDescription (pc : PcRef) (d : RTCSessionDescription) :
  preserves P (pc_setLocalDescription pc d).
Proof. apply preserves_pc_try, passive_set_pc_localDescription. Qed.

Lemma preserves_pc_addIceCandidate (pc : PcRef) (c : RTCIceCandidate) :
  preserves P (pc_addIceCandidate pc c).
Proof. apply preserves_pc_try, passive_add_pc_iceCandidate. Qed.

Lemma preserves_pc_close (pc : PcRef) : preserves P (pc_close pc).
Proof. apply preserves_pc_call, passive_set_pc_closed. Qed.

Lemma preserves_addLocalTracks (pc : PcRef) : preserves P (addLocalTracks pc).
Proof.
  apply preserves_bind; [apply preserves_gets|].
  intros [stream|]; [|apply preserves_ret].
  apply preserves_forEach. intros t. apply preserves_pc_addTrack.
Qed.

Lemma preserves_pc_createOffer_call (pc : PcRef) : preserves P (pc_createOffer_call pc).
Proof. intros st Hst. by apply HP. Qed.

Lemma preserves_pc_createAnswer (pc : PcRef) : preserves P (pc_createAnswer pc).
Proof. intros st Hst. by apply HP. Qed.

(** What remains of the [on-received-offer] listener once the session is in
    hand. *)
Lemma preserves_answer (pc : PcRef) (offer : Offer) :
  preserves P
    (addLocalTracks pc ;;
     pc_setRemoteDescription pc (offer_sdp offer) ;;
     answer <- pc_createAnswer pc ;;
     pc_setLocalDescription pc answer ;;
     localDescription <- pc_get_localDescription pc ;;
     senderId <- ioConnection_id ;;
     emit (TransferAnswer localDescription senderId (offer_senderId offer))).
Proof.
  apply preserves_bind; [apply preserves_addLocalTracks|intros _].
  apply preserves_bind; [apply preserves_pc_setRemoteDescription|intros _].
  apply preserves_bind; [apply preserves_pc_createAnswer|intros answer].
  apply preserves_bind; [apply preserves_pc_setLocalDescription|intros _].
  apply preserves_bind; [apply preserves_gets|intros d].
  apply preserves_bind; [apply preserves_ioConnection_id|intros senderId].
  apply preserves_emit.
Qed.

(** The second and third stretch of the callback of [sendOffers]. *)
Lemma preserves_sendOffers_describe
    (callback : jsid * PcRef * Outcome RTCSessionDescription) :
  preserves P (sendOffers_describe callback).
Proof.
  destruct callback as [[value pc] promise]. unfold sendOffers_describe.
  apply preserves_bind; [apply preserves_await|intros offer].
  apply preserves_bind; [apply preserves_pc_setLocalDescription|intros _].
  apply preserves_ret.
Qed.

Lemma preserves_sendOffers_emit (callback : jsid * PcRef) :
  preserves P (sendOffers_emit callback).
Proof.
  destruct callback as [value pc]. unfold sendOffers_emit.
  apply preserves_bind; [apply preserves_gets|intros d].
  apply preserves_bind; [apply preserves_ioConnection_id|intros senderId].
  apply preserves_emit.
Qed.

End Stable.
End Preserves.
(** * Unawaited callbacks *)

Section Offers.
Context `{Platform}.

Lemma async_outcome (m : M unit) (st : State) : outcome (async m) st = Returned tt.
Proof. unfold outcome, async. by destruct (m st) as [[[]|e] st']. Qed.

Lemma settled_returns {A : Type} (m : M A) (st : State) :
  exists r st', settled m st = (Returned r, st').
Proof. unfold settled. destruct (m st) as [[a|e] st']; eauto. Qed.

(** Nothing thrown in an unawaited callback reaches the caller. *)
Lemma each_settled_returns {A B : Type} (l : list A) (f : A -> M B) (st : State) :
  exists rs st', each_settled l f st = (Returned rs, st').
Proof.
  revert st. induction l as [|x l IH]; intros st; simpl; [by eexists _, _|].
  unfold bind. destruct (settled_returns (f x) st) as (r & st1 & ->).
  destruct (IH st1) as (rs & st' & ->). by eexists _, _.
Qed.

Lemma bind_returned {A B : Type} (m : M A) (k : A -> M B) (a : A) (st st1 : State) :
  m st = (Returned a, st1) -> bind m k st = k a st1.
Proof. intros Hm. unfold bind. by rewrite Hm. Qed.

Lemma bind_thrown {A B : Type} (m : M A) (k : A -> M B) (e : JsError) (st st1 : State) :
  m st = (Thrown e, st1) -> bind m k st = (Thrown e, st1).
Proof. intros Hm. unfold bind. by rewrite Hm. Qed.

(** Obtaining or creating a session never changes the session of a
    non-null identifier. *)
Lemma getOrCreatePeerConnection_keeps (remoteId : jsid) (s : string) (pc pc' : PcRef)
    (st st0 : State) :
  getOrCreatePeerConnection remoteId st = (Returned pc', st0) ->
  JSMap.get (JStr s) (peerConnectionMap st) = Some pc ->
  JSMap.get (JStr s) (peerConnectionMap st0) = Some pc.
Proof.
  destruct (getOrCreatePeerConnection_cases remoteId st)
    as [(pc0 & _ & _ & ->)|[Hnew ->]]; intros [= <- <-] Hg; [done|].
  unfold register. cbn. rewrite get_set_ne; [done|].
  intros ->. cbn in Hnew. congruence.
Qed.

Lemma preserves_sendOffers_begin (P : State -> Prop) (value : jsid) :
  stable P ->
  preserves P (getOrCreatePeerConnection value) ->
  preserves P (sendOffers_begin value).
Proof.
  intros HP Hget. unfold sendOffers_begin.
  apply preserves_bind; [done|intros pc].
  apply preserves_bind; [by apply preserves_addLocalTracks|intros _].
  apply preserves_bind; [by apply preserves_pc_createOffer_call|intros promise].
  apply preserves_ret.
Qed.

End Offers.

(** * Properties kept by every turn of the event loop *)

Section Listeners.
Context `{Platform}.
Context (P : State -> Prop).
Hypothesis HP : stable P.
Hypothesis Hget : forall remoteId, preserves P (getOrCreatePeerConnection remoteId).
Hypothesis Hgone : forall userId, preserves P (on_user_disconnect userId).

Lemma preserves_modify_ioConnection (x : option Socket) :
  preserves P (modify (with_ioConnection x)).
Proof. intros st Hst. by apply HP. Qed.

Lemma preserves_sendOffers (userIds : list jsid) : preserves P (sendOffers userIds).
Proof.
  unfold sendOffers. apply preserves_bind; [apply preserves_gets|].
  intros [sock|]; [|apply preserves_ret].
  apply preserves_bind; [|intros begun].
  { apply preserves_each_settled; [done|]. intros value.
    by apply preserves_sendOffers_begin. }
  apply preserves_bind; [|intros described].
  { apply preserves_each_settled; [done|]. intros callback.
    by apply preserves_sendOffers_describe. }
  apply preserves_bind; [|intros _; apply preserves_ret].
  apply preserves_each_settled; [done|]. intros callback.
  by apply preserves_sendOffers_emit.
Qed.

Lemma preserves_removeAllCurrentConnection : preserves P removeAllCurrentConnection.
Proof.
  unfold removeAllCurrentConnection. apply preserves_bind; [apply preserves_gets|].
  intros [sock|]; [|apply preserves_ret].
  apply preserves_bind; [apply preserves_gets|]. intros data.
  apply preserves_forEach. intros value. by apply preserves_emit.
Qed.

Lemma preserves_removeAllPeerConnection : preserves P removeAllPeerConnection.
Proof.
  unfold removeAllPeerConnection. apply preserves_bind; [apply preserves_gets|].
  intros data. apply preserves_forEach. intros pc. by apply preserves_pc_close.
Qed.

Lemma preserves_getUserStreamData (media : option MediaStream) :
  preserves P (getUserStreamData media).
Proof.
  unfold getUserStreamData. destruct media as [stream|]; [|apply preserves_throw].
  apply preserves_bind; [intros st Hst; by apply HP|intros _].
  apply preserves_bind; [apply preserves_gets|intros localStream].
  apply preserves_bind; [intros st Hst; by apply HP|intros _].
  apply preserves_bind; [apply preserves_gets|intros size].
  destruct (bool_decide (0 < size)); [|apply preserves_ret].
  apply preserves_bind; [apply preserves_gets|intros userIds].
  apply preserves_bind; [apply preserves_removeAllCurrentConnection|intros _].
  apply preserves_sendOffers.
Qed.

Lemma preserves_socket_listener (e : SocketEvent) : preserves P (socket_listener e).
Proof.
  destruct e as [roomId|userIds|offer|answer|candidate|userId|]; simpl.
  - by apply preserves_console_log.
  - unfold on_join. apply preserves_bind; [by apply preserves_console_log|intros _].
    destruct userIds as [ids|]; [apply preserves_sendOffers|by apply preserves_emit].
  - apply preserves_async; [done|]. unfold on_received_offer_body.
    apply preserves_bind; [by apply preserves_console_log|intros _].
    apply preserves_bind; [apply Hget|intros pc]. by apply preserves_answer.
  - apply preserves_async; [done|]. unfold on_received_answer_body.
    apply preserves_bind; [by apply preserves_console_log|intros _].
    apply preserves_bind; [apply Hget|intros pc].
    by apply preserves_pc_setRemoteDescription.
  - apply preserves_async; [done|]. unfold on_received_candidate_body.
    apply preserves_bind; [by apply preserves_console_log|intros _].
    apply preserves_bind; [apply Hget|intros pc].
    by apply preserves_pc_addIceCandidate.
  - apply Hgone.
  - unfold on_disconnect.
    apply preserves_bind; [by apply preserves_console_log|intros _].
    apply preserves_removeAllPeerConnection.
Qed.

Lemma preserves_stop_tracks (stream : option MediaStream) : preserves P (stop_tracks stream).
Proof.
  destruct stream as [s|]; [|apply preserves_throw].
  apply preserves_forEach. intros t. by apply preserves_track_stop.
Qed.

Lemma preserves_guard (b : bool) (e : JsError) :
  preserves P (if b then throw e else ret tt).
Proof. destruct b; [apply preserves_throw|apply preserves_ret]. Qed.

Lemma preserves_checkRTCAvailability (env : Environment) :
  preserves P (checkRTCAvailability env).
Proof.
  unfold checkRTCAvailability.
  destruct (platform_android env || platform_ios env).
  - unfold checkMobileRTCAvailability.
    apply preserves_bind; [by apply preserves_console_log|intros _].
    apply preserves_bind; [apply preserves_guard|intros _].
    apply preserves_bind; [|intros _].
    { destruct (platform_ios env); [|apply preserves_ret].
      destruct (probe_video env); [|apply preserves_throw].
      apply preserves_forEach. intros t. by apply preserves_track_stop. }
    apply preserves_bind; [apply preserves_guard|intros _].
    apply preserves_bind; [|intros _; apply preserves_guard].
    destruct (platform_ios env); [|apply preserves_ret].
    destruct (probe_audio env); [|apply preserves_throw].
    apply preserves_forEach. intros t. by apply preserves_track_stop.
  - unfold checkWebRTCAvailability.
    apply preserves_bind; [by apply preserves_console_log|intros _].
    apply preserves_bind; [by apply preserves_console_log|intros _].
    apply preserves_bind; [by apply preserves_console_log|intros _].
    apply preserves_bind; [apply preserves_guard|intros _].
    apply preserves_bind; [|intros _].
    + match goal with |- context [if ?b then _ else _] => destruct b end;
        [apply preserves_throw|apply preserves_stop_tracks].
    + match goal with |- context [if ?b then _ else _] => destruct b end;
        [apply preserves_throw|apply preserves_stop_tracks].
Qed.

Lemma preserves_ngOnInit (env : Environment) : preserves P (ngOnInit env).
Proof.
  assert (preserves P (ngOnInit_try env)) as Htry.
  { unfold ngOnInit_try. apply preserves_try_catch.
    - apply preserves_bind; [apply preserves_checkRTCAvailability|intros _].
      apply preserves_bind; [apply preserves_modify_ioConnection|intros _].
      apply preserves_bind; [apply preserves_getUserStreamData|intros _].
      by apply preserves_emit.
    - intros e. by apply preserves_console_log. }
  unfold ngOnInit.
  repeat match goal with |- context [if ?b then _ else _] => destruct b end;
    try done; by apply preserves_effect.
Qed.

(** The callbacks other than [ontrack]. *)
Lemma preserves_pc_callback (remoteId : jsid) (e : PcEvent) :
  slot_of e <> Ontrack -> preserves P (pc_callback remoteId e).
Proof.
  destruct e as [candidate|track| | |]; simpl; intros Hslot; [|done|..].
  - unfold onicecandidate.
    apply preserves_bind; [by apply preserves_console_log|intros _].
    destruct candidate as [c|]; [|apply preserves_ret].
    apply preserves_bind; [apply preserves_ioConnection_id|intros senderId].
    by apply preserves_emit.
  - apply preserves_async; [done|]. by apply preserves_console_log.
  - apply preserves_async; [done|]. by apply preserves_console_log.
  - by apply preserves_console_log.
Qed.

(** A track may arrive on any connection that is open and has [ontrack]
    assigned; a closed connection reports changes of state only. *)
Hypothesis Htrack : forall st pc p remoteId track,
  P st ->
  pcs st !! pc = Some p ->
  pc_closed p = false ->
  JSMap.get Ontrack (pc_callbacks p) = Some remoteId ->
  P (exec (ontrack remoteId track) st).

Lemma deliver_preserves (ev : Event) (st : State) : P st -> P (deliver ev st).
Proof.
  intros Hst. destruct ev as [e|pc e|media]; simpl.
  - destruct (ioConnection st); [|done]. by apply preserves_socket_listener.
  - destruct (pcs st !! pc) as [p|] eqn:Hp; [|done].
    destruct (pc_closed p && negb (after_close e)) eqn:Hsilent; [done|].
    destruct (JSMap.get (slot_of e) (pc_callbacks p)) as [remoteId|] eqn:Hcb; [|done].
    destruct (decide (slot_of e = Ontrack)) as [Hslot|Hslot].
    + destruct e; try discriminate. simpl in *.
      rewrite andb_true_r in Hsilent. by eapply Htrack.
    + by apply preserves_pc_callback.
  - by apply preserves_getUserStreamData.
Qed.

Lemma run_preserves (evs : list Event) (st : State) : P st -> P (run evs st).
Proof.
  unfold run. revert st. induction evs as [|ev evs IH]; intros st Hst; simpl; [done|].
  apply IH. by apply deliver_preserves.
Qed.

End Listeners.

(** * The registries stay linked *)

Section Linked.
Context `{Platform}.

Lemma stable_registries_linked : stable registries_linked.
Proof.
  unfold registries_linked, keyset_consistent, callbacks_registered.
  split_and!; try (intros st x Hst; exact Hst).
  intros st f pc Hf [Hkeys Hcb]. split; [exact Hkeys|].
  cbn. intros pc' p' remoteId Hp' Hopen Htrack.
  destruct (decide (pc = pc')) as [->|Hne].
  - rewrite list_lookup_alter_eq in Hp'.
    destruct (pcs st !! pc') as [p|] eqn:Hp; [|done].
    injection Hp' as <-. destruct (Hf p) as [Hcbs Hcl].
    rewrite Hcbs in Htrack. by eapply Hcb; [|apply Hcl|].
  - rewrite list_lookup_alter_ne in Hp' by done. by eapply Hcb.
Qed.

Lemma registries_linked_getOrCreatePeerConnection (remoteId : jsid) :
  preserves registries_linked (getOrCreatePeerConnection remoteId).
Proof.
  intros st [Hkeys Hcb]. unfold exec.
  destruct (getOrCreatePeerConnection_cases remoteId st)
    as [(pc0 & _ & _ & ->)|[Hnew ->]]; [done|]. cbn [snd].
  unfold registries_linked, keyset_consistent, callbacks_registered, register in *.
  cbn. split.
  - intros k Hk. apply elem_of_keys_set. right. by apply Hkeys.
  - intros pc p rid Hp Hopen Htrack.
    destruct (decide (pc = length (pcs st))) as [->|Hne].
    + rewrite lookup_app_r, Nat.sub_diag in Hp by lia.
      injection Hp as <-. cbn in Htrack. injection Htrack as <-.
      destruct (nullish remoteId).
      * apply elem_of_keys_set. by left.
      * apply get_set_eq.
    + assert (pcs st !! pc = Some p) as Hp0.
      { apply lookup_app_Some in Hp as [Hp|[Hlen Hp]]; [done|].
        apply list_lookup_singleton_Some in Hp as [Hz _]. lia. }
      specialize (Hcb pc p rid Hp0 Hopen Htrack).
      destruct (nullish rid) eqn:Hrid.
      * apply elem_of_keys_set. by right.
      * rewrite get_set_ne; [done|]. intros ->.
        rewrite Hrid in Hnew. congruence.
Qed.

Lemma registries_linked_on_user_disconnect (userId : jsid) :
  preserves registries_linked (on_user_disconnect userId).
Proof.
  intros st Hst. unfold exec.
  destruct userId as [| |s];
    [rewrite on_user_disconnect_nullish by done; by apply stable_registries_linked..|].
  rewrite on_user_disconnect_eq. cbn [snd].
  destruct Hst as [Hkeys Hcb].
  unfold registries_linked, keyset_consistent, callbacks_registered, peer_removed in *.
  cbn. split.
  - intros k [Hk Hin]%elem_of_keys_delete. apply elem_of_keys_delete. auto.
  - intros pc p rid Hp Hopen Htrack.
    assert (pcs st !! pc = Some p
            /\ JSMap.get (JStr s) (peerConnectionMap st) <> Some pc) as [Hp0 Hnot].
    { destruct (JSMap.get (JStr s) (peerConnectionMap st)) as [pc0|]; [|done].
      destruct (decide (pc0 = pc)) as [->|Hne].
      - rewrite list_lookup_alter_eq in Hp.
        destruct (pcs st !! pc); [|done]. injection Hp as <-. done.
      - rewrite list_lookup_alter_ne in Hp by done. split; congruence. }
    specialize (Hcb pc p rid Hp0 Hopen Htrack).
    destruct (nullish rid) eqn:Hrid.
    + apply elem_of_keys_delete. split; [|done]. intros ->. done.
    + rewrite get_delete_ne; [done|]. intros <-. done.
Qed.

Lemma registries_linked_ontrack (st : State) (pc : PcRef) (p : RTCPeerConnection)
    (remoteId : jsid) (track : MediaStreamTrack) :
  registries_linked st ->
  pcs st !! pc = Some p ->
  pc_closed p = false ->
  JSMap.get Ontrack (pc_callbacks p) = Some remoteId ->
  registries_linked (exec (ontrack remoteId track) st).
Proof.
  intros [Hkeys Hcb] Hp Hopen Htrack.
  assert (remoteId ∈ JSMap.keys (peerConnectionMap st)) as Hin.
  { specialize (Hcb pc p remoteId Hp Hopen Htrack).
    destruct (nullish remoteId); [done|]. apply elem_of_keys_get. eauto. }
  unfold exec, ontrack, bind, console_log, effect, modify, gets. cbn [fst snd].
  unfold registries_linked, keyset_consistent, callbacks_registered in *. cbn.
  split; [|exact Hcb].
  intros k [->|Hk]%elem_of_keys_set; [done|]. by apply Hkeys.
Qed.

Lemma registries_linked_newHomePage : registries_linked newHomePage.
Proof.
  split.
  - intros k Hk. by apply elem_of_nil in Hk.
  - intros pc p remoteId Hp. cbn in Hp. by rewrite lookup_nil in Hp.
Qed.

Lemma keyset_consistent_ngOnDestroy (st : State) :
  keyset_consistent (exec ngOnDestroy st).
Proof.
  unfold exec. destruct (ioConnection st) as [sock|] eqn:Hio.
  - rewrite (ngOnDestroy_eq sock st Hio). intros k Hk. by apply elem_of_nil in Hk.
  - rewrite (ngOnDestroy_without_socket st Hio). intros k Hk. by apply elem_of_nil in Hk.
Qed.

End Linked.

(** * Reachable states are well formed; sessions are reused *)

Section Wellformed.
Context `{Platform}.

Lemma values_delete_Forall {K V : Type} `{EqDecision K} (Q : V -> Prop) (k : K)
    (m : JSMap.t K V) :
  Forall Q (JSMap.values m) -> Forall Q (JSMap.values (JSMap.delete k m)).
Proof.
  unfold JSMap.values. induction m as [|[k' v'] m IH]; csimpl; [done|].
  intros [Hv Hm]%Forall_cons.
  destruct (decide (k' = k)); csimpl; [by apply IH|]. constructor; auto.
Qed.

Lemma stable_wellformed : stable wellformed.
Proof.
  unfold wellformed, registry_valid.
  split_and!; try (intros st x Hst; exact Hst).
  intros st f pc _ (? & ? & ?). split_and!; [done..|]. cbn. by rewrite length_alter.
Qed.

Lemma wellformed_getOrCreatePeerConnection (remoteId : jsid) :
  preserves wellformed (getOrCreatePeerConnection remoteId).
Proof.
  intros st (Hpcm & Hstreams & Hvalid). unfold exec.
  destruct (getOrCreatePeerConnection_cases remoteId st)
    as [(pc0 & _ & _ & ->)|[Hnew ->]]; [done|]. cbn [snd].
  split_and!; [by apply wf_set|done|by apply registry_valid_register].
Qed.

Lemma wellformed_on_user_disconnect (userId : jsid) :
  preserves wellformed (on_user_disconnect userId).
Proof.
  intros st Hst. unfold exec.
  destruct userId as [| |s];
    [rewrite on_user_disconnect_nullish by done; by apply stable_wellformed..|].
  rewrite on_user_disconnect_eq. cbn [snd].
  destruct Hst as (Hpcm & Hstreams & Hvalid).
  unfold wellformed, registry_valid, peer_removed in *. cbn.
  split_and!; [by apply wf_delete..|].
  apply values_delete_Forall.
  by destruct (JSMap.get (JStr s) (peerConnectionMap st)); rewrite ?length_alter.
Qed.

Lemma wellformed_ontrack (st : State) (pc : PcRef) (p : RTCPeerConnection)
    (remoteId : jsid) (track : MediaStreamTrack) :
  wellformed st ->
  pcs st !! pc = Some p ->
  pc_closed p = false ->
  JSMap.get Ontrack (pc_callbacks p) = Some remoteId ->
  wellformed (exec (ontrack remoteId track) st).
Proof.
  intros (Hpcm & Hstreams & Hvalid) _ _ _.
  unfold exec, ontrack, bind, console_log, effect, modify, gets. cbn [fst snd].
  unfold wellformed, registry_valid in *. cbn.
  split_and!; [done|by apply wf_set|done].
Qed.

(** Every state the page reaches is well formed: the hypotheses
    [JSMap.wf] and [registry_valid] of the theorems below hold of it. *)
Lemma run_wellformed (env : Environment) (evs : list Event) :
  wellformed (run evs (exec (ngOnInit env) newHomePage)).
Proof.
  apply (run_preserves wellformed stable_wellformed
           wellformed_getOrCreatePeerConnection
           wellformed_on_user_disconnect
           wellformed_ontrack).
  apply (preserves_ngOnInit wellformed stable_wellformed
           wellformed_getOrCreatePeerConnection).
  split_and!; [apply NoDup_nil_2..|constructor].
Qed.

Lemma stable_sessions_are (m : JSMap.t jsid PcRef) (n : nat) : stable (sessions_are m n).
Proof.
  unfold sessions_are.
  split_and!; try (intros st x Hst; exact Hst).
  intros st f pc _ [? ?]. split; [done|]. cbn. by rewrite length_alter.
Qed.

(** What [getUserStreamData] does to sessions that exist: nothing.  With
    non-null identifiers throughout, the registry maps each identifier to the
    session object it mapped it to before, and no object is created. *)
Lemma getUserStreamData_reuses_sessions (stream : MediaStream) (st : State) :
  Forall (fun k => nullish k = false) (JSMap.keys (peerConnectionMap st)) ->
  let st' := exec (getUserStreamData (Some stream)) st in
  peerConnectionMap st' = peerConnectionMap st
  /\ length (pcs st') = length (pcs st).
Proof.
  intros Hkeys st'. subst st'.
  set (Q := sessions_are (peerConnectionMap st) (length (pcs st))).
  assert (stable Q) as HQ by apply stable_sessions_are.
  assert (forall k, k ∈ JSMap.keys (peerConnectionMap st) ->
            preserves Q (getOrCreatePeerConnection k)) as Hget.
  { intros k Hk st1 [Hm Hn]. unfold exec.
    rewrite Forall_forall in Hkeys.
    destruct (getOrCreatePeerConnection_cases k st1)
      as [(pc0 & _ & _ & ->)|[Hnew ->]]; [done|].
    rewrite (Hkeys k Hk), Hm in Hnew.
    apply elem_of_keys_get in Hk as [pc Hpc]. congruence. }
  assert (preserves Q (getUserStreamData (Some stream))) as Hpres;
    [|by apply (Hpres st)].
  cbn [getUserStreamData].
  apply preserves_bind; [intros st1 Hst1; by apply HQ|intros _].
  apply preserves_bind; [apply preserves_gets|intros localStream].
  apply preserves_bind; [intros st1 Hst1; by apply HQ|intros _].
  apply preserves_bind; [apply preserves_gets|intros size].
  destruct (bool_decide (0 < size)); [|apply preserves_ret].
  apply preserves_bind_gets. intros st1 Hst1.
  destruct (Hst1) as [Hm1 _]. rewrite Hm1. clear Hm1. revert st1 Hst1.
  apply preserves_bind; [|intros _].
  { unfold removeAllCurrentConnection.
    apply preserves_bind; [apply preserves_gets|].
    intros [sock|]; [|apply preserves_ret].
    apply preserves_bind; [apply preserves_gets|]. intros data.
    apply preserves_forEach. intros value. by apply preserves_emit. }
  unfold sendOffers. apply preserves_bind; [apply preserves_gets|].
  intros [sock|]; [|apply preserves_ret].
  apply preserves_bind; [|intros begun].
  { apply preserves_each_settled_elem; [done|]. intros value Hvalue.
    apply preserves_sendOffers_begin; [done|]. by apply Hget. }
  apply preserves_bind; [|intros described].
  { apply preserves_each_settled; [done|]. intros callback.
    by apply preserves_sendOffers_describe. }
  apply preserves_bind; [|intros _; apply preserves_ret].
  apply preserves_each_settled; [done|]. intros callback.
  by apply preserves_sendOffers_emit.
Qed.

End Wellformed.

(** * What the page sends *)

Section Sends.
Context `{Platform}.

Lemma emitted_app (t1 t2 : list Effect) : emitted (t1 ++ t2) = emitted t1 ++ emitted t2.
Proof. unfold emitted. apply omap_app. Qed.

Lemma emitted_SocketEmit (ms : list OutMessage) : emitted (SocketEmit <$> ms) = ms.
Proof. induction ms as [|m ms IH]; [done|]. cbn. by rewrite <- IH at 2. Qed.

Lemma follows_refl (st : State) : follows [] st st.
Proof. split; [done|]. exists []. by rewrite app_nil_r. Qed.

Lemma follows_frame (st st' : State) :
  ioConnection st' = ioConnection st -> trace st' = trace st -> follows [] st st'.
Proof. intros Hio Ht. split; [done|]. exists []. by rewrite app_nil_r. Qed.

Lemma follows_trans (a b : list OutMessage) (st st1 st2 : State) :
  follows a st st1 -> follows b st1 st2 -> follows (a ++ b) st st2.
Proof.
  intros [Hio1 (t1 & Ht1 & Ha)] [Hio2 (t2 & Ht2 & Hb)]. split; [congruence|].
  exists (t1 ++ t2). rewrite Ht2, Ht1, emitted_app, Ha, Hb. by rewrite app_assoc.
Qed.

Lemma follows_trace (t : list Effect) (st : State) :
  follows (emitted t) st (with_trace (trace st ++ t) st).
Proof. split; [by destruct st|]. exists t. by destruct st. Qed.

Lemma emitted_PcAddTrack (pc : PcRef) (tracks : list MediaStreamTrack) :
  emitted (PcAddTrack pc <$> tracks) = [].
Proof. by induction tracks. Qed.

Lemma emitted_PcClose (l : list PcRef) : emitted (PcClose <$> l) = [].
Proof. by induction l. Qed.

Lemma emitted_TrackStop (l : list MediaStreamTrack) : emitted (TrackStop <$> l) = [].
Proof. by induction l. Qed.

Lemma getOrCreatePeerConnection_follows (remoteId : jsid) (pc : PcRef) (st st0 : State) :
  getOrCreatePeerConnection remoteId st = (Returned pc, st0) -> follows [] st st0.
Proof.
  destruct (getOrCreatePeerConnection_cases remoteId st)
    as [(pc' & _ & _ & ->)|[_ ->]]; intros [= <- <-]; [apply follows_refl|].
  split; [done|]. by exists (wiring (length (pcs st)) remoteId).
Qed.

Section Closed.
Context (Q : list OutMessage -> Prop).
Hypothesis Qnil : Q [].
Hypothesis Qapp : forall a b, Q a -> Q b -> Q (a ++ b).

Lemma sends_same {A : Type} (m : M A) :
  (forall st, exec m st = st) -> sends Q m.
Proof. intros Hm st. exists []. rewrite Hm. split; [apply follows_refl|done]. Qed.

Lemma sends_ret {A : Type} (a : A) : sends Q (ret a).
Proof. by apply sends_same. Qed.

Lemma sends_throw {A : Type} (e : JsError) : sends Q (@throw A e).
Proof. by apply sends_same. Qed.

Lemma sends_gets {A : Type} (f : State -> A) : sends Q (gets f).
Proof. by apply sends_same. Qed.

Lemma sends_ioConnection_id : sends Q ioConnection_id.
Proof. apply sends_same. intros st. unfold exec, ioConnection_id. by destruct (ioConnection st). Qed.

Lemma sends_bind {A B : Type} (m : M A) (k : A -> M B) :
  sends Q m -> (forall a, sends Q (k a)) -> sends Q (bind m k).
Proof.
  intros Hm Hk st. destruct (Hm st) as (ms1 & Hf1 & Hq1).
  unfold exec, bind in *. destruct (m st) as [[a|e] st1]; cbn [snd] in *; [|eauto].
  destruct (Hk a st1) as (ms2 & Hf2 & Hq2).
  exists (ms1 ++ ms2). split; [by eapply follows_trans|by apply Qapp].
Qed.

Lemma sends_forEach {A : Type} (l : list A) (f : A -> M unit) :
  (forall x, sends Q (f x)) -> sends Q (forEach l f).
Proof.
  intros Hf. induction l as [|x l IH]; simpl; [apply sends_ret|].
  apply sends_bind; [apply Hf|by intros _].
Qed.

Lemma sends_async (m : M unit) : sends Q m -> sends Q (async m).
Proof.
  intros Hm st. destruct (Hm st) as (ms & Hf & Hq).
  unfold exec, async in *. destruct (m st) as [[[]|e] st1]; cbn [snd] in *; [eauto|].
  exists (ms ++ []). split; [|by rewrite app_nil_r].
  eapply follows_trans; [exact Hf|]. apply (follows_trace [UnhandledRejection e]).
Qed.

(** An update of the state that leaves the socket alone and sends nothing. *)
Lemma sends_modify (f : State -> State) :
  (forall st, follows [] st (f st)) -> sends Q (modify f).
Proof. intros Hf st. exists []. split; [apply Hf|done]. Qed.

Lemma sends_console_log (args : list LogArg) : sends Q (console_log args).
Proof. apply sends_modify. intros st. apply (follows_trace [ConsoleLog args]). Qed.

Lemma sends_track_stop (value : MediaStreamTrack) : sends Q (track_stop value).
Proof.
  apply sends_modify. intros st. split; [by destruct st|].
  exists [TrackStop value]. by destruct st.
Qed.

Lemma sends_pc_call (pc : PcRef) (e : Effect) (f : RTCPeerConnection -> RTCPeerConnection) :
  emitted [e] = [] -> sends Q (pc_call pc e f).
Proof.
  intros He. apply sends_modify. intros st. split; [by destruct st|].
  exists [e]. by destruct st.
Qed.

Lemma sends_pc_try (pc : PcRef) (e : Effect) (err : RTCPeerConnection -> option JsError)
    (f : RTCPeerConnection -> RTCPeerConnection) :
  emitted [e] = [] -> sends Q (pc_try pc e err f).
Proof.
  intros He st. exists []. split; [|done]. unfold exec, pc_try.
  destruct (err (default fresh_pc (pcs st !! pc))); cbn [snd].
  - rewrite <- He. apply follows_trace.
  - split; [by destruct st|]. exists [e]. by destruct st.
Qed.

Lemma sends_pc_close (pc : PcRef) : sends Q (pc_close pc).
Proof. by apply sends_pc_call. Qed.

Lemma sends_pc_addTrack (pc : PcRef) (track : MediaStreamTrack) : sends Q (pc_addTrack pc track).
Proof. by apply sends_pc_try. Qed.

Lemma sends_pc_setRemoteDescription (pc : PcRef) (d : RTCSessionDescription) :
  sends Q (pc_setRemoteDescription pc d).
Proof. by apply sends_pc_try. Qed.

Lemma sends_pc_setLocalDescription (pc : PcRef) (d : RTCSessionDescription) :
  sends Q (pc_setLocalDescription pc d).
Proof. by apply sends_pc_try. Qed.

Lemma sends_pc_addIceCandidate (pc : PcRef) (c : RTCIceCandidate) :
  sends Q (pc_addIceCandidate pc c).
Proof. by apply sends_pc_try. Qed.

Lemma sends_pc_createOffer_call (pc : PcRef) : sends Q (pc_createOffer_call pc).
Proof.
  intros st. exists []. split; [|done]. apply (follows_trace [PcCreateOffer pc]).
Qed.

Lemma sends_await {A : Type} (promise : Outcome A) : sends Q (await promise).
Proof. destruct promise; [apply sends_ret|apply sends_throw]. Qed.

Lemma sends_settled {A : Type} (m : M A) : sends Q m -> sends Q (settled m).
Proof.
  intros Hm st. destruct (Hm st) as (ms & Hf & Hq).
  unfold exec, settled in *. destruct (m st) as [[a|e] st1]; cbn [snd] in *; [eauto|].
  exists (ms ++ []). split; [|by rewrite app_nil_r].
  eapply follows_trans; [exact Hf|]. apply (follows_trace [UnhandledRejection e]).
Qed.

Lemma sends_each_settled {A B : Type} (l : list A) (f : A -> M B) :
  (forall x, sends Q (f x)) -> sends Q (each_settled l f).
Proof.
  intros Hf. induction l as [|x l IH]; simpl; [apply sends_ret|].
  apply sends_bind; [apply sends_settled, Hf|intros r].
  apply sends_bind; [exact IH|intros rs]. apply sends_ret.
Qed.

Lemma sends_pc_createAnswer (pc : PcRef) : sends Q (pc_createAnswer pc).
Proof.
  intros st. exists []. split; [|done]. apply (follows_trace [PcCreateAnswer pc]).
Qed.

Lemma sends_emit (m : OutMessage) : Q [m] -> sends Q (emit m).
Proof.
  intros Hm st. unfold exec, emit. destruct (ioConnection st) eqn:Hio.
  - exists [m]. split; [|done]. apply (follows_trace [SocketEmit m]).
  - exists []. split; [apply follows_refl|done].
Qed.

Lemma sends_getOrCreatePeerConnection (remoteId : jsid) :
  sends Q (getOrCreatePeerConnection remoteId).
Proof.
  intros st. exists []. split; [|done].
  destruct (getOrCreatePeerConnection_returns remoteId st) as (pc & st0 & Hrun).
  unfold exec. rewrite Hrun. by eapply getOrCreatePeerConnection_follows.
Qed.

Lemma sends_addLocalTracks (pc : PcRef) : sends Q (addLocalTracks pc).
Proof.
  unfold addLocalTracks. apply sends_bind; [apply sends_gets|].
  intros [stream|]; [|apply sends_ret].
  apply sends_forEach. intros track. apply sends_pc_addTrack.
Qed.

Lemma sends_removePeerConnection (remoteId : jsid) : sends Q (removePeerConnection remoteId).
Proof.
  unfold removePeerConnection. destruct (nullish remoteId); [apply sends_ret|].
  apply sends_bind; [apply sends_gets|intros peerConnection].
  apply sends_bind.
  - destruct peerConnection as [pc|]; [apply sends_pc_close|apply sends_ret].
  - intros _. apply sends_modify. intros st. by apply follows_frame.
Qed.

Lemma sends_removeStream (remoteId : jsid) : sends Q (removeStream remoteId).
Proof.
  unfold removeStream. destruct (nullish remoteId); [apply sends_ret|].
  apply sends_bind; [apply sends_gets|intros streamData].
  apply sends_bind.
  - destruct streamData as [stream|]; [|apply sends_ret].
    apply sends_forEach, sends_track_stop.
  - intros _. apply sends_modify. intros st. by apply follows_frame.
Qed.

Lemma sends_ontrack (remoteId : jsid) (track : MediaStreamTrack) :
  sends Q (ontrack remoteId track).
Proof.
  unfold ontrack. apply sends_bind; [apply sends_console_log|intros _].
  apply sends_bind; [apply sends_gets|intros found].
  apply sends_modify. intros st. by apply follows_frame.
Qed.

(** The listeners and callbacks that have no [emit] in them. *)
Lemma sends_silent_listener (e : SocketEvent) :
  silent e = true -> sends Q (socket_listener e).
Proof.
  destruct e as [roomId|userIds|offer|answer|candidate|userId|]; simpl; try done; intros _.
  - apply sends_console_log.
  - apply sends_async. unfold on_received_answer_body.
    apply sends_bind; [apply sends_console_log|intros _].
    apply sends_bind; [apply sends_getOrCreatePeerConnection|intros pc].
    apply sends_pc_setRemoteDescription.
  - apply sends_async. unfold on_received_candidate_body.
    apply sends_bind; [apply sends_console_log|intros _].
    apply sends_bind; [apply sends_getOrCreatePeerConnection|intros pc].
    apply sends_pc_addIceCandidate.
  - unfold on_user_disconnect.
    apply sends_bind; [apply sends_console_log|intros _].
    apply sends_bind; [apply sends_removePeerConnection|intros _].
    apply sends_removeStream.
  - unfold on_disconnect.
    apply sends_bind; [apply sends_console_log|intros _].
    unfold removeAllPeerConnection.
    apply sends_bind; [apply sends_gets|intros data].
    apply sends_forEach, sends_pc_close.
Qed.

Lemma sends_sendOffers_begin (value : jsid) : sends Q (sendOffers_begin value).
Proof.
  unfold sendOffers_begin.
  apply sends_bind; [apply sends_getOrCreatePeerConnection|intros pc].
  apply sends_bind; [apply sends_addLocalTracks|intros _].
  apply sends_bind; [apply sends_pc_createOffer_call|intros promise].
  apply sends_ret.
Qed.

Lemma sends_sendOffers_describe
    (callback : jsid * PcRef * Outcome RTCSessionDescription) :
  sends Q (sendOffers_describe callback).
Proof.
  destruct callback as [[value pc] promise]. unfold sendOffers_describe.
  apply sends_bind; [apply sends_await|intros offer].
  apply sends_bind; [apply sends_pc_setLocalDescription|intros _].
  apply sends_ret.
Qed.

Lemma sends_sendOffers_emit (callback : jsid * PcRef) :
  (forall d senderId, Q [TransferOffer d senderId callback.1]) ->
  sends Q (sendOffers_emit callback).
Proof.
  destruct callback as [value pc]. intros Hq. unfold sendOffers_emit.
  apply sends_bind; [apply sends_gets|intros d].
  apply sends_bind; [apply sends_ioConnection_id|intros senderId].
  by apply sends_emit.
Qed.

Lemma sends_sendOffers (userIds : list jsid) :
  (forall d senderId value, Q [TransferOffer d senderId value]) ->
  sends Q (sendOffers userIds).
Proof.
  intros Hq. unfold sendOffers. apply sends_bind; [apply sends_gets|].
  intros [sock|]; [|apply sends_ret].
  apply sends_bind; [|intros begun].
  { apply sends_each_settled. intros value. apply sends_sendOffers_begin. }
  apply sends_bind; [|intros described].
  { apply sends_each_settled. intros callback. apply sends_sendOffers_describe. }
  apply sends_bind; [|intros _; apply sends_ret].
  apply sends_each_settled. intros callback. by apply sends_sendOffers_emit.
Qed.

Lemma sends_removeAllCurrentConnection :
  (forall value, Q [RemoveConnection value]) -> sends Q removeAllCurrentConnection.
Proof.
  intros Hq. unfold removeAllCurrentConnection. apply sends_bind; [apply sends_gets|].
  intros [sock|]; [|apply sends_ret].
  apply sends_bind; [apply sends_gets|intros data].
  apply sends_forEach. intros value. by apply sends_emit.
Qed.

Section Any.
Hypothesis Qany : forall m, Q [m].

Lemma sends_getUserStreamData (media : option MediaStream) :
  sends Q (getUserStreamData media).
Proof.
  unfold getUserStreamData. destruct media as [stream|]; [|apply sends_throw].
  apply sends_bind; [apply sends_modify; intros st; by apply follows_frame|intros _].
  apply sends_bind; [apply sends_gets|intros localStream].
  apply sends_bind; [apply sends_modify; intros st; by apply follows_frame|intros _].
  apply sends_bind; [apply sends_gets|intros size].
  destruct (bool_decide (0 < size)); [|apply sends_ret].
  apply sends_bind; [apply sends_gets|intros userIds].
  apply sends_bind; [by apply sends_removeAllCurrentConnection|intros _].
  by apply sends_sendOffers.
Qed.

Lemma sends_on_received_offer_body (offer : Offer) :
  sends Q (on_received_offer_body offer).
Proof.
  unfold on_received_offer_body.
  apply sends_bind; [apply sends_console_log|intros _].
  apply sends_bind; [apply sends_getOrCreatePeerConnection|intros pc].
  apply sends_bind; [apply sends_addLocalTracks|intros _].
  apply sends_bind; [apply sends_pc_setRemoteDescription|intros _].
  apply sends_bind; [apply sends_pc_createAnswer|intros answer].
  apply sends_bind; [apply sends_pc_setLocalDescription|intros _].
  apply sends_bind; [apply sends_gets|intros d].
  apply sends_bind; [apply sends_ioConnection_id|intros senderId].
  by apply sends_emit.
Qed.

Lemma sends_socket_listener (e : SocketEvent) : sends Q (socket_listener e).
Proof.
  destruct (silent e) eqn:He; [by apply sends_silent_listener|].
  destruct e as [roomId|userIds|offer|answer|candidate|userId|]; try done; simpl.
  - unfold on_join. apply sends_bind; [apply sends_console_log|intros _].
    destruct userIds as [ids|]; [by apply sends_sendOffers|by apply sends_emit].
  - apply sends_async, sends_on_received_offer_body.
Qed.

Lemma sends_pc_callback (remoteId : jsid) (e : PcEvent) : sends Q (pc_callback remoteId e).
Proof.
  destruct e as [candidate|track| | |]; simpl.
  - unfold onicecandidate. apply sends_bind; [apply sends_console_log|intros _].
    destruct candidate as [c|]; [|apply sends_ret].
    apply sends_bind; [apply sends_ioConnection_id|intros senderId].
    by apply sends_emit.
  - apply sends_ontrack.
  - apply sends_async, sends_console_log.
  - apply sends_async, sends_console_log.
  - apply sends_console_log.
Qed.

Lemma deliver_follows (ev : Event) (st : State) :
  exists ms, follows ms st (deliver ev st) /\ Q ms.
Proof.
  assert (exists ms, follows ms st st /\ Q ms) as Hsame.
  { exists []. split; [apply follows_refl|done]. }
  destruct ev as [e|pc e|media]; simpl.
  - destruct (ioConnection st); [apply sends_socket_listener|done].
  - destruct (pcs st !! pc) as [p|]; [|done].
    destruct (pc_closed p && negb (after_close e)); [done|].
    destruct (JSMap.get (slot_of e) (pc_callbacks p)) as [remoteId|]; [|done].
    apply sends_pc_callback.
  - apply sends_getUserStreamData.
Qed.

Lemma run_follows (evs : list Event) (st : State) :
  exists ms, follows ms st (run evs st) /\ Q ms.
Proof.
  unfold run. revert st. induction evs as [|ev evs IH]; intros st; simpl.
  - exists []. split; [apply follows_refl|done].
  - destruct (deliver_follows ev st) as (ms1 & Hf1 & Hq1).
    destruct (IH (deliver ev st)) as (ms2 & Hf2 & Hq2).
    exists (ms1 ++ ms2). split; [by eapply follows_trans|by apply Qapp].
Qed.

End Any.

End Closed.

End Sends.

(** * A new local stream while sessions exist *)

Section Renegotiate.
Context `{Platform}.

Lemma forEach_emit {A : Type} (msg : A -> OutMessage) (l : list A) (sock : Socket) (st : State) :
  ioConnection st = Some sock ->
  forEach l (fun value => emit (msg value)) st
  = (Returned tt, with_trace (trace st ++ (SocketEmit <$> (msg <$> l))) st).
Proof.
  revert st. induction l as [|x l IH]; intros st Hio; csimpl.
  - destruct st; js_eval. by rewrite app_nil_r.
  - unfold bind. unfold emit at 1. rewrite Hio. unfold effect, modify.
    rewrite IH by done.
    destruct st; js_eval. by rewrite <- app_assoc.
Qed.

Lemma removeAllCurrentConnection_eq (sock : Socket) (st : State) :
  ioConnection st = Some sock ->
  removeAllCurrentConnection st
  = (Returned tt,
     with_trace
       (trace st ++
        (SocketEmit <$> (RemoveConnection <$> JSMap.keys (peerConnectionMap st))))
       st).
Proof.
  intros Hio. unfold removeAllCurrentConnection, bind, gets. cbn [fst snd].
  rewrite Hio. by apply (forEach_emit RemoveConnection _ sock).
Qed.

Lemma size_keys_nonempty {K V : Type} (m : JSMap.t K V) :
  JSMap.keys m <> [] -> 0 < JSMap.size m.
Proof. destruct m; [done|]. intros _. unfold JSMap.size. simpl. lia. Qed.

Lemma stable_in_trace (e : Effect) : stable (fun st => e ∈ trace st).
Proof.
  split_and!; try (intros st x Hst; exact Hst).
  - intros st t Hst. cbn. apply elem_of_app. by left.
  - intros st f pc _ Hst. exact Hst.
Qed.

Lemma preserves_in_trace_getOrCreatePeerConnection (e : Effect) (remoteId : jsid) :
  preserves (fun st => e ∈ trace st) (getOrCreatePeerConnection remoteId).
Proof.
  intros st Hst.
  destruct (getOrCreatePeerConnection_returns remoteId st) as (pc & st0 & Hrun).
  destruct (getOrCreatePeerConnection_spec _ _ _ _ Hrun)
    as (_ & _ & _ & _ & [t Htr] & _).
  unfold exec. rewrite Hrun. cbn [snd]. rewrite Htr. apply elem_of_app. by left.
Qed.

(** *** The callbacks of [sendOffers], stretch by stretch *)

Lemma app_nil_nil (a b : list OutMessage) : a = [] -> b = [] -> a ++ b = [].
Proof. by intros -> ->. Qed.

(** The callbacks that reach the end of a stretch are among those that
    started it, in the same order. *)
Lemma each_settled_sublist {A B K : Type} (tagA : A -> K) (tagB : B -> K)
    (l : list A) (f : A -> M B) (st st' : State) (rs : list B) :
  (forall x st b st', f x st = (Returned b, st') -> tagB b = tagA x) ->
  each_settled l f st = (Returned rs, st') ->
  sublist (tagB <$> rs) (tagA <$> l).
Proof.
  intros Htag. revert st rs. induction l as [|x l IH]; intros st rs; simpl; unfold ret.
  - intros [= <- _]. constructor.
  - destruct (f x st) as [[b|e] st1] eqn:Hfx.
    + destruct (each_settled_returns l f st1) as (rs1 & st2 & Hrest).
      rewrite (bind_returned _ _ (Some b) st st1) by (unfold settled; by rewrite Hfx).
      rewrite (bind_returned _ _ rs1 _ st2 Hrest). unfold ret.
      intros [= <- <-]. csimpl. rewrite (Htag _ _ _ _ Hfx).
      constructor. by eapply IH.
    + destruct (each_settled_returns l f
                  (with_trace (trace st1 ++ [UnhandledRejection e]) st1))
        as (rs1 & st2 & Hrest).
      rewrite (bind_returned _ _ None st
                 (with_trace (trace st1 ++ [UnhandledRejection e]) st1))
        by (unfold settled; by rewrite Hfx).
      rewrite (bind_returned _ _ rs1 _ st2 Hrest). unfold ret.
      intros [= <- <-]. csimpl. constructor. by eapply IH.
Qed.

Lemma rejected_app (t1 t2 : list Effect) :
  rejected (t1 ++ t2) = rejected t1 ++ rejected t2.
Proof. unfold rejected. apply omap_app. Qed.

(** An unawaited callback whose stretch of trace reports no rejection
    returned. *)
Lemma settled_clean {A : Type} (m : M A) (st st' : State) (r : option A)
    (t : list Effect) :
  sends (fun _ => True) m ->
  settled m st = (Returned r, st') ->
  trace st' = trace st ++ t ->
  rejected t = [] ->
  exists a, r = Some a /\ m st = (Returned a, st').
Proof.
  intros Hm Hrun Ht Hclean. destruct (Hm st) as (ms & [_ (t0 & Ht0 & _)] & _).
  unfold settled, exec in *. destruct (m st) as [[a|e] st0]; cbn [snd] in *.
  - injection Hrun as <- <-. by exists a.
  - injection Hrun as <- <-. cbn in Ht. rewrite Ht0, <- app_assoc in Ht.
    apply app_inv_head in Ht. subst t. rewrite rejected_app in Hclean.
    by apply app_eq_nil in Hclean as [_ ?].
Qed.

(** When the stretch of trace reports no rejection, every callback reached
    the end of the stretch. *)
Lemma each_settled_clean {A B K : Type} (tagA : A -> K) (tagB : B -> K)
    (l : list A) (f : A -> M B) (st st' : State) (rs : list B) (t : list Effect) :
  (forall x, sends (fun _ => True) (f x)) ->
  (forall x st b st', f x st = (Returned b, st') -> tagB b = tagA x) ->
  each_settled l f st = (Returned rs, st') ->
  trace st' = trace st ++ t ->
  rejected t = [] ->
  tagB <$> rs = tagA <$> l.
Proof.
  intros Hsends Htag. revert st rs t.
  induction l as [|x l IH]; intros st rs t; simpl; unfold ret.
  - by intros [= <- _].
  - destruct (settled_returns (f x) st) as (r & st1 & Hfx).
    destruct (each_settled_returns l f st1) as (rs1 & st2 & Hrest).
    rewrite (bind_returned _ _ r st st1 Hfx), (bind_returned _ _ rs1 _ st2 Hrest).
    unfold ret. intros [= <- <-] Ht Hclean.
    destruct (sends_settled (fun _ => True) (f x) (Hsends x) st)
      as (ms1 & [_ (t1 & Ht1 & _)] & _).
    unfold exec in Ht1. rewrite Hfx in Ht1. cbn [snd] in Ht1.
    destruct (sends_each_settled (fun _ => True) I (fun _ _ _ _ => I) l f Hsends st1)
      as (ms2 & [_ (t2 & Ht2 & _)] & _).
    unfold exec in Ht2. rewrite Hrest in Ht2. cbn [snd] in Ht2.
    rewrite Ht2, Ht1, <- app_assoc in Ht. apply app_inv_head in Ht. subst t.
    rewrite rejected_app in Hclean. apply app_eq_nil in Hclean as [Hc1 Hc2].
    destruct (settled_clean (f x) st st1 r t1 (Hsends x) Hfx Ht1 Hc1)
      as (b & -> & Hb).
    csimpl. rewrite (Htag _ _ _ _ Hb). f_equal. by eapply IH.
Qed.

(** *** Counting the rejections *)

Lemma unrejected_same {A : Type} (m : M A) :
  (forall st, trace (exec m st) = trace st) -> unrejected m.
Proof. intros Hm st. exists []. by rewrite Hm, app_nil_r. Qed.

Lemma unrejected_bind {A B : Type} (m : M A) (k : A -> M B) :
  unrejected m -> (forall a, unrejected (k a)) -> unrejected (bind m k).
Proof.
  intros Hm Hk st. destruct (Hm st) as (t1 & Ht1 & Hr1).
  unfold exec, bind in *. destruct (m st) as [[a|e] st1]; cbn [snd] in *; [|eauto].
  destruct (Hk a st1) as (t2 & Ht2 & Hr2). unfold exec in Ht2.
  exists (t1 ++ t2). rewrite Ht2, Ht1, rejected_app, Hr1, Hr2. by rewrite app_assoc.
Qed.

Lemma unrejected_pc_try (pc : PcRef) (e : Effect)
    (err : RTCPeerConnection -> option JsError)
    (f : RTCPeerConnection -> RTCPeerConnection) :
  rejected [e] = [] -> unrejected (pc_try pc e err f).
Proof.
  intros He st. exists [e]. split; [|done]. unfold exec, pc_try.
  by destruct (err (default fresh_pc (pcs st !! pc))).
Qed.

Lemma unrejected_getOrCreatePeerConnection (remoteId : jsid) :
  unrejected (getOrCreatePeerConnection remoteId).
Proof.
  intros st. unfold exec.
  destruct (getOrCreatePeerConnection_cases remoteId st)
    as [(pc & _ & _ & ->)|[_ ->]].
  - exists []. by rewrite app_nil_r.
  - by exists (wiring (length (pcs st)) remoteId).
Qed.

Lemma unrejected_sendOffers_begin (value : jsid) : unrejected (sendOffers_begin value).
Proof.
  unfold sendOffers_begin.
  apply unrejected_bind; [apply unrejected_getOrCreatePeerConnection|intros pc].
  apply unrejected_bind; [|intros _].
  { unfold addLocalTracks. apply unrejected_bind; [by apply unrejected_same|].
    intros [stream|]; [|by apply unrejected_same].
    induction (getTracks stream) as [|track l IH]; simpl; [by apply unrejected_same|].
    apply unrejected_bind; [by apply unrejected_pc_try|by intros _]. }
  apply unrejected_bind; [|intros promise; by apply unrejected_same].
  intros st. by exists [PcCreateOffer pc].
Qed.

Lemma unrejected_sendOffers_describe
    (callback : jsid * PcRef * Outcome RTCSessionDescription) :
  unrejected (sendOffers_describe callback).
Proof.
  destruct callback as [[value pc] promise]. unfold sendOffers_describe.
  apply unrejected_bind; [destruct promise; by apply unrejected_same|intros offer].
  apply unrejected_bind; [by apply unrejected_pc_try|intros _].
  by apply unrejected_same.
Qed.

(** Of the callbacks of a stretch, each one reaches its end or is rejected,
    and the trace reports each rejection once. *)
Lemma each_settled_count {A B : Type} (l : list A) (f : A -> M B) (st st' : State)
    (rs : list B) :
  (forall x, unrejected (f x)) ->
  each_settled l f st = (Returned rs, st') ->
  exists t, trace st' = trace st ++ t
            /\ length rs + length (rejected t) = length l.
Proof.
  intros Hf. revert st rs.
  induction l as [|x l IH]; intros st rs; simpl; unfold ret.
  - intros [= <- <-]. exists []. by rewrite app_nil_r.
  - destruct (Hf x st) as (t1 & Ht1 & Hr1).
    unfold exec in Ht1. unfold bind at 1. unfold settled.
    destruct (f x st) as [[b|e] st1]; cbn [snd] in Ht1.
    + destruct (each_settled_returns l f st1) as (rs1 & st2 & Hrest).
      rewrite (bind_returned _ _ rs1 _ st2 Hrest). unfold ret.
      intros [= <- <-].
      destruct (IH _ _ Hrest) as (t2 & Ht2 & Hcount).
      exists (t1 ++ t2). rewrite Ht2, Ht1, rejected_app, Hr1, app_assoc.
      split; [done|]. cbn. lia.
    + destruct (each_settled_returns l f
                  (with_trace (trace st1 ++ [UnhandledRejection e]) st1))
        as (rs1 & st2 & Hrest).
      rewrite (bind_returned _ _ rs1 _ st2 Hrest). unfold ret.
      intros [= <- <-].
      destruct (IH _ _ Hrest) as (t2 & Ht2 & Hcount).
      exists (t1 ++ [UnhandledRejection e] ++ t2).
      rewrite Ht2. cbn [trace with_trace]. rewrite Ht1, !rejected_app, Hr1.
      rewrite <- !app_assoc. split; [by destruct st1|]. cbn. lia.
Qed.

Lemma sendOffers_begin_tag (value : jsid) (st : State)
    (b : jsid * PcRef * Outcome RTCSessionDescription) (st' : State) :
  sendOffers_begin value st = (Returned b, st') -> b.1.1 = value.
Proof.
  unfold sendOffers_begin, bind.
  destruct (getOrCreatePeerConnection value st) as [[pc|e] st0]; [|done].
  destruct (addLocalTracks pc st0) as [[[]|e] st1]; [|done].
  destruct (pc_createOffer_call pc st1) as [[promise|e] st2]; [|done].
  unfold ret. by intros [= <- _].
Qed.

Lemma sendOffers_describe_tag (callback : jsid * PcRef * Outcome RTCSessionDescription)
    (st : State) (b : jsid * PcRef) (st' : State) :
  sendOffers_describe callback st = (Returned b, st') -> b.1 = callback.1.1.
Proof.
  destruct callback as [[value pc] promise]. unfold sendOffers_describe, bind.
  destruct (await promise st) as [[offer|e] st0]; [|done].
  destruct (pc_setLocalDescription pc offer st0) as [[[]|e] st1]; [|done].
  unfold ret. by intros [= <- _].
Qed.

(** The last stretch of a callback, the socket in place. *)
Lemma sendOffers_emit_eq (value : jsid) (pc : PcRef) (sock : Socket) (st : State) :
  ioConnection st = Some sock ->
  sendOffers_emit (value, pc) st
  = (Returned tt,
     with_trace
       (trace st ++
        [SocketEmit (TransferOffer (pcs st !! pc ≫= pc_localDescription)
                       (socket_id sock) value)]) st).
Proof.
  intros Hio. unfold sendOffers_emit.
  rewrite (bind_returned _ _ (pcs st !! pc ≫= pc_localDescription) st st) by done.
  rewrite (bind_returned _ _ (socket_id sock) st st)
    by (unfold ioConnection_id; by rewrite Hio).
  unfold emit. by rewrite Hio.
Qed.

Lemma rejected_SocketEmit (ms : list OutMessage) : rejected (SocketEmit <$> ms) = [].
Proof. by induction ms. Qed.

(** The last stretch, with the socket in place: every callback that reached
    it sends its [transfer-offer], and that is all that happens. *)
Lemma each_settled_sendOffers_emit (described : list (jsid * PcRef)) (sock : Socket)
    (st : State) :
  ioConnection st = Some sock ->
  exists ds rs,
    each_settled described sendOffers_emit st
    = (Returned rs,
       with_trace
         (trace st ++
          (SocketEmit <$> zip_with (fun d value => TransferOffer d (socket_id sock) value)
                            ds described.*1)) st)
    /\ length ds = length described.
Proof.
  revert st. induction described as [|[value pc] described IH]; intros st Hio.
  - exists [], []. split; [|done]. cbn. unfold ret. destruct st; cbn.
    by rewrite app_nil_r.
  - set (d := pcs st !! pc ≫= pc_localDescription).
    set (st1 := with_trace
                  (trace st ++ [SocketEmit (TransferOffer d (socket_id sock) value)]) st).
    pose proof (sendOffers_emit_eq value pc sock st Hio) as Hemit. fold d st1 in Hemit.
    destruct (IH st1) as (ds & rs & Hrest & Hlen); [done|].
    exists (d :: ds), (tt :: rs). split; [|simpl; by rewrite Hlen].
    cbn [each_settled].
    rewrite (bind_returned _ _ (Some tt) st st1) by (unfold settled; by rewrite Hemit).
    rewrite (bind_returned _ _ rs _ _ Hrest). unfold ret. f_equal.
    subst st1. destruct st; cbn. by rewrite <- app_assoc.
Qed.

(** A stretch of one callback that reports no rejection: the callback
    returned. *)
Lemma each_settled_one_clean {A B : Type} (x : A) (f : A -> M B) (st st' : State)
    (rs : list B) (t : list Effect) :
  sends (fun _ => True) (f x) ->
  each_settled [x] f st = (Returned rs, st') ->
  trace st' = trace st ++ t ->
  rejected t = [] ->
  exists b, rs = [b] /\ f x st = (Returned b, st').
Proof.
  intros Hf Hrun Ht Hclean. cbn [each_settled] in Hrun.
  destruct (settled_returns (f x) st) as (r & st1 & Hfx).
  rewrite (bind_returned _ _ r st st1 Hfx) in Hrun. unfold bind, ret in Hrun.
  injection Hrun as <- <-.
  destruct (settled_clean (f x) st st1 r t Hf Hfx Ht Hclean) as (b & -> & Hb).
  by exists b.
Qed.

(** The stretch of trace between two states, when one follows the other. *)
Lemma since_app (st st' : State) (t : list Effect) :
  trace st' = trace st ++ t -> since st st' = t.
Proof. intros Ht. unfold since. by rewrite Ht, drop_app_length. Qed.

(** What [sendOffers] does, the socket in place: its callbacks run stretch
    after stretch; those of [described] reach the last one, and each of them
    sends its offer; the others were rejected, each once. *)
Lemma sendOffers_run (userIds : list jsid) (sock : Socket) (st : State) :
  ioConnection st = Some sock ->
  exists begun (described : list (jsid * PcRef)) ds rs st1 st2 st',
    each_settled userIds sendOffers_begin st = (Returned begun, st1)
    /\ each_settled begun sendOffers_describe st1 = (Returned described, st2)
    /\ each_settled described sendOffers_emit st2 = (Returned rs, st')
    /\ sendOffers userIds st = (Returned tt, st')
    /\ sublist described.*1 ((fun b => b.1.1) <$> begun)
    /\ sublist ((fun b => b.1.1) <$> begun) userIds
    /\ (forall t, trace st' = trace st ++ t ->
        length described + length (rejected t) = length userIds)
    /\ (forall t, trace st' = trace st ++ t -> rejected t = [] ->
        described.*1 = userIds)
    /\ length ds = length described
    /\ follows [] st st1
    /\ follows [] st1 st2
    /\ follows (zip_with (fun d value => TransferOffer d (socket_id sock) value)
                  ds described.*1) st2 st'.
Proof.
  intros Hio.
  destruct (each_settled_returns userIds sendOffers_begin st) as (begun & st1 & Hbegun).
  destruct (each_settled_returns begun sendOffers_describe st1)
    as (described & st2 & Hdescribed).
  assert (follows [] st st1) as Hf1.
  { destruct (sends_each_settled (fun ms => ms = []) eq_refl app_nil_nil
                userIds sendOffers_begin
                (sends_sendOffers_begin (fun ms => ms = []) eq_refl app_nil_nil) st)
      as (ms & Hf & ->).
    unfold exec in Hf. by rewrite Hbegun in Hf. }
  assert (follows [] st1 st2) as Hf2.
  { destruct (sends_each_settled (fun ms => ms = []) eq_refl app_nil_nil
                begun sendOffers_describe
                (sends_sendOffers_describe (fun ms => ms = []) eq_refl app_nil_nil) st1)
      as (ms & Hf & ->).
    unfold exec in Hf. by rewrite Hdescribed in Hf. }
  assert (ioConnection st2 = Some sock) as Hio2.
  { destruct Hf2 as [-> _]. destruct Hf1 as [-> _]. done. }
  destruct (each_settled_sendOffers_emit described sock st2 Hio2)
    as (ds & rs & Hemit & Hlen).
  set (offers := zip_with (fun d value => TransferOffer d (socket_id sock) value)
                   ds described.*1) in *.
  set (st' := with_trace (trace st2 ++ (SocketEmit <$> offers)) st2) in *.
  assert (trace st' = trace st2 ++ (SocketEmit <$> offers)) as Ht3 by (by destruct st2).
  assert (follows offers st2 st') as Hf3.
  { rewrite <- (emitted_SocketEmit offers). apply follows_trace. }
  destruct (each_settled_count userIds sendOffers_begin st st1 begun
              unrejected_sendOffers_begin Hbegun) as (t1 & Ht1 & Hcount1).
  destruct (each_settled_count begun sendOffers_describe st1 st2 described
              unrejected_sendOffers_describe Hdescribed) as (t2 & Ht2 & Hcount2).
  assert (forall t, trace st' = trace st ++ t -> t = t1 ++ t2 ++ (SocketEmit <$> offers))
    as Hsplit.
  { intros t Ht. rewrite Ht3, Ht2, Ht1, <- !app_assoc in Ht.
    by apply app_inv_head in Ht. }
  exists begun, described, ds, rs, st1, st2, st'.
  split_and!; [done|done|done| | | | | |done|done|done|done].
  - unfold sendOffers, bind, gets. cbn [fst snd]. by rewrite Hio, Hbegun, Hdescribed, Hemit.
  - apply (each_settled_sublist (fun b => b.1.1) fst _ _ _ _ _
             sendOffers_describe_tag Hdescribed).
  - rewrite <- (list_fmap_id userIds).
    apply (each_settled_sublist id (fun b => b.1.1) _ _ _ _ _
             sendOffers_begin_tag Hbegun).
  - intros t ->%Hsplit. rewrite !rejected_app, rejected_SocketEmit, !length_app. cbn. lia.
  - intros t ->%Hsplit. rewrite !rejected_app, rejected_SocketEmit.
    intros [Hc1 [Hc2 _]%app_eq_nil]%app_eq_nil.
    transitivity ((fun b => b.1.1) <$> begun).
    + apply (each_settled_clean (fun b => b.1.1) fst begun sendOffers_describe
               st1 st2 described t2); [|apply sendOffers_describe_tag|done..].
      intros callback.
      apply (sends_sendOffers_describe (fun _ => True) I (fun _ _ _ _ => I)).
    + rewrite <- (list_fmap_id userIds).
      apply (each_settled_clean id (fun b => b.1.1) userIds sendOffers_begin
               st st1 begun t1); [|apply sendOffers_begin_tag|done..].
      intros value.
      apply (sends_sendOffers_begin (fun _ => True) I (fun _ _ _ _ => I)).
Qed.

(** *** What [sendOffers] leaves alone *)

Section Keeps.
Context {X : Type} (g : State -> X).
Hypothesis Htrace : forall st t, g (with_trace t st) = g st.
Hypothesis Hpcs : forall st h, g (with_pcs h st) = g st.
Hypothesis Hpcm : forall st m, g (with_peerConnectionMap m st) = g st.

Lemma keeps_ret {A : Type} (a : A) : keeps g (ret a).
Proof. by intros st. Qed.

Lemma keeps_bind {A B : Type} (m : M A) (k : A -> M B) :
  keeps g m -> (forall a, keeps g (k a)) -> keeps g (bind m k).
Proof.
  intros Hm Hk st. specialize (Hm st). unfold exec, bind in *.
  destruct (m st) as [[a|e] st1]; cbn [snd] in *; [|done].
  rewrite <- Hm. apply (Hk a st1).
Qed.

Lemma keeps_settled {A : Type} (m : M A) : keeps g m -> keeps g (settled m).
Proof.
  intros Hm st. specialize (Hm st). unfold exec, settled in *.
  destruct (m st) as [[a|e] st1]; cbn [snd] in *; [done|]. by rewrite Htrace.
Qed.

Lemma keeps_each_settled {A B : Type} (l : list A) (f : A -> M B) :
  (forall x, keeps g (f x)) -> keeps g (each_settled l f).
Proof.
  intros Hf. induction l as [|x l IH]; simpl; [apply keeps_ret|].
  apply keeps_bind; [apply keeps_settled, Hf|intros r].
  apply keeps_bind; [exact IH|intros rs; apply keeps_ret].
Qed.

Lemma keeps_pc_try (pc : PcRef) (e : Effect) (err : RTCPeerConnection -> option JsError)
    (f : RTCPeerConnection -> RTCPeerConnection) :
  keeps g (pc_try pc e err f).
Proof.
  intros st. unfold exec, pc_try.
  destruct (err (default fresh_pc (pcs st !! pc))); cbn [snd]; by rewrite ?Htrace, ?Hpcs.
Qed.

Lemma keeps_getOrCreatePeerConnection (remoteId : jsid) :
  keeps g (getOrCreatePeerConnection remoteId).
Proof.
  intros st. unfold exec.
  destruct (getOrCreatePeerConnection_cases remoteId st)
    as [(pc & _ & _ & ->)|[_ ->]]; [done|].
  unfold register. cbn [snd]. by rewrite Hpcm, Htrace, Hpcs.
Qed.

Lemma keeps_sendOffers (userIds : list jsid) : keeps g (sendOffers userIds).
Proof.
  unfold sendOffers. apply keeps_bind; [by intros st|].
  intros [sock|]; [|apply keeps_ret].
  apply keeps_bind; [|intros begun].
  { apply keeps_each_settled. intros value. unfold sendOffers_begin.
    apply keeps_bind; [apply keeps_getOrCreatePeerConnection|intros pc].
    apply keeps_bind; [|intros _].
    { unfold addLocalTracks. apply keeps_bind; [by intros st|].
      intros [stream|]; [|apply keeps_ret].
      induction (getTracks stream) as [|track l IH]; simpl; [apply keeps_ret|].
      apply keeps_bind; [apply keeps_pc_try|by intros _]. }
    apply keeps_bind; [|intros promise; apply keeps_ret].
    intros st. unfold exec, pc_createOffer_call. cbn [snd]. apply Htrace. }
  apply keeps_bind; [|intros described].
  { apply keeps_each_settled. intros [[value pc] promise]. unfold sendOffers_describe.
    apply keeps_bind; [destruct promise; by intros st|intros offer].
    apply keeps_bind; [apply keeps_pc_try|intros _; apply keeps_ret]. }
  apply keeps_bind; [|intros _; apply keeps_ret].
  apply keeps_each_settled. intros [value pc]. unfold sendOffers_emit.
  apply keeps_bind; [by intros st|intros d].
  apply keeps_bind; [|intros senderId].
  { intros st. unfold exec, ioConnection_id. by destruct (ioConnection st). }
  intros st. unfold exec, emit, effect, modify.
  destruct (ioConnection st); cbn [snd]; [apply Htrace|done].
Qed.

End Keeps.

Lemma elem_of_emitted (m : OutMessage) (t : list Effect) :
  m ∈ emitted t -> SocketEmit m ∈ t.
Proof.
  unfold emitted. intros (e & He & Hm)%list_elem_of_omap.
  destruct e; try discriminate. by injection Hm as ->.
Qed.

Lemma elem_of_zip_with_r {A B C : Type} (f : A -> B -> C) (la : list A) (lb : list B)
    (b : B) :
  length la = length lb -> b ∈ lb -> exists a, f a b ∈ zip_with f la lb.
Proof.
  revert la. induction lb as [|b' lb IH]; intros [|a la] Hlen Hin;
    try discriminate; [by apply elem_of_nil in Hin|].
  apply elem_of_cons in Hin as [->|Hin]; csimpl.
  - exists a. left.
  - destruct (IH la) as [a' Ha']; [by injection Hlen|done|]. exists a'. by right.
Qed.

(** What [getUserStreamData] does with a new stream, the socket in place:
    it stores the stream; [remove-connection] goes out for every identifier
    of the registry; then [sendOffers] runs for those identifiers, and the
    callbacks that reach their last stretch, those of [described], send their
    offers. *)
Lemma getUserStreamData_run (stream : MediaStream) (sock : Socket) (st : State) :
  ioConnection st = Some sock ->
  let userIds := JSMap.keys (peerConnectionMap st) in
  exists (described : list (jsid * PcRef)) ds st',
    getUserStreamData (Some stream) st = (Returned tt, st')
    /\ sublist described.*1 userIds
    /\ (forall t, trace st' = trace st ++ t ->
        length described + length (rejected t) = length userIds)
    /\ (forall t, trace st' = trace st ++ t -> rejected t = [] ->
        described.*1 = userIds)
    /\ length ds = length described
    /\ local_stream st' = (Some stream, Some stream)
    /\ follows ((RemoveConnection <$> userIds) ++
                zip_with (fun d value => TransferOffer d (socket_id sock) value)
                  ds described.*1) st st'.
Proof.
  intros Hio userIds.
  set (st1 := with_localVideo_srcObject (Some stream)
                (with_localUserStreamData (Some stream) st)).
  assert (follows [] st st1) as Hf1 by (by apply follows_frame).
  assert (ioConnection st1 = Some sock) as Hio1 by done.
  destruct (decide (userIds = [])) as [Hnil|Hne].
  - assert (getUserStreamData (Some stream) st = (Returned tt, st1)) as Hrun.
    { cbn [getUserStreamData]. unfold bind, modify, gets. cbn [fst snd].
      rewrite bool_decide_eq_false_2; [done|].
      subst userIds. unfold JSMap.keys, JSMap.size in *.
      change (peerConnectionMap (with_localVideo_srcObject _ _))
        with (peerConnectionMap st).
      destruct (peerConnectionMap st); [cbn; lia|done]. }
    exists [], [], st1. rewrite Hnil. split_and!; [done|done| |done..|exact Hf1].
    intros t Ht. assert (trace st1 = trace st ++ []) as Ht1 by (by rewrite app_nil_r).
    rewrite Ht1 in Ht. apply app_inv_head in Ht. by subst t.
  - set (sent := SocketEmit <$> (RemoveConnection <$> userIds)).
    set (st2 := with_trace (trace st1 ++ sent) st1).
    assert (follows (RemoveConnection <$> userIds) st1 st2) as Hf2.
    { split; [done|]. eexists. split; [reflexivity|]. apply emitted_SocketEmit. }
    assert (ioConnection st2 = Some sock) as Hio2 by done.
    destruct (sendOffers_run userIds sock st2 Hio2)
      as (begun & described & ds & rs & st3 & st4 & st' & _ & _ & _ & Hoffers
          & Hsub1 & Hsub2 & Hcount & Hall & Hlen & Hf3 & Hf4 & Hf5).
    assert (getUserStreamData (Some stream) st = (Returned tt, st')) as Hrun.
    { cbn [getUserStreamData].
      rewrite (bind_returned _ _ tt st (with_localUserStreamData (Some stream) st))
        by done.
      rewrite (bind_returned _ _ (Some stream) _
                 (with_localUserStreamData (Some stream) st)) by done.
      rewrite (bind_returned _ _ tt _ st1) by done.
      rewrite (bind_returned _ _ (JSMap.size (peerConnectionMap st)) _ st1) by done.
      rewrite bool_decide_eq_true_2 by (by apply size_keys_nonempty).
      rewrite (bind_returned _ _ userIds _ st1) by done.
      rewrite (bind_returned _ _ tt _ st2)
        by (by rewrite (removeAllCurrentConnection_eq sock st1 Hio1)).
      exact Hoffers. }
    assert (follows (zip_with (fun d value => TransferOffer d (socket_id sock) value)
                       ds described.*1) st2 st') as Hf35.
    { apply (follows_trans [] _ st2 st3 st'); [done|].
      by apply (follows_trans [] _ st3 st4 st'). }
    assert (trace st2 = trace st ++ sent) as Ht2 by done.
    exists described, ds, st'. split_and!; [done| | | |done| |].
    + by etransitivity.
    + intros t Ht. destruct Hf35 as [_ (t3 & Ht3 & _)].
      rewrite <- (Hcount t3 Ht3).
      rewrite Ht3, Ht2, <- app_assoc in Ht. apply app_inv_head in Ht. subst t.
      subst sent. by rewrite rejected_app, rejected_SocketEmit.
    + intros t Ht Hclean. destruct Hf35 as [_ (t3 & Ht3 & _)].
      apply (Hall t3 Ht3).
      rewrite Ht3, Ht2, <- app_assoc in Ht. apply app_inv_head in Ht. subst t.
      rewrite rejected_app in Hclean. by apply app_eq_nil in Hclean as [_ ?].
    + pose proof (keeps_sendOffers local_stream (fun _ _ => eq_refl) (fun _ _ => eq_refl)
                    (fun _ _ => eq_refl) userIds st2) as Hkeep.
      unfold exec in Hkeep. rewrite Hoffers in Hkeep. cbn [snd] in Hkeep.
      by rewrite Hkeep.
    + apply (follows_trans [] _ st st1 st'); [done|].
      by apply (follows_trans _ _ st1 st2 st').
Qed.

(** What [getUserStreamData] does for sessions that exist, the socket in
    place: [remove-connection] goes out for every one of them; and when no
    callback of [sendOffers] is rejected, every one of them is sent a new
    offer. *)
Lemma getUserStreamData_renegotiates (stream : MediaStream) (sock : Socket) (st : State) :
  ioConnection st = Some sock ->
  let st' := exec (getUserStreamData (Some stream)) st in
  Forall (fun k => SocketEmit (RemoveConnection k) ∈ trace st')
    (JSMap.keys (peerConnectionMap st))
  /\ (forall t, trace st' = trace st ++ t -> rejected t = [] ->
      Forall (fun k => exists d,
                SocketEmit (TransferOffer d (socket_id sock) k) ∈ trace st')
        (JSMap.keys (peerConnectionMap st))).
Proof.
  intros Hio st'.
  destruct (getUserStreamData_run stream sock st Hio)
    as (described & ds & st1 & Hrun & _ & _ & Hall & Hlen & _ & [_ (t & Ht & Hms)]).
  subst st'. unfold exec. rewrite Hrun. cbn [snd].
  split.
  - rewrite Ht. apply Forall_forall. intros k Hk. apply elem_of_app. right.
    apply elem_of_emitted. rewrite Hms. apply elem_of_app. left.
    by apply list_elem_of_fmap_2.
  - intros t' Ht' Hclean. specialize (Hall t' Ht' Hclean). rewrite Ht.
    apply Forall_forall. intros k Hk.
    destruct (elem_of_zip_with_r
                (fun d value => TransferOffer d (socket_id sock) value)
                ds described.*1 k) as [d Hd].
    + by rewrite Hlen, length_fmap.
    + by rewrite Hall.
    + exists d. apply elem_of_app. right. apply elem_of_emitted. rewrite Hms.
      apply elem_of_app. by right.
Qed.

Lemma stable_registered (k : jsid) :
  stable (fun st => k ∈ JSMap.keys (peerConnectionMap st)).
Proof. split_and!; intros; done. Qed.

Lemma registered_getOrCreatePeerConnection (k remoteId : jsid) :
  preserves (fun st => k ∈ JSMap.keys (peerConnectionMap st))
    (getOrCreatePeerConnection remoteId).
Proof.
  intros st Hk. unfold exec.
  destruct (getOrCreatePeerConnection_cases remoteId st)
    as [(pc & _ & _ & ->)|[_ ->]]; [done|].
  cbn. apply elem_of_keys_set. by right.
Qed.

Lemma getOrCreatePeerConnection_registers (remoteId : jsid) (st : State) :
  remoteId ∈ JSMap.keys (peerConnectionMap (exec (getOrCreatePeerConnection remoteId) st)).
Proof.
  unfold exec.
  destruct (getOrCreatePeerConnection_cases remoteId st)
    as [(pc & _ & Hg & ->)|[_ ->]]; cbn.
  - apply elem_of_keys_get. by exists pc.
  - apply elem_of_keys_set. by left.
Qed.

Lemma each_settled_begin_registers (userIds : list jsid) (k : jsid) (st : State) :
  k ∈ userIds ->
  k ∈ JSMap.keys (peerConnectionMap (exec (each_settled userIds sendOffers_begin) st)).
Proof.
  set (P := fun st => k ∈ JSMap.keys (peerConnectionMap st)).
  assert (stable P) as HP by apply stable_registered.
  assert (forall value, preserves P (sendOffers_begin value)) as Hbegin.
  { intros value. apply preserves_sendOffers_begin; [done|].
    apply registered_getOrCreatePeerConnection. }
  revert st. induction userIds as [|value userIds IH]; intros st Hk;
    [by apply elem_of_nil in Hk|].
  cbn [each_settled].
  destruct (settled_returns (sendOffers_begin value) st) as (r & st1 & Hhead).
  rewrite (exec_bind _ _ r st st1 Hhead).
  destruct (each_settled_returns userIds sendOffers_begin st1) as (rs & st2 & Hrest).
  rewrite (exec_bind _ _ rs st1 st2 Hrest). unfold exec, ret. cbn [snd].
  assert (st2 = exec (each_settled userIds sendOffers_begin) st1) as ->
    by (unfold exec; by rewrite Hrest).
  apply elem_of_cons in Hk as [->|Hk]; [|by apply IH].
  apply (preserves_each_settled P HP userIds sendOffers_begin Hbegin st1).
  assert (P (exec (sendOffers_begin value) st)) as Hreg.
  { unfold sendOffers_begin.
    destruct (getOrCreatePeerConnection_returns value st) as (pc & st0 & Hpc).
    rewrite (exec_bind _ _ pc st st0 Hpc).
    assert (P st0) as Hst.
    { assert (st0 = exec (getOrCreatePeerConnection value) st) as ->
        by (unfold exec; by rewrite Hpc).
      apply getOrCreatePeerConnection_registers. }
    revert Hst. generalize st0.
    apply preserves_bind; [by apply preserves_addLocalTracks|intros _].
    apply preserves_bind; [by apply preserves_pc_createOffer_call|intros promise].
    apply preserves_ret. }
  revert Hhead Hreg. unfold exec, settled.
  destruct (sendOffers_begin value st) as [[a|e] st0]; cbn [snd]; intros [= _ <-] Hreg;
    [done|]. by apply HP.
Qed.

(** Every identifier handed to [sendOffers] has a session afterwards,
    whatever becomes of its callback. *)
Lemma sendOffers_registers (userIds : list jsid) (sock : Socket) (k : jsid) (st : State) :
  ioConnection st = Some sock ->
  k ∈ userIds ->
  k ∈ JSMap.keys (peerConnectionMap (exec (sendOffers userIds) st)).
Proof.
  intros Hio Hk. unfold sendOffers.
  rewrite (exec_bind _ _ (Some sock) st st) by (unfold gets; by rewrite Hio).
  set (P := fun st => k ∈ JSMap.keys (peerConnectionMap st)).
  assert (stable P) as HP by apply stable_registered.
  destruct (each_settled_returns userIds sendOffers_begin st) as (begun & st1 & Hbegun).
  rewrite (exec_bind _ _ begun st st1 Hbegun).
  assert (P st1) as Hst1.
  { assert (st1 = exec (each_settled userIds sendOffers_begin) st) as ->
      by (unfold exec; by rewrite Hbegun).
    by apply each_settled_begin_registers. }
  assert (preserves P (described <- each_settled begun sendOffers_describe ;;
                       each_settled described sendOffers_emit ;; ret tt)) as Hrest.
  { apply preserves_bind; [|intros described].
    { apply preserves_each_settled; [done|]. intros callback.
      by apply preserves_sendOffers_describe. }
    apply preserves_bind; [|intros _; apply preserves_ret].
    apply preserves_each_settled; [done|]. intros callback.
    by apply preserves_sendOffers_emit. }
  exact (Hrest st1 Hst1).
Qed.

End Renegotiate.

(** * [getOrCreatePeerConnection] is idempotent *)

Section Idempotence.
Context `{Platform}.

(** C6. [getOrCreatePeerConnection] is idempotent for every non-null
    identifier [JStr s]: the first call returns a session [pc]; a second call
    returns the same [pc] and leaves the state, trace included, as the first
    left it, so nothing is wired twice; the registry holds [pc] under the
    identifier, in exactly one entry; and over both calls each callback
    property was assigned a closure over the identifier once if the session
    had to be created, and not at all if it was already there. *)
Theorem getOrCreatePeerConnection_idempotent (st : State) (s : string) :
  JSMap.wf (peerConnectionMap st) ->
  exists pc st1,
    getOrCreatePeerConnection (JStr s) st = (Returned pc, st1)
    /\ getOrCreatePeerConnection (JStr s) st1 = (Returned pc, st1)
    /\ JSMap.get (JStr s) (peerConnectionMap st1) = Some pc
    /\ JSMap.count (JStr s) (peerConnectionMap st1) = 1
    /\ Forall (fun slot =>
         assignments slot (JStr s) (trace st1)
         = assignments slot (JStr s) (trace st)
           + (if JSMap.has (JStr s) (peerConnectionMap st) then 0 else 1))
       [Onicecandidate; Ontrack; Onconnectionstatechange;
        Onnegotiationneeded; Oniceconnectionstatechange].
Proof.
  intros Hwf.
  destruct (getOrCreatePeerConnection_cases (JStr s) st)
    as [(pc & _ & Hg & Hrun)|[Hg Hrun]]; simpl in Hg.
  - exists pc, st. split_and!; [done..| |].
    + apply count_wf; [done|]. apply elem_of_keys_get. eauto.
    + unfold JSMap.has. rewrite bool_decide_eq_true_2 by eauto.
      repeat constructor; lia.
  - exists (length (pcs st)), (register (JStr s) st).
    assert (JSMap.get (JStr s) (peerConnectionMap (register (JStr s) st))
            = Some (length (pcs st))) as Hg1 by apply get_set_eq.
    split_and!; [done| |done| |].
    + by apply getOrCreatePeerConnection_found.
    + apply count_wf; [by apply wf_set|]. apply elem_of_keys_get. eauto.
    + unfold JSMap.has. rewrite bool_decide_eq_false_2 by (rewrite Hg; by intros [? ?]).
      simpl trace. repeat constructor; by rewrite assignments_app, assignments_wiring.
Qed.

End Idempotence.


(** * Keyset consistency *)

Section Consistency.
Context `{Platform}.

(** C7. Whatever the device answers during [ngOnInit] and whatever events
    follow, after every one of them each identifier with an entry in the
    Remote Stream Registry has an entry in the Peer Session Registry; and
    this is so after [ngOnDestroy] as well. *)
Theorem remote_streams_have_sessions (env : Environment) (evs : list Event) :
  let st := run evs (exec (ngOnInit env) newHomePage) in
  keyset_consistent st /\ keyset_consistent (exec ngOnDestroy st).
Proof.
  intros st. split; [|apply keyset_consistent_ngOnDestroy].
  assert (registries_linked st) as [Hkeys _]; [|exact Hkeys].
  apply (run_preserves registries_linked stable_registries_linked
           registries_linked_getOrCreatePeerConnection
           registries_linked_on_user_disconnect
           registries_linked_ontrack).
  apply (preserves_ngOnInit registries_linked stable_registries_linked
           registries_linked_getOrCreatePeerConnection).
  apply registries_linked_newHomePage.
Qed.

End Consistency.

(** * A peer leaves *)

Section PeerLeft.
Context `{Platform}.

(** C8. An inbound [on-user-disconnect] for the identifier [JStr s] raises
    nothing; afterwards neither registry has an entry for the identifier; the
    peer connection the Peer Session Registry held for it has been closed, and
    every track of the stream the Remote Stream Registry held for it has been
    stopped.  When neither registry had an entry, the state is what it was,
    but for the line the listener prints. *)
Theorem on_user_disconnect_removes (st : State) (s : string) :
  let line := [LogText "on-user-disconnect"; LogUserId (JStr s)] in
  let st' := exec (on_user_disconnect (JStr s)) st in
  outcome (on_user_disconnect (JStr s)) st = Returned tt
  /\ JSMap.get (JStr s) (peerConnectionMap st') = None
  /\ JSMap.get (JStr s) (targetUserStreamDataMap st') = None
  /\ match JSMap.get (JStr s) (peerConnectionMap st) with
     | Some pc =>
         PcClose pc ∈ trace st'
         /\ pcs st' = alter set_pc_closed pc (pcs st)
     | None => pcs st' = pcs st
     end
  /\ match JSMap.get (JStr s) (targetUserStreamDataMap st) with
     | Some stream =>
         Forall (fun track => TrackStop track ∈ trace st'
                              /\ track_id track ∈ stopped st') stream
     | None => stopped st' = stopped st
     end
  /\ match JSMap.get (JStr s) (peerConnectionMap st),
           JSMap.get (JStr s) (targetUserStreamDataMap st) with
     | None, None => st' = logged line st
     | _, _ => True
     end.
Proof.
  intros line st'. subst st' line. unfold exec, outcome.
  rewrite on_user_disconnect_eq. cbn [fst snd]. unfold peer_removed.
  cbn [peerConnectionMap targetUserStreamDataMap pcs stopped trace].
  split_and!; [done|apply get_delete_eq|apply get_delete_eq|..].
  - destruct (JSMap.get (JStr s) (peerConnectionMap st)) as [pc|]; [|done].
    split; [|done]. set_solver.
  - destruct (JSMap.get (JStr s) (targetUserStreamDataMap st)) as [stream|]; cbn.
    + apply Forall_forall. intros track Hin. split.
      * rewrite elem_of_app, elem_of_cons, elem_of_app. right. right. right.
        by apply list_elem_of_fmap_2.
      * rewrite elem_of_app. right. by apply list_elem_of_fmap_2.
    + by rewrite app_nil_r.
  - destruct (JSMap.get (JStr s) (peerConnectionMap st)) eqn:Hp; [done|].
    destruct (JSMap.get (JStr s) (targetUserStreamDataMap st)) eqn:Hs; [done|].
    destruct st as [io pcm lus src streams heap stp tr]. cbn in *.
    unfold logged. cbn. by rewrite !delete_absent, app_nil_r.
Qed.

End PeerLeft.

(** * Messages without a sender identifier *)

Section MissingSender.
Context `{Platform}.

Lemma stable_session_registered (remoteId : jsid) (line : list LogArg) (st : State) :
  stable (session_registered remoteId line st).
Proof.
  unfold session_registered. split_and!.
  - intros st' t ([t0 Ht] & ? & ? & ?). split_and!; [|done..].
    exists (t0 ++ t). cbn. rewrite Ht. by rewrite <- !app_assoc.
  - intros st' f pc _ (? & ? & ? & ?). split_and!; [done..| |done].
    cbn. by rewrite length_alter.
  - intros st' ids (? & ? & ? & ?). by split_and!.
  - intros st' x (? & ? & ? & ?). by split_and!.
  - intros st' x (? & ? & ? & ?). by split_and!.
  - intros st' x (? & ? & ? & ?). by split_and!.
Qed.

Lemma session_registered_register (remoteId : jsid) (line : list LogArg) (st : State) :
  session_registered remoteId line st (register remoteId (logged line st)).
Proof.
  unfold session_registered, register, logged. cbn. split_and!; [|done| |done].
  - exists []. by rewrite ?app_nil_r, <- app_assoc.
  - rewrite length_app. cbn. lia.
Qed.

(** No listener looks at the sender before it asks for a session, and
    [getOrCreatePeerConnection] guards only its lookup.  An inbound offer,
    answer or candidate whose sender identifier is missing ([null] or
    [undefined]) is logged and then handled like any other: a fresh peer
    connection is created, wired, and stored in the Peer Session Registry
    under the missing identifier (taking the place of an entry already under
    that key, if any); the Remote Stream Registry is not touched. *)
Lemma missing_sender_registers_session (st : State) (remoteId receiver : jsid)
    (sdp : RTCSessionDescription) (c : RTCIceCandidate) :
  nullish remoteId = true ->
  let offer := mkOffer sdp remoteId receiver in
  let answer := mkAnswer sdp remoteId receiver in
  let candidate := mkCandidate c remoteId receiver in
  session_registered remoteId [LogText "on-received-offer"; LogOffer offer]
    st (exec (on_received_offer offer) st)
  /\ session_registered remoteId [LogText "on-received-answer"; LogAnswer answer]
       st (exec (on_received_answer answer) st)
  /\ session_registered remoteId [LogText "on-received-candidate"; LogCandidate candidate]
       st (exec (on_received_candidate candidate) st).
Proof.
  intros Hnull offer answer candidate.
  assert (forall line,
    getOrCreatePeerConnection remoteId (logged line st)
    = (Returned (length (pcs st)), register remoteId (logged line st))) as Hnew.
  { intros line. apply (getOrCreatePeerConnection_new remoteId (logged line st)).
    by rewrite Hnull. }
  split_and!.
  - destruct (exec_async (on_received_offer_body offer) st) as [t Ht].
    unfold on_received_offer. rewrite Ht.
    apply stable_session_registered.
    unfold on_received_offer_body.
    rewrite (exec_bind _ _ tt st (logged [LogText "on-received-offer"; LogOffer offer] st))
      by done.
    rewrite (exec_bind _ _ _ _ _ (Hnew _)).
    apply preserves_answer; [apply stable_session_registered|].
    apply session_registered_register.
  - destruct (exec_async (on_received_answer_body answer) st) as [t Ht].
    unfold on_received_answer. rewrite Ht.
    apply stable_session_registered.
    unfold on_received_answer_body.
    rewrite (exec_bind _ _ tt st (logged [LogText "on-received-answer"; LogAnswer answer] st))
      by done.
    rewrite (exec_bind _ _ _ _ _ (Hnew _)).
    apply preserves_pc_setRemoteDescription; [apply stable_session_registered|].
    apply session_registered_register.
  - destruct (exec_async (on_received_candidate_body candidate) st) as [t Ht].
    unfold on_received_candidate. rewrite Ht.
    apply stable_session_registered.
    unfold on_received_candidate_body.
    rewrite (exec_bind _ _ tt st
               (logged [LogText "on-received-candidate"; LogCandidate candidate] st))
      by done.
    rewrite (exec_bind _ _ _ _ _ (Hnew _)).
    apply preserves_pc_addIceCandidate; [apply stable_session_registered|].
    apply session_registered_register.
Qed.

End MissingSender.

(** * Leaving the page *)

Section Leave.
Context `{Platform}.

(** C10. [ngOnDestroy], with the socket in place: it returns; every peer
    connection of the Peer Session Registry has had [close()] called and is
    closed; every track of every stream of the Remote Stream Registry has had
    [stop()] called; both registries are empty; and the socket has been
    closed. *)
Theorem ngOnDestroy_tears_down (st : State) (sock : Socket) :
  ioConnection st = Some sock ->
  registry_valid st ->
  let st' := exec ngOnDestroy st in
  outcome ngOnDestroy st = Returned tt
  /\ Forall (fun pc => PcClose pc ∈ trace st'
                       /\ pc_closed <$> pcs st' !! pc = Some true)
       (JSMap.values (peerConnectionMap st))
  /\ Forall (fun stream =>
       Forall (fun track => TrackStop track ∈ trace st'
                            /\ track_id track ∈ stopped st') stream)
       (JSMap.values (targetUserStreamDataMap st))
  /\ peerConnectionMap st' = JSMap.empty
  /\ targetUserStreamDataMap st' = JSMap.empty
  /\ ioConnection st' = Some (mkSocket (socket_id sock) true)
  /\ SocketClose ∈ trace st'.
Proof.
  intros Hio Hvalid st'. subst st'. unfold exec, outcome.
  rewrite (ngOnDestroy_eq sock st Hio). cbn [fst snd].
  cbn [trace pcs stopped peerConnectionMap targetUserStreamDataMap ioConnection].
  split_and!; [done| | |done|done|done|].
  - apply Forall_forall. intros pc Hin. split.
    + rewrite !elem_of_app. right. left. by apply list_elem_of_fmap_2.
    + rewrite close_all_lookup, bool_decide_eq_true_2 by done.
      unfold registry_valid in Hvalid. rewrite Forall_forall in Hvalid.
      destruct (lookup_lt_is_Some_2 (pcs st) pc (Hvalid pc Hin)) as [p ->]. done.
  - apply Forall_forall. intros stream Hstream.
    apply Forall_forall. intros track Htrack.
    assert (track ∈ concat (JSMap.values (targetUserStreamDataMap st))) as Hin.
    { by eapply elem_of_concat_2. }
    split.
    + rewrite !elem_of_app. right. right. left. by apply list_elem_of_fmap_2.
    + rewrite elem_of_app. right. by apply list_elem_of_fmap_2.
  - rewrite !elem_of_app. right. right. right. apply list_elem_of_singleton. done.
Qed.

End Leave.

(** * The capability probes *)

Ltac thrown :=
  unfold bind, throw; cbn; do 2 eexists; split; [reflexivity|reflexivity].

Section Probes.
Context `{Platform}.

Lemma checkWebRTCAvailability_pass (rtc : DetectRTC) (v a : MediaStream) (st : State) :
  isWebRTCSupported rtc = true ->
  some_track (fun value => negb (track_enabled value)) (Some v) = true ->
  hasWebcam rtc = true ->
  some_track (fun value => track_enabled value) (Some a) = true ->
  hasMicrophone rtc = true ->
  checkWebRTCAvailability rtc (Some v) (Some a) st
  = (Returned tt,
     with_trace
       (trace st ++
        [ConsoleLog [LogFlag true]; ConsoleLog [LogFlag true]; ConsoleLog [LogFlag true]]
        ++ (TrackStop <$> v) ++ (TrackStop <$> a))
       (with_stopped (stopped st ++ (track_id <$> v) ++ (track_id <$> a)) st)).
Proof.
  intros Hs Hv Hw Ha Hm. unfold checkWebRTCAvailability.
  rewrite Hs, Hw, Hm, Hv, Ha. cbn [negb orb].
  unfold bind at 1 2 3 4, console_log, effect, modify, ret. cbn [fst snd].
  unfold stop_tracks, getTracks. unfold bind. rewrite !forEach_track_stop.
  destruct st; js_eval. by rewrite <- !app_assoc.
Qed.

Lemma checkWebRTCAvailability_fail (rtc : DetectRTC)
    (videoStream audioStream : option MediaStream) (st : State) :
  isWebRTCSupported rtc
  && some_track (fun value => negb (track_enabled value)) videoStream
  && hasWebcam rtc
  && some_track (fun value => track_enabled value) audioStream
  && hasMicrophone rtc = false ->
  exists e st',
    checkWebRTCAvailability rtc videoStream audioStream st = (Thrown e, st')
    /\ rtc_error e = true.
Proof.
  intros Hok. unfold checkWebRTCAvailability.
  unfold bind at 1 2 3, console_log, effect, modify. cbn [fst snd].
  destruct (isWebRTCSupported rtc); cbn [negb andb] in *; [|thrown].
  unfold bind at 1, ret. cbn [fst snd].
  destruct (some_track (fun value => negb (track_enabled value)) videoStream) eqn:Hv;
    cbn [negb orb andb] in *; [|thrown].
  destruct (hasWebcam rtc); cbn [negb andb] in *; [|thrown].
  destruct videoStream as [v|]; [|done].
  unfold stop_tracks at 1, getTracks. unfold bind at 1. rewrite forEach_track_stop.
  destruct (some_track (fun value => track_enabled value) audioStream) eqn:Ha;
    cbn [negb orb andb] in *; [|thrown].
  destruct (hasMicrophone rtc); [done|thrown].
Qed.

(** X1. The web probe returns exactly when WebRTC is supported, the video
    stream has a track that is not enabled, a webcam is detected, the audio
    stream has an enabled track and a microphone is detected; when it returns
    it has stopped every track of both probe streams, video first; otherwise
    it throws one of its three errors. *)
Theorem checkWebRTCAvailability_returns (rtc : DetectRTC)
    (videoStream audioStream : option MediaStream) (st : State) :
  let probe := checkWebRTCAvailability rtc videoStream audioStream in
  let ok :=
    isWebRTCSupported rtc
    && some_track (fun value => negb (track_enabled value)) videoStream
    && hasWebcam rtc
    && some_track (fun value => track_enabled value) audioStream
    && hasMicrophone rtc in
  if ok
  then outcome probe st = Returned tt
       /\ stopped (exec probe st)
          = stopped st ++ probe_ids videoStream ++ probe_ids audioStream
  else exists e, outcome probe st = Thrown e /\ rtc_error e = true.
Proof.
  intros probe ok.
  destruct ok eqn:Hok; subst probe ok; unfold outcome, exec.
  - apply andb_prop in Hok as [Hok Hm]. apply andb_prop in Hok as [Hok Ha].
    apply andb_prop in Hok as [Hok Hw]. apply andb_prop in Hok as [Hs Hv].
    destruct videoStream as [v|]; [|done]. destruct audioStream as [a|]; [|done].
    by rewrite (checkWebRTCAvailability_pass rtc v a st Hs Hv Hw Ha Hm).
  - destruct (checkWebRTCAvailability_fail rtc videoStream audioStream st Hok)
      as (e & st' & -> & He). eauto.
Qed.

Lemma checkMobileRTCAvailability_fail (rtc : DetectRTC) (ios : bool)
    (videoStream audioStream : option MediaStream)
    (isCameraAvailable isMicrophoneAuthorized : bool) (st : State) :
  isWebRTCSupported rtc && isCameraAvailable && isMicrophoneAuthorized
  && (negb ios || (bool_decide (is_Some videoStream)
                   && bool_decide (is_Some audioStream))) = false ->
  exists e st',
    checkMobileRTCAvailability rtc ios videoStream audioStream
      isCameraAvailable isMicrophoneAuthorized st = (Thrown e, st')
    /\ rtc_error e = true.
Proof.
  intros Hok. unfold checkMobileRTCAvailability.
  unfold bind at 1, console_log, effect, modify. cbn [fst snd].
  destruct (isWebRTCSupported rtc); cbn [negb andb] in *; [|thrown].
  unfold bind at 1, ret. cbn [fst snd].
  destruct ios; cbn [negb orb] in *.
  - destruct videoStream as [v|]; [|thrown].
    unfold bind at 1. unfold getTracks at 1. rewrite forEach_track_stop.
    destruct isCameraAvailable; cbn [negb andb] in *; [|thrown].
    unfold bind at 1, ret. cbn [fst snd].
    destruct audioStream as [a|]; [|thrown].
    unfold bind. unfold getTracks. rewrite forEach_track_stop.
    destruct isMicrophoneAuthorized; cbn in *; [|thrown].
    first [done | by rewrite !bool_decide_eq_true_2 in Hok by eauto].
  - unfold bind at 1, ret. cbn [fst snd].
    destruct isCameraAvailable; cbn [negb andb] in *; [|thrown].
    unfold bind, ret. cbn [fst snd].
    destruct isMicrophoneAuthorized; cbn in *; [done|thrown].
Qed.

(** X2. The mobile probe returns exactly when WebRTC is supported, the
    camera is available, the microphone is authorized and, on iOS, both
    [getUserMedia] probes delivered a stream; on iOS it then has stopped the
    tracks of both streams, elsewhere it stops nothing; otherwise it throws
    one of its three errors. *)
Theorem checkMobileRTCAvailability_returns (rtc : DetectRTC) (ios : bool)
    (videoStream audioStream : option MediaStream)
    (isCameraAvailable isMicrophoneAuthorized : bool) (st : State) :
  let probe :=
    checkMobileRTCAvailability rtc ios videoStream audioStream
      isCameraAvailable isMicrophoneAuthorized in
  let ok :=
    isWebRTCSupported rtc && isCameraAvailable && isMicrophoneAuthorized
    && (negb ios || (bool_decide (is_Some videoStream)
                     && bool_decide (is_Some audioStream))) in
  if ok
  then outcome probe st = Returned tt
       /\ stopped (exec probe st)
          = stopped st ++
            (if ios then probe_ids videoStream ++ probe_ids audioStream else [])
  else exists e, outcome probe st = Thrown e /\ rtc_error e = true.
Proof.
  intros probe ok.
  destruct ok eqn:Hok; subst probe ok; unfold outcome, exec.
  - apply andb_prop in Hok as [Hok Hios]. apply andb_prop in Hok as [Hok Hm].
    apply andb_prop in Hok as [Hs Hc]. subst.
    unfold checkMobileRTCAvailability. rewrite Hs. cbn [negb].
    destruct ios; cbn [negb orb] in Hios.
    + apply andb_prop in Hios as [Hv Ha].
      apply bool_decide_eq_true in Hv as [v ->]. apply bool_decide_eq_true in Ha as [a ->].
      unfold getTracks, bind, console_log, effect, modify, ret. cbn [fst snd].
      rewrite ?forEach_track_stop. cbn [fst snd].
      rewrite ?forEach_track_stop. cbn [fst snd].
      rewrite ?forEach_track_stop. cbn [fst snd].
      destruct st; js_eval. unfold probe_ids. cbn. by rewrite <- app_assoc.
    + destruct st; js_eval. by rewrite app_nil_r.
  - destruct (checkMobileRTCAvailability_fail rtc ios videoStream audioStream
                isCameraAvailable isMicrophoneAuthorized st Hok)
      as (e & st' & -> & He). eauto.
Qed.

End Probes.

(** * Initialisation *)

Section Init.
Context `{Platform}.











End Init.

(** * Sessions and the identifiers they serve *)

Section JSMapValues.
Context {K V : Type} `{EqDecision K}.
Implicit Types (k : K) (v : V) (m : JSMap.t K V).

Lemma elem_of_get k v m : JSMap.wf m -> (k, v) ∈ m -> JSMap.get k m = Some v.
Proof.
  unfold JSMap.wf, JSMap.keys. induction m as [|[k' v'] m IH]; csimpl.
  - intros _ Hin. by apply elem_of_nil in Hin.
  - intros [Hk' Hwf]%NoDup_cons [Heq|Hin]%elem_of_cons.
    + injection Heq as -> ->. by rewrite decide_True.
    + rewrite decide_False; [by apply IH|]. intros ->.
      apply Hk'. apply list_elem_of_fmap. by exists (k, v).
Qed.

Lemma NoDup_values m :
  JSMap.wf m ->
  (forall k1 k2 v, JSMap.get k1 m = Some v -> JSMap.get k2 m = Some v -> k1 = k2) ->
  NoDup (JSMap.values m).
Proof.
  intros Hwf Hinj. unfold JSMap.values.
  apply NoDup_fmap_2_strong; [|by apply (NoDup_fmap_1 fst)].
  intros [k1 v1] [k2 v2] H1 H2 Hv. cbn in Hv. subst v2.
  f_equal. eapply Hinj; by apply elem_of_get.
Qed.

End JSMapValues.

Section Wired.
Context `{Platform}.

Lemma stable_registry_wired : stable registry_wired.
Proof.
  unfold registry_wired.
  split_and!; try (intros st x Hst; exact Hst).
  intros st f pc Hf Hst k pc' Hk. cbn in *.
  destruct (Hst k pc' Hk) as (p & Hp & Hcb).
  destruct (decide (pc = pc')) as [->|Hne].
  - exists (f p). rewrite list_lookup_alter_eq, Hp. split; [done|].
    destruct (Hf p) as [-> _]. done.
  - exists p. by rewrite list_lookup_alter_ne.
Qed.

Lemma registry_wired_getOrCreatePeerConnection (remoteId : jsid) :
  preserves registry_wired (getOrCreatePeerConnection remoteId).
Proof.
  intros st Hst. unfold exec.
  destruct (getOrCreatePeerConnection_cases remoteId st)
    as [(pc0 & _ & _ & ->)|[Hnew ->]]; [done|]. cbn [snd].
  unfold registry_wired, register in *. cbn. intros k pc Hk.
  destruct (decide (k = remoteId)) as [->|Hne].
  - rewrite get_set_eq in Hk. injection Hk as <-.
    exists (wired_pc remoteId). split; [|done].
    by rewrite lookup_app_r, Nat.sub_diag by lia.
  - rewrite get_set_ne in Hk by done.
    destruct (Hst k pc Hk) as (p & Hp & Hcb). exists p. split; [|done].
    by apply lookup_app_l_Some.
Qed.

Lemma registry_wired_on_user_disconnect (userId : jsid) :
  preserves registry_wired (on_user_disconnect userId).
Proof.
  intros st Hst. unfold exec.
  destruct userId as [| |s];
    [rewrite on_user_disconnect_nullish by done; by apply stable_registry_wired..|].
  rewrite on_user_disconnect_eq. cbn [snd].
  unfold registry_wired, peer_removed in *. cbn. intros k pc Hk.
  destruct (decide (k = JStr s)) as [->|Hne].
  { by rewrite get_delete_eq in Hk. }
  rewrite get_delete_ne in Hk by done.
  destruct (Hst k pc Hk) as (p & Hp & Hcb).
  destruct (JSMap.get (JStr s) (peerConnectionMap st)) as [pc0|]; [|eauto].
  destruct (decide (pc0 = pc)) as [->|Hpc].
  - exists (set_pc_closed p). by rewrite list_lookup_alter_eq, Hp.
  - exists p. by rewrite list_lookup_alter_ne.
Qed.

Lemma ontrack_eq (remoteId : jsid) (track : MediaStreamTrack) (st : State) :
  ontrack remoteId track st =
    (Returned tt,
     with_targetUserStreamDataMap
       (JSMap.set remoteId
          (stream_addTrack track
             (default [] (JSMap.get remoteId (targetUserStreamDataMap st))))
          (targetUserStreamDataMap st))
       (logged [LogText "ontrack"; LogTrackEvent track] st)).
Proof. by destruct st. Qed.

Lemma registry_wired_ontrack (st : State) (pc : PcRef) (p : RTCPeerConnection)
    (remoteId : jsid) (track : MediaStreamTrack) :
  registry_wired st ->
  pcs st !! pc = Some p ->
  pc_closed p = false ->
  JSMap.get Ontrack (pc_callbacks p) = Some remoteId ->
  registry_wired (exec (ontrack remoteId track) st).
Proof.
  intros Hst _ _ _. unfold exec. rewrite ontrack_eq. exact Hst.
Qed.

Lemma registry_wired_newHomePage : registry_wired newHomePage.
Proof. intros k pc Hk. discriminate. Qed.

Lemma registry_wired_run (env : Environment) (evs : list Event) :
  registry_wired (run evs (exec (ngOnInit env) newHomePage)).
Proof.
  apply (run_preserves registry_wired stable_registry_wired
           registry_wired_getOrCreatePeerConnection
           registry_wired_on_user_disconnect
           registry_wired_ontrack).
  apply (preserves_ngOnInit registry_wired stable_registry_wired
           registry_wired_getOrCreatePeerConnection).
  apply registry_wired_newHomePage.
Qed.

(** The callback a registered session runs for the event [e]. *)
Lemma registry_wired_callback (st : State) (k : jsid) (pc : PcRef) (e : PcEvent) :
  registry_wired st ->
  JSMap.get k (peerConnectionMap st) = Some pc ->
  exists p, pcs st !! pc = Some p
            /\ JSMap.get (slot_of e) (pc_callbacks p) = Some k.
Proof.
  intros Hst Hk. destruct (Hst k pc Hk) as (p & Hp & Hcb).
  exists p. split; [done|]. rewrite Hcb. by destruct e.
Qed.

(** X4. In every run, no peer connection is registered twice: the
    connection objects held by the Peer Session Registry are pairwise
    distinct, so two identifiers never share a session. *)
Theorem sessions_are_distinct (env : Environment) (evs : list Event) :
  NoDup (JSMap.values (peerConnectionMap (run evs (exec (ngOnInit env) newHomePage)))).
Proof.
  destruct (run_wellformed env evs) as (Hwf & _ & _).
  pose proof (registry_wired_run env evs) as Hst.
  apply NoDup_values; [exact Hwf|]. intros k1 k2 pc Hk1 Hk2.
  destruct (Hst k1 pc Hk1) as (p1 & Hp1 & Hcb1).
  destruct (Hst k2 pc Hk2) as (p2 & Hp2 & Hcb2).
  rewrite Hp1 in Hp2. injection Hp2 as <-. rewrite Hcb1 in Hcb2.
  by injection Hcb2.
Qed.

(** X5. In every run, when the connection registered under an identifier is
    open and reports a local ICE candidate, the page prints the event and
    sends that candidate to the relay as [transfer-candidate], from the
    socket's own id to that identifier, and does nothing else; at the end of
    the candidates it only prints the event. *)
Theorem local_candidate_is_relayed (env : Environment) (evs : list Event)
    (sock : Socket) (k : jsid) (pc : PcRef) (p : RTCPeerConnection)
    (c : RTCIceCandidate) :
  let st := run evs (exec (ngOnInit env) newHomePage) in
  ioConnection st = Some sock ->
  JSMap.get k (peerConnectionMap st) = Some pc ->
  pcs st !! pc = Some p ->
  pc_closed p = false ->
  deliver (FromPeer pc (IceCandidateEvent (Some c))) st
  = with_trace
      (trace st ++
       [ConsoleLog [LogText "onicecandidate"; LogIceEvent (Some c)];
        SocketEmit (TransferCandidate c (socket_id sock) k)]) st
  /\ deliver (FromPeer pc (IceCandidateEvent None)) st
     = logged [LogText "onicecandidate"; LogIceEvent None] st.
Proof.
  intros st Hio Hk Hp Hopen.
  pose proof (registry_wired_run env evs) as Hst. fold st in Hst.
  destruct (registry_wired_callback st k pc (IceCandidateEvent None) Hst Hk)
    as (p' & Hp' & Hcb).
  rewrite Hp in Hp'. injection Hp' as <-. cbn in Hcb.
  unfold deliver. rewrite Hp, Hopen. cbn [slot_of]. rewrite Hcb.
  clearbody st. destruct st as [io pcm lus src streams heap stp tr].
  cbn in Hio. subst io. split; [|done].
  unfold pc_callback, onicecandidate. js_eval. by rewrite <- app_assoc.
Qed.

(** X6. In every run, a track arriving on the open connection registered
    under an identifier ends up in the remote stream stored under that very
    identifier, next to the tracks the stream already had; the streams of
    the other identifiers and the Peer Session Registry are left as they
    were. *)
Theorem remote_track_joins_stream (env : Environment) (evs : list Event)
    (k : jsid) (pc : PcRef) (p : RTCPeerConnection) (track : MediaStreamTrack) :
  let st := run evs (exec (ngOnInit env) newHomePage) in
  let st' := deliver (FromPeer pc (TrackEvent track)) st in
  JSMap.get k (peerConnectionMap st) = Some pc ->
  pcs st !! pc = Some p ->
  pc_closed p = false ->
  (exists stream,
     JSMap.get k (targetUserStreamDataMap st') = Some stream
     /\ track ∈ stream
     /\ default [] (JSMap.get k (targetUserStreamDataMap st)) ⊆ stream)
  /\ (forall k', k' <> k ->
        JSMap.get k' (targetUserStreamDataMap st')
        = JSMap.get k' (targetUserStreamDataMap st))
  /\ peerConnectionMap st' = peerConnectionMap st.
Proof.
  intros st st' Hk Hp Hopen.
  pose proof (registry_wired_run env evs) as Hst. fold st in Hst.
  destruct (registry_wired_callback st k pc (TrackEvent track) Hst Hk)
    as (p' & Hp' & Hcb).
  rewrite Hp in Hp'. injection Hp' as <-. cbn in Hcb.
  subst st'. unfold deliver. rewrite Hp, Hopen. cbn [slot_of]. rewrite Hcb.
  unfold pc_callback, exec. rewrite ontrack_eq. cbn.
  split_and!; [|intros k' Hne; by rewrite get_set_ne|done].
  eexists. split; [apply get_set_eq|]. unfold stream_addTrack.
  case_match; (split; [|intros x Hx]);
    rewrite ?elem_of_app, ?list_elem_of_singleton; auto.
Qed.

End Wired.
(** * What goes out to the relay *)

Section Outgoing.
Context `{Platform}.

(** X7. With the socket in place, [sendOffers] returns, whatever the browser
    makes of its calls, and every identifier of its list has a session
    afterwards.  What it sends is, up to the order in which the offers go
    out, one [transfer-offer] from the socket's own id for each entry of a
    sublist of its list, and nothing else; the trace reports one rejection
    for each entry left out, so that with no rejection the sublist is the
    whole list. *)
Theorem sendOffers_offers_those_not_rejected (userIds : list jsid) (sock : Socket)
    (st : State) :
  ioConnection st = Some sock ->
  let st' := exec (sendOffers userIds) st in
  outcome (sendOffers userIds) st = Returned tt
  /\ ioConnection st' = Some sock
  /\ Forall (fun value => value ∈ JSMap.keys (peerConnectionMap st')) userIds
  /\ exists ids ds t,
       trace st' = trace st ++ t
       /\ sublist ids userIds
       /\ length ds = length ids
       /\ emitted t ≡ₚ zip_with (fun d value => TransferOffer d (socket_id sock) value)
                         ds ids
       /\ length ids + length (rejected t) = length userIds
       /\ (rejected t = [] -> ids = userIds).
Proof.
  intros Hio st'.
  destruct (sendOffers_run userIds sock st Hio)
    as (begun & described & ds & rs & st1 & st2 & st3 & _ & _ & _ & Hrun
        & Hsub1 & Hsub2 & Hcount & Hall & Hlen & Hf1 & Hf2 & Hf3).
  pose proof (follows_trans _ _ _ _ _ Hf1 (follows_trans _ _ _ _ _ Hf2 Hf3))
    as [Hio3 (t & Ht & Hms)].
  split_and!.
  - unfold outcome. by rewrite Hrun.
  - subst st'. unfold exec. rewrite Hrun. cbn [snd]. by rewrite Hio3.
  - apply Forall_forall. intros k Hk. by apply (sendOffers_registers userIds sock).
  - subst st'. unfold exec. rewrite Hrun. cbn [snd].
    exists described.*1, ds, t. split_and!; [done| | | | |].
    + by etransitivity.
    + by rewrite Hlen, length_fmap.
    + by rewrite Hms.
    + rewrite length_fmap. by apply Hcount.
    + by apply Hall.
Qed.

(** X8. The listeners of [on-create], [on-received-answer],
    [on-received-candidate], [on-user-disconnect] and [disconnect] send
    nothing to the relay and keep the socket, whatever the message and the
    state. *)
Theorem silent_listeners_send_nothing (e : SocketEvent) (st : State) :
  silent e = true -> follows [] st (exec (socket_listener e) st).
Proof.
  intros He.
  destruct (sends_silent_listener (fun ms => ms = []) eq_refl
              (fun a b Ha Hb => eq_trans (f_equal2 app Ha Hb) eq_refl) e He st)
    as (ms & Hf & ->).
  exact Hf.
Qed.

(** X9. No event replaces or drops the socket: after any sequence of socket
    events, peer-connection callbacks and local stream changes,
    [ioConnection] is what it was. *)
Theorem socket_is_kept (evs : list Event) (st : State) :
  ioConnection (run evs st) = ioConnection st.
Proof.
  destruct (run_follows (fun _ => True) I (fun _ _ _ _ => I) (fun _ => I) evs st)
    as (ms & [Hio _] & _).
  exact Hio.
Qed.

(** X10. With the socket in place, a new local stream is stored as the local
    stream and shown in the local video element; then [remove-connection]
    goes out for every identifier of the Peer Session Registry, in the
    registry's order, and after all of them, in some order, one
    [transfer-offer] for each identifier of a sublist of these, and nothing
    else; the trace reports one rejection for each identifier left out, so
    that with no rejection every identifier of the registry is sent a new
    offer. *)
Theorem getUserStreamData_notifies_then_offers (stream : MediaStream) (sock : Socket)
    (st : State) :
  ioConnection st = Some sock ->
  let st' := exec (getUserStreamData (Some stream)) st in
  let userIds := JSMap.keys (peerConnectionMap st) in
  outcome (getUserStreamData (Some stream)) st = Returned tt
  /\ localUserStreamData st' = Some stream
  /\ localVideo_srcObject st' = Some stream
  /\ exists ids ds ms t,
       trace st' = trace st ++ t
       /\ emitted t = (RemoveConnection <$> userIds) ++ ms
       /\ sublist ids userIds
       /\ length ds = length ids
       /\ ms ≡ₚ zip_with (fun d value => TransferOffer d (socket_id sock) value) ds ids
       /\ length ids + length (rejected t) = length userIds
       /\ (rejected t = [] -> ids = userIds).
Proof.
  intros Hio st' userIds.
  destruct (getUserStreamData_run stream sock st Hio)
    as (described & ds & st1 & Hrun & Hsub & Hcount & Hall & Hlen & Hlocal
        & [_ (t & Ht & Hms)]).
  subst st'. unfold outcome, exec. rewrite Hrun. cbn [fst snd].
  injection Hlocal as Hlus Hsrc.
  split_and!; [done..|].
  eexists described.*1, ds, _, t. split_and!; [done|exact Hms|done| |reflexivity| |].
  - by rewrite Hlen, length_fmap.
  - rewrite length_fmap. by apply Hcount.
  - by apply Hall.
Qed.

End Outgoing.

(** * Sessions over time *)

Section Lifetime.
Context `{Platform}.

Section Others.
Context (P : State -> Prop).
Hypothesis HP : stable P.
Hypothesis Hget : forall remoteId, preserves P (getOrCreatePeerConnection remoteId).

(** The listeners other than [on-user-disconnect] remove nothing. *)
Lemma preserves_other_listener (e : SocketEvent) :
  (forall userId, e <> OnUserDisconnect userId) -> preserves P (socket_listener e).
Proof.
  intros He.
  destruct e as [roomId|userIds|offer|answer|candidate|userId|]; simpl.
  - by apply preserves_console_log.
  - unfold on_join. apply preserves_bind; [by apply preserves_console_log|intros _].
    destruct userIds as [ids|]; [by apply preserves_sendOffers|by apply preserves_emit].
  - apply preserves_async; [done|]. unfold on_received_offer_body.
    apply preserves_bind; [by apply preserves_console_log|intros _].
    apply preserves_bind; [apply Hget|intros pc]. by apply preserves_answer.
  - apply preserves_async; [done|]. unfold on_received_answer_body.
    apply preserves_bind; [by apply preserves_console_log|intros _].
    apply preserves_bind; [apply Hget|intros pc].
    by apply preserves_pc_setRemoteDescription.
  - apply preserves_async; [done|]. unfold on_received_candidate_body.
    apply preserves_bind; [by apply preserves_console_log|intros _].
    apply preserves_bind; [apply Hget|intros pc].
    by apply preserves_pc_addIceCandidate.
  - by destruct (He userId).
  - unfold on_disconnect.
    apply preserves_bind; [by apply preserves_console_log|intros _].
    by apply preserves_removeAllPeerConnection.
Qed.

End Others.

Lemma registered_deliver (k : jsid) (ev : Event) (st : State) :
  ev <> FromSocket (OnUserDisconnect k) ->
  k ∈ JSMap.keys (peerConnectionMap st) ->
  k ∈ JSMap.keys (peerConnectionMap (deliver ev st)).
Proof.
  intros Hev Hk. destruct ev as [e|pc e|media]; simpl.
  - destruct (ioConnection st) as [sock|]; [|done].
    assert ((exists userId, e = OnUserDisconnect userId)
            \/ (forall userId, e <> OnUserDisconnect userId)) as [[userId ->]|Hne].
    { destruct e; try (by right); left; by eexists. }
    + simpl. unfold exec. destruct userId as [| |s].
      * by rewrite on_user_disconnect_nullish.
      * by rewrite on_user_disconnect_nullish.
      * rewrite on_user_disconnect_eq. cbn. apply elem_of_keys_delete.
        split; [|done]. intros ->. done.
    + apply (preserves_other_listener _ (stable_registered k)
               (registered_getOrCreatePeerConnection k)); done.
  - destruct (pcs st !! pc) as [p|]; [|done].
    destruct (pc_closed p && negb (after_close e)); [done|].
    destruct (JSMap.get (slot_of e) (pc_callbacks p)) as [remoteId|]; [|done].
    destruct (decide (slot_of e = Ontrack)) as [Hslot|Hslot].
    + destruct e; try discriminate. cbn [pc_callback]. unfold exec.
      by rewrite ontrack_eq.
    + by apply (preserves_pc_callback _ (stable_registered k)).
  - by apply (preserves_getUserStreamData _ (stable_registered k)
                (registered_getOrCreatePeerConnection k)).
Qed.

(** X11. A session leaves the Peer Session Registry only when the relay
    reports that its peer has left: over any sequence of events that holds
    no [on-user-disconnect] for an identifier, that identifier, once
    registered, stays registered. *)
Theorem session_stays_until_peer_leaves (k : jsid) (evs : list Event) (st : State) :
  FromSocket (OnUserDisconnect k) ∉ evs ->
  k ∈ JSMap.keys (peerConnectionMap st) ->
  k ∈ JSMap.keys (peerConnectionMap (run evs st)).
Proof.
  unfold run. revert st. induction evs as [|ev evs IH]; intros st Hevs Hk; simpl; [done|].
  apply not_elem_of_cons in Hevs as [Hev Hevs].
  apply IH; [done|]. by apply registered_deliver.
Qed.

(** X12. After [disconnect], every peer connection the Peer Session
    Registry holds has been closed, [close()] having been called on it, and
    is otherwise as it was, still registered under its identifier; the
    connections the registry does not hold are untouched, and nothing is
    sent to the relay. *)
Theorem disconnect_closes_sessions (st : State) (k : jsid) (pc : PcRef) :
  registry_valid st ->
  JSMap.get k (peerConnectionMap st) = Some pc ->
  let st' := exec on_disconnect st in
  JSMap.get k (peerConnectionMap st') = Some pc
  /\ (exists p, pcs st !! pc = Some p /\ pcs st' !! pc = Some (set_pc_closed p))
  /\ PcClose pc ∈ since st st'
  /\ emitted (since st st') = []
  /\ (forall pc', pc' ∉ JSMap.values (peerConnectionMap st) ->
      pcs st' !! pc' = pcs st !! pc').
Proof.
  intros Hvalid Hk st'.
  assert (pc ∈ reverse (JSMap.values (peerConnectionMap st))) as Hin
    by (by apply elem_of_reverse, (get_elem_of_values k)).
  assert (since st st'
          = ConsoleLog [LogText "disconnect"]
              :: (PcClose <$> reverse (JSMap.values (peerConnectionMap st)))) as Hsince.
  { apply since_app. subst st'. unfold exec. by rewrite on_disconnect_eq. }
  rewrite Hsince. subst st'. unfold exec. rewrite on_disconnect_eq. cbn [snd].
  split_and!.
  - done.
  - unfold registry_valid in Hvalid. rewrite Forall_forall in Hvalid.
    destruct (lookup_lt_is_Some_2 (pcs st) pc) as [p Hp];
      [by eapply Hvalid, get_elem_of_values|].
    exists p. split; [done|]. cbn. rewrite close_all_lookup.
    by rewrite bool_decide_eq_true_2, Hp by done.
  - right. by apply list_elem_of_fmap_2.
  - change (emitted (PcClose <$> reverse (JSMap.values (peerConnectionMap st))) = []).
    apply emitted_PcClose.
  - intros pc' Hpc'. cbn. rewrite close_all_lookup.
    rewrite bool_decide_eq_false_2 by (by rewrite elem_of_reverse).
    by rewrite option_fmap_id.
Qed.

Lemma run_cons (ev : Event) (evs : list Event) (st : State) :
  run (ev :: evs) st = run evs (deliver ev st).
Proof. done. Qed.

(** An answer from a peer whose session is registered: the browser takes
    it as the remote description of that session, or refuses it and the
    listener is rejected. *)
Lemma on_received_answer_found (answer : Answer) (s : string) (pc : PcRef)
    (p : RTCPeerConnection) (st : State) :
  answer_senderId answer = JStr s ->
  JSMap.get (JStr s) (peerConnectionMap st) = Some pc ->
  pcs st !! pc = Some p ->
  on_received_answer answer st =
    (Returned tt,
     match setRemoteDescription_error p (answer_sdp answer) with
     | None =>
         with_trace
           (trace st ++ [ConsoleLog [LogText "on-received-answer"; LogAnswer answer];
                         PcSetRemoteDescription pc (answer_sdp answer)])
           (with_pcs (alter (set_pc_remoteDescription (answer_sdp answer)) pc (pcs st))
              st)
     | Some e =>
         with_trace
           (trace st ++ [ConsoleLog [LogText "on-received-answer"; LogAnswer answer];
                         PcSetRemoteDescription pc (answer_sdp answer);
                         UnhandledRejection e])
           st
     end).
Proof.
  intros Hs Hk Hp. unfold on_received_answer, async, on_received_answer_body.
  rewrite (bind_returned _ _ tt st
             (logged [LogText "on-received-answer"; LogAnswer answer] st)) by done.
  rewrite Hs.
  rewrite (bind_returned _ _ pc _
             (logged [LogText "on-received-answer"; LogAnswer answer] st))
    by (by apply getOrCreatePeerConnection_found).
  unfold pc_setRemoteDescription, pc_try.
  change (pcs (logged _ st)) with (pcs st). rewrite Hp.
  change (default fresh_pc (Some p)) with p.
  destruct (setRemoteDescription_error p (answer_sdp answer));
    destruct st; js_eval; by rewrite <- ?app_assoc.
Qed.

(** A candidate from a peer whose session is registered: the browser adds
    it to that session, or refuses it and the listener is rejected. *)
Lemma on_received_candidate_found (candidate : Candidate) (s : string) (pc : PcRef)
    (p : RTCPeerConnection) (st : State) :
  candidate_senderId candidate = JStr s ->
  JSMap.get (JStr s) (peerConnectionMap st) = Some pc ->
  pcs st !! pc = Some p ->
  on_received_candidate candidate st =
    (Returned tt,
     match addIceCandidate_error p (candidate_candidate candidate) with
     | None =>
         with_trace
           (trace st ++
            [ConsoleLog [LogText "on-received-candidate"; LogCandidate candidate];
             PcAddIceCandidate pc (candidate_candidate candidate)])
           (with_pcs
              (alter (add_pc_iceCandidate (candidate_candidate candidate)) pc (pcs st))
              st)
     | Some e =>
         with_trace
           (trace st ++
            [ConsoleLog [LogText "on-received-candidate"; LogCandidate candidate];
             PcAddIceCandidate pc (candidate_candidate candidate);
             UnhandledRejection e])
           st
     end).
Proof.
  intros Hs Hk Hp. unfold on_received_candidate, async, on_received_candidate_body.
  rewrite (bind_returned _ _ tt st
             (logged [LogText "on-received-candidate"; LogCandidate candidate] st))
    by done.
  rewrite Hs.
  rewrite (bind_returned _ _ pc _
             (logged [LogText "on-received-candidate"; LogCandidate candidate] st))
    by (by apply getOrCreatePeerConnection_found).
  unfold pc_addIceCandidate, pc_try.
  change (pcs (logged _ st)) with (pcs st). rewrite Hp.
  change (default fresh_pc (Some p)) with p.
  destruct (addIceCandidate_error p (candidate_candidate candidate));
    destruct st; js_eval; by rewrite <- ?app_assoc.
Qed.

(** The first stretch of a callback of [sendOffers], when it reaches its
    [await]: the session it works on is the one registered under its
    identifier. *)
Lemma sendOffers_begin_session (value : jsid) (st st' : State)
    (b : jsid * PcRef * Outcome RTCSessionDescription) :
  registry_valid st ->
  sendOffers_begin value st = (Returned b, st') ->
  b.1.1 = value
  /\ JSMap.get value (peerConnectionMap st') = Some b.1.2
  /\ b.1.2 < length (pcs st').
Proof.
  intros Hvalid Hrun. split; [by eapply sendOffers_begin_tag|].
  revert Hrun. unfold sendOffers_begin.
  destruct (getOrCreatePeerConnection_returns value st) as (pc & st0 & Hget).
  rewrite (bind_returned _ _ pc st st0 Hget).
  destruct (getOrCreatePeerConnection_spec _ _ _ _ Hget) as (_ & _ & _ & Hg & _ & Hv).
  destruct (Hv Hvalid) as [Hlt _].
  set (P := fun st => JSMap.get value (peerConnectionMap st) = Some pc
                      /\ pc < length (pcs st)).
  assert (stable P) as HP.
  { split_and!; try (intros ? ? HPst; exact HPst).
    intros st1 f pc1 _ [? ?]. split; [done|]. cbn. by rewrite length_alter. }
  assert (preserves P (addLocalTracks pc ;;
                       promise <- pc_createOffer_call pc ;; ret (value, pc, promise)))
    as Hrest.
  { apply preserves_bind; [by apply preserves_addLocalTracks|intros _].
    apply preserves_bind; [by apply preserves_pc_createOffer_call|intros promise].
    apply preserves_ret. }
  specialize (Hrest st0 (conj Hg Hlt)). unfold exec in Hrest.
  intros Hrun. rewrite Hrun in Hrest. cbn [snd] in Hrest.
  assert (b.1.2 = pc) as ->; [|exact Hrest].
  revert Hrun. unfold bind.
  destruct (addLocalTracks pc st0) as [[[]|e] st1]; [|done].
  unfold pc_createOffer_call, ret. by intros [= <- _].
Qed.

(** The second stretch, when it returns: the offer awaited became the local
    description of the session. *)
Lemma sendOffers_describe_returned (value : jsid) (pc : PcRef)
    (promise : Outcome RTCSessionDescription) (st st' : State) (b : jsid * PcRef) :
  sendOffers_describe (value, pc, promise) st = (Returned b, st') ->
  exists offer,
    promise = Returned offer
    /\ b = (value, pc)
    /\ st' = with_trace (trace st ++ [PcSetLocalDescription pc offer])
               (with_pcs (alter (set_pc_localDescription offer) pc (pcs st)) st).
Proof.
  unfold sendOffers_describe, bind.
  destruct promise as [offer|e]; [|done]. cbn [await]. unfold ret at 1.
  unfold pc_setLocalDescription, pc_try.
  destruct (setLocalDescription_error _ offer); [done|].
  unfold ret. intros [= <- <-]. by exists offer.
Qed.

(** X13. Offer and answer meet in one session.  With the socket in place, an
    [on-join] naming one peer followed by that peer's [on-received-answer],
    when the trace of the two reports no rejection, leave under the peer's
    identifier a session whose local description is the offer that went out
    in the [transfer-offer] and whose remote description is the answer that
    came in; handling the answer sends nothing, rejected or not. *)
Theorem answer_completes_offer (st : State) (sock : Socket) (s : string)
    (receiverId : jsid) (sdp : RTCSessionDescription) :
  ioConnection st = Some sock ->
  registry_valid st ->
  let st1 := deliver (FromSocket (OnJoin (Some [JStr s]))) st in
  let st2 := deliver (FromSocket (OnReceivedAnswer (mkAnswer sdp (JStr s) receiverId)))
               st1 in
  follows [] st1 st2
  /\ (rejected (since st st2) = [] ->
      exists pc p offer,
        JSMap.get (JStr s) (peerConnectionMap st2) = Some pc
        /\ pcs st2 !! pc = Some p
        /\ pc_localDescription p = Some offer
        /\ pc_remoteDescription p = Some sdp
        /\ emitted (since st st1) = [TransferOffer (Some offer) (socket_id sock) (JStr s)]).
Proof.
  intros Hio Hvalid st1 st2.
  set (answer := mkAnswer sdp (JStr s) receiverId) in *.
  set (line := [LogText "on-join"; LogUserIds (Some [JStr s])]).
  set (st0 := logged line st).
  assert (ioConnection st0 = Some sock) as Hio0 by done.
  assert (registry_valid st0) as Hvalid0 by done.
  destruct (sendOffers_run [JStr s] sock st0 Hio0)
    as (begun & described & ds & rs & sta & stb & stc & Hbegun & Hdescribed & Hemit
        & Hrun & _ & _ & _ & _ & _ & Hfa & Hfb & Hfc).
  assert (st1 = stc) as Hst1.
  { subst st1. unfold deliver. rewrite Hio. cbn [socket_listener].
    unfold exec, on_join.
    rewrite (bind_returned _ _ tt st st0) by done. by rewrite Hrun. }
  clearbody st1. subst st1.
  assert (ioConnection stc = Some sock) as Hioc.
  { destruct Hfc as [-> _]. destruct Hfb as [-> _]. destruct Hfa as [-> _]. done. }
  assert (follows [] stc st2) as Hanswer.
  { subst st2. unfold deliver. rewrite Hioc.
    destruct (sends_silent_listener (fun ms => ms = []) eq_refl app_nil_nil
                (OnReceivedAnswer answer) eq_refl stc) as (ms & Hf & ->).
    exact Hf. }
  split; [exact Hanswer|]. intros Hclean.
  destruct Hfa as [Hioa (ta & Hta & Hea)]. destruct Hfb as [Hiob (tb & Htb & Heb)].
  destruct Hfc as [_ (tc & Htc & Hec)]. destruct Hanswer as [_ (td & Htd & _)].
  assert (trace st0 = trace st ++ [ConsoleLog line]) as Ht0 by done.
  assert (since st st2 = [ConsoleLog line] ++ ta ++ tb ++ tc ++ td) as Hsince.
  { apply since_app. rewrite Htd, Htc, Htb, Hta, Ht0. by rewrite <- !app_assoc. }
  rewrite Hsince, !rejected_app in Hclean.
  apply app_eq_nil in Hclean as [_ [Hca [Hcb [Hcc Hcd]%app_eq_nil]%app_eq_nil]%app_eq_nil].
  (* the first stretch *)
  destruct (each_settled_one_clean (JStr s) sendOffers_begin st0 sta begun ta)
    as ([[value pc] promise] & -> & Hbegin); [|done..|].
  { apply (sends_sendOffers_begin (fun _ => True) I (fun _ _ _ _ => I)). }
  destruct (sendOffers_begin_session _ _ _ _ Hvalid0 Hbegin) as (Hvalue & Hga & Hlta).
  cbn in Hvalue, Hga, Hlta. subst value.
  (* the second stretch *)
  destruct (each_settled_one_clean (JStr s, pc, promise) sendOffers_describe
              sta stb described tb) as (d & -> & Hdescribe); [|done..|].
  { apply (sends_sendOffers_describe (fun _ => True) I (fun _ _ _ _ => I)). }
  destruct (sendOffers_describe_returned _ _ _ _ _ _ Hdescribe)
    as (offer & -> & -> & Hstb).
  apply lookup_lt_is_Some in Hlta as [pa Hpa].
  assert (pcs stb !! pc = Some (set_pc_localDescription offer pa)) as Hpb.
  { rewrite Hstb. cbn. by rewrite list_lookup_alter_eq, Hpa. }
  assert (JSMap.get (JStr s) (peerConnectionMap stb) = Some pc) as Hgb
    by (by rewrite Hstb).
  assert (ioConnection stb = Some sock) as Hiob' by (by rewrite Hiob, Hioa).
  (* the last stretch *)
  assert (stc = with_trace
                  (trace stb ++
                   [SocketEmit (TransferOffer (Some offer) (socket_id sock) (JStr s))])
                  stb) as Hstc.
  { revert Hemit. cbn [each_settled].
    rewrite (bind_returned _ _ (Some tt) stb
               (with_trace
                  (trace stb ++
                   [SocketEmit (TransferOffer (Some offer) (socket_id sock) (JStr s))])
                  stb)).
    - unfold bind, ret. by intros [= _ <-].
    - unfold settled. rewrite (sendOffers_emit_eq (JStr s) pc sock stb Hiob').
      by rewrite Hpb. }
  assert (pcs stc !! pc = Some (set_pc_localDescription offer pa)) as Hpc
    by (by rewrite Hstc).
  assert (JSMap.get (JStr s) (peerConnectionMap stc) = Some pc) as Hgc
    by (by rewrite Hstc).
  (* the answer *)
  assert (st2 = exec (on_received_answer answer) stc) as Hst2.
  { subst st2. unfold deliver. by rewrite Hioc. }
  unfold exec in Hst2.
  rewrite (on_received_answer_found answer s pc _ stc eq_refl Hgc Hpc) in Hst2.
  cbn [snd answer_sdp answer] in Hst2.
  destruct (setRemoteDescription_error (set_pc_localDescription offer pa) sdp)
    as [e|] eqn:Herr.
  { exfalso. rewrite Hst2 in Htd. cbn in Htd. apply app_inv_head in Htd.
    subst td. discriminate. }
  exists pc, (set_pc_remoteDescription sdp (set_pc_localDescription offer pa)), offer.
  rewrite Hst2. cbn. split_and!; [done| |done|done|].
  - by rewrite list_lookup_alter_eq, Hpc.
  - assert (since st stc = [ConsoleLog line] ++ ta ++ tb ++ tc) as ->.
    { apply since_app. rewrite Htc, Htb, Hta, Ht0. by rewrite <- !app_assoc. }
    rewrite !emitted_app, Hea, Heb. cbn.
    rewrite Hstc in Htc. cbn in Htc. apply app_inv_head in Htc. by subst tc.
Qed.

(** X14. Candidates arriving from a peer whose session is registered are
    handed to that session one after the other: over any number of
    [on-received-candidate] messages from the peer, [addIceCandidate] is
    called on the session with each candidate in the order of arrival,
    nothing is sent to the relay and the registry is as it was; the session
    then holds the candidates it had followed by those the browser accepted,
    in the order of arrival; the trace reports one rejection for each
    candidate refused, so that with no rejection the session holds them
    all. *)
Theorem inbound_candidates_reach_session (st : State) (sock : Socket) (s : string)
    (receiverId : jsid) (pc : PcRef) (p : RTCPeerConnection) (cs : list RTCIceCandidate) :
  ioConnection st = Some sock ->
  JSMap.get (JStr s) (peerConnectionMap st) = Some pc ->
  pcs st !! pc = Some p ->
  let st' :=
    run ((fun c => FromSocket (OnReceivedCandidate (mkCandidate c (JStr s) receiverId)))
           <$> cs) st in
  peerConnectionMap st' = peerConnectionMap st
  /\ emitted (since st st') = []
  /\ candidates_tried pc (since st st') = cs
  /\ exists accepted p',
       sublist accepted cs
       /\ pcs st' !! pc = Some p'
       /\ pc_iceCandidates p' = pc_iceCandidates p ++ accepted
       /\ length accepted + length (rejected (since st st')) = length cs
       /\ (rejected (since st st') = [] -> accepted = cs).
Proof.
  intros Hio Hk Hp st'.
  enough (peerConnectionMap st' = peerConnectionMap st
          /\ exists t accepted p',
               trace st' = trace st ++ t
               /\ emitted t = []
               /\ candidates_tried pc t = cs
               /\ sublist accepted cs
               /\ pcs st' !! pc = Some p'
               /\ pc_iceCandidates p' = pc_iceCandidates p ++ accepted
               /\ length accepted + length (rejected t) = length cs
               /\ (rejected t = [] -> accepted = cs))
    as [Hpcm (t & accepted & p' & Ht & He & Htried & Hsub & Hp' & Hcs & Hcount & Hall)].
  { rewrite (since_app st st' t Ht). split_and!; [done..|]. by exists accepted, p'. }
  subst st'. revert st p Hio Hk Hp.
  induction cs as [|c cs IH]; intros st p Hio Hk Hp.
  - split; [done|]. exists [], [], p. rewrite !app_nil_r. by split_and!.
  - rewrite fmap_cons, run_cons.
    set (candidate := mkCandidate c (JStr s) receiverId).
    set (st1 := deliver (FromSocket (OnReceivedCandidate candidate)) st).
    assert (st1 = (on_received_candidate candidate st).2) as Hst1.
    { subst st1. unfold deliver. by rewrite Hio. }
    rewrite (on_received_candidate_found candidate s pc p st eq_refl Hk Hp) in Hst1.
    cbn [snd candidate_candidate candidate] in Hst1.
    clearbody st1.
    set (line := ConsoleLog [LogText "on-received-candidate"; LogCandidate candidate])
      in Hst1.
    destruct (addIceCandidate_error p c) as [e|].
    + destruct (IH st1 p) as [Hpcm (t & accepted & p' & Ht & He & Htried & Hsub & Hp'
                                    & Hcs & Hcount & Hall)]; [by rewrite Hst1..|].
      split; [by rewrite Hpcm, Hst1|].
      exists ([line; PcAddIceCandidate pc c; UnhandledRejection e] ++ t), accepted, p'.
      split_and!; [| | |by constructor|done|done| |done].
      * rewrite Ht, Hst1. cbn. by rewrite <- app_assoc.
      * by rewrite emitted_app, He.
      * unfold candidates_tried in *. rewrite omap_app, Htried. cbn.
        by rewrite decide_True.
      * rewrite rejected_app, length_app.
        change (rejected [line; PcAddIceCandidate pc c; UnhandledRejection e])
          with [e].
        cbn [length]. lia.
    + destruct (IH st1 (add_pc_iceCandidate c p))
        as [Hpcm (t & accepted & p' & Ht & He & Htried & Hsub & Hp' & Hcs & Hcount
                  & Hall)].
      * by rewrite Hst1.
      * by rewrite Hst1.
      * rewrite Hst1. cbn. by rewrite list_lookup_alter_eq, Hp.
      * split; [by rewrite Hpcm, Hst1|].
        exists ([line; PcAddIceCandidate pc c] ++ t), (c :: accepted), p'.
        split_and!; [| | |by constructor|done| | |].
        -- rewrite Ht, Hst1. cbn. by rewrite <- app_assoc.
        -- by rewrite emitted_app, He.
        -- unfold candidates_tried in *. rewrite omap_app, Htried. cbn.
           by rewrite decide_True.
        -- rewrite Hcs. cbn. by rewrite <- app_assoc.
        -- rewrite rejected_app, length_app.
           change (rejected [line; PcAddIceCandidate pc c]) with (@nil JsError).
           cbn [length]. lia.
        -- rewrite rejected_app. cbn. intros Hclean. by rewrite Hall.
Qed.

(** X15. Leaving a page that has no socket (its initialisation stopped
    before creating one): [ngOnDestroy] still empties both registries, then
    throws a [TypeError] at [this.ioConnection.close()]; nothing is closed
    on the relay's side. *)
Theorem ngOnDestroy_needs_socket (st : State) :
  ioConnection st = None ->
  let st' := exec ngOnDestroy st in
  outcome ngOnDestroy st = Thrown TypeError
  /\ peerConnectionMap st' = JSMap.empty
  /\ targetUserStreamDataMap st' = JSMap.empty
  /\ ioConnection st' = None
  /\ emitted (trace st') = emitted (trace st)
  /\ (SocketClose ∈ trace st' -> SocketClose ∈ trace st).
Proof.
  intros Hio st'. subst st'. unfold outcome, exec.
  rewrite (ngOnDestroy_without_socket st Hio). cbn.
  split_and!; [done..| |].
  - by rewrite !emitted_app, emitted_PcClose, emitted_TrackStop, !app_nil_r.
  - rewrite !elem_of_app, !list_elem_of_fmap.
    intros [Hin|[(pc & Heq & _)|(track & Heq & _)]]; [done|discriminate..].
Qed.

(** X16. A peer that left and comes back gets a session of its own: after
    [on-user-disconnect] for an identifier, asking for that identifier's
    session creates a new connection object, open and wired for it, and does
    not hand out the one that was closed. *)
Theorem returning_peer_gets_fresh_session (st : State) (s : string) :
  let st1 := exec (on_user_disconnect (JStr s)) st in
  let pc := length (pcs st) in
  exists st2,
    getOrCreatePeerConnection (JStr s) st1 = (Returned pc, st2)
    /\ pcs st1 !! pc = None
    /\ pcs st2 !! pc = Some (wired_pc (JStr s))
    /\ JSMap.get (JStr s) (peerConnectionMap st2) = Some pc.
Proof.
  intros st1 pc.
  assert (JSMap.get (JStr s) (peerConnectionMap st1) = None) as Hgone.
  { subst st1. unfold exec. rewrite on_user_disconnect_eq. apply get_delete_eq. }
  assert (length (pcs st1) = pc) as Hlen.
  { subst st1 pc. unfold exec. rewrite on_user_disconnect_eq. cbn.
    destruct (JSMap.get (JStr s) (peerConnectionMap st)); [|done].
    by rewrite length_alter. }
  exists (register (JStr s) st1).
  rewrite (getOrCreatePeerConnection_new (JStr s) st1 Hgone), Hlen.
  split_and!; [done| | |].
  - apply lookup_ge_None_2. lia.
  - unfold register. cbn. by rewrite <- Hlen, lookup_app_r, Nat.sub_diag by lia.
  - unfold register. cbn. rewrite Hlen. apply get_set_eq.
Qed.

End Lifetime.
(** * Negotiation with a browser that accepts the calls *)

Section Accepted.
Context `{Platform}.

Lemma bind_returned_inv {A B : Type} (m : M A) (k : A -> M B) (st st' : State) (b : B) :
  bind m k st = (Returned b, st') ->
  exists a st1, m st = (Returned a, st1) /\ k a st1 = (Returned b, st').
Proof.
  unfold bind. destruct (m st) as [[a|e] st1]; [|done]. intros Hk. by exists a, st1.
Qed.

Lemma pc_try_returned (pc : PcRef) (e : Effect) (err : RTCPeerConnection -> option JsError)
    (f : RTCPeerConnection -> RTCPeerConnection) (st st' : State) :
  pc_try pc e err f st = (Returned tt, st') ->
  st' = with_trace (trace st ++ [e]) (with_pcs (alter f pc (pcs st)) st).
Proof.
  unfold pc_try. destruct (err (default fresh_pc (pcs st !! pc))); [done|].
  by intros [= <-].
Qed.

Lemma forEach_pc_addTrack_returned (pc : PcRef) (l : list MediaStreamTrack)
    (st st' : State) :
  forEach l (pc_addTrack pc) st = (Returned tt, st') ->
  st' = with_trace (trace st ++ (PcAddTrack pc <$> l))
          (with_pcs (alter (add_pc_senders l) pc (pcs st)) st).
Proof.
  revert st st'. induction l as [|t l IH]; intros st st'; simpl.
  - unfold ret. intros [= <-]. destruct st; unfold with_trace, with_pcs; simpl.
    rewrite app_nil_r, list_alter_id; [done|].
    intros [? ? ? ? ? ?]; unfold add_pc_senders; simpl. by rewrite app_nil_r.
  - intros ([] & st1 & Hhead & Hrest)%bind_returned_inv.
    unfold pc_addTrack in Hhead. apply pc_try_returned in Hhead.
    apply IH in Hrest. subst st' st1. clear IH.
    destruct st; unfold with_trace, with_pcs; simpl.
    rewrite <- !app_assoc, list_alter_alter_eq. simpl.
    f_equal. apply list_alter_ext; [|done].
    intros [? ? ? ? ? ?] _; unfold add_pc_senders, add_pc_sender; simpl.
    by rewrite <- app_assoc.
Qed.

(** When every [addTrack] was accepted, the session carries the local
    tracks after those it had. *)
Lemma addLocalTracks_returned (pc : PcRef) (st st' : State) :
  addLocalTracks pc st = (Returned tt, st') ->
  st' = with_trace (trace st ++ (PcAddTrack pc <$> local_tracks st))
          (with_pcs (alter (add_pc_senders (local_tracks st)) pc (pcs st)) st).
Proof.
  unfold addLocalTracks, local_tracks, bind, gets. cbn [fst snd].
  destruct (localVideo_srcObject st) as [stream|];
    [apply forEach_pc_addTrack_returned|].
  apply (forEach_pc_addTrack_returned pc [] st).
Qed.

(** The session a listener obtains for a string identifier after it has
    printed its line: the registered one, the state untouched, or a new
    one. *)
Lemma session_obtained (s : string) (line : list LogArg) (pc : PcRef) (st st0 : State) :
  getOrCreatePeerConnection (JStr s) (logged line st) = (Returned pc, st0) ->
  match JSMap.get (JStr s) (peerConnectionMap st) with
  | Some pc0 => pc = pc0 /\ st0 = logged line st
  | None => pc = length (pcs st) /\ pcs st0 = pcs st ++ [wired_pc (JStr s)]
  end.
Proof.
  intros Hget.
  destruct (getOrCreatePeerConnection_cases (JStr s) (logged line st))
    as [(pc0 & _ & Hg & Hrun0)|[Hg Hrun0]];
    rewrite Hrun0 in Hget; injection Hget as <- <-;
    cbn [nullish] in Hg;
    change (peerConnectionMap (logged line st)) with (peerConnectionMap st) in Hg;
    rewrite Hg; done.
Qed.

(** An [async] listener whose stretch of trace reports no rejection
    returned. *)
Lemma async_clean (m : M unit) (st : State) :
  sends (fun _ => True) m ->
  rejected (since st (exec (async m) st)) = [] ->
  m st = (Returned tt, exec (async m) st).
Proof.
  intros Hm. destruct (Hm st) as (ms & [_ (t0 & Ht0 & _)] & _).
  unfold exec, async in *. destruct (m st) as [[[]|e] st0]; cbn [snd] in *; [done|].
  rewrite (since_app st _ (t0 ++ [UnhandledRejection e]))
    by (cbn; by rewrite Ht0, <- app_assoc).
  rewrite rejected_app. by intros [_ ?]%app_eq_nil.
Qed.

(** X17. An inbound [on-received-offer] from a sender whose identifier is a
    string, the socket in place.  The listener returns.  When its trace
    reports no rejection, this is all it did, in this order: it obtained the
    sender's session (the registered one, the state untouched, or a new
    one, with no track and no description yet), called [addTrack] on it for
    every track of the local stream, set the inbound description
    as its remote description, created an answer, set it as its local
    description, and emitted one [transfer-answer] with that description,
    addressed to the sender; the session then carries both descriptions. *)
Theorem accepted_offer_is_answered (st : State) (sock : Socket)
    (sdp : RTCSessionDescription) (s : string) (receiverId : jsid) :
  ioConnection st = Some sock ->
  registry_valid st ->
  let offer := mkOffer sdp (JStr s) receiverId in
  let line := [LogText "on-received-offer"; LogOffer offer] in
  let st' := exec (on_received_offer offer) st in
  outcome (on_received_offer offer) st = Returned tt
  /\ (rejected (since st st') = [] ->
      exists pc st0 answer,
        getOrCreatePeerConnection (JStr s) (logged line st) = (Returned pc, st0)
        /\ match JSMap.get (JStr s) (peerConnectionMap st) with
           | Some pc0 => pc = pc0 /\ st0 = logged line st
           | None => pc = length (pcs st) /\ pcs st0 = pcs st ++ [wired_pc (JStr s)]
           end
        /\ JSMap.get (JStr s) (peerConnectionMap st') = Some pc
        /\ since st0 st' =
             (PcAddTrack pc <$> local_tracks st) ++
             [PcSetRemoteDescription pc sdp;
              PcCreateAnswer pc;
              PcSetLocalDescription pc answer;
              SocketEmit (TransferAnswer (Some answer) (socket_id sock) (JStr s))]
        /\ pcs st' !! pc ≫= pc_remoteDescription = Some sdp
        /\ pcs st' !! pc ≫= pc_localDescription = Some answer).
Proof.
  intros Hio Hvalid offer line st'.
  split; [apply async_outcome|]. intros Hclean.
  assert (on_received_offer_body offer st = (Returned tt, st')) as Hrun.
  { apply async_clean; [|exact Hclean].
    apply (sends_on_received_offer_body (fun _ => True) I (fun _ _ _ _ => I)
             (fun _ => I)). }
  clearbody st'. clear Hclean. revert Hrun. unfold on_received_offer_body.
  rewrite (bind_returned _ _ tt st (logged line st)) by done.
  intros (pc & st0 & Hget & Hrun)%bind_returned_inv.
  cbn [offer_senderId offer] in Hget.
  destruct (getOrCreatePeerConnection_spec _ _ _ _ Hget)
    as (Hio0 & Hsrc & _ & Hreg & _ & Hv).
  destruct Hv as [Hlt _]; [done|].
  apply lookup_lt_is_Some in Hlt as [p Hp].
  apply bind_returned_inv in Hrun as ([] & st1 & Htracks & Hrun).
  apply addLocalTracks_returned in Htracks.
  apply bind_returned_inv in Hrun as ([] & st2 & Hremote & Hrun).
  unfold pc_setRemoteDescription in Hremote. apply pc_try_returned in Hremote.
  apply bind_returned_inv in Hrun as (answer & st3 & Hanswer & Hrun).
  assert (st3 = with_trace (trace st2 ++ [PcCreateAnswer pc]) st2) as Hst3.
  { unfold pc_createAnswer in Hanswer. by injection Hanswer as _ <-. }
  clear Hanswer.
  apply bind_returned_inv in Hrun as ([] & st4 & Hlocal & Hrun).
  unfold pc_setLocalDescription in Hlocal. apply pc_try_returned in Hlocal.
  assert (pcs st4 !! pc
          = Some (set_pc_localDescription answer
                    (set_pc_remoteDescription sdp
                       (add_pc_senders (local_tracks st0) p)))) as Hp4.
  { rewrite Hlocal, Hst3, Hremote, Htracks. cbn.
    by rewrite !list_lookup_alter_eq, Hp. }
  assert (ioConnection st4 = Some sock) as Hio4.
  { rewrite Hlocal, Hst3, Hremote, Htracks. cbn. rewrite Hio0. exact Hio. }
  revert Hrun.
  rewrite (bind_returned _ _ (Some answer) st4 st4)
    by (unfold pc_get_localDescription, gets; by rewrite Hp4).
  rewrite (bind_returned _ _ (socket_id sock) st4 st4)
    by (unfold ioConnection_id; by rewrite Hio4).
  unfold emit. rewrite Hio4. intros [= <-].
  exists pc, st0, answer. split_and!.
  - done.
  - by apply session_obtained.
  - rewrite Hlocal, Hst3, Hremote, Htracks. exact Hreg.
  - apply since_app. rewrite Hlocal, Hst3, Hremote, Htracks. cbn.
    unfold local_tracks. rewrite Hsrc. by rewrite <- !app_assoc.
  - cbn. by rewrite Hp4.
  - cbn. by rewrite Hp4.
Qed.

(** X18. An [on-join] naming one peer, the socket in place, when its trace
    reports no rejection: the callback of [sendOffers] obtained the peer's
    session (the registered one, the state untouched, or a new one, with no
    track and no description yet), called [addTrack] on it for every track
    of the local stream, then [createOffer], then set the offer as its local
    description, and emitted one [transfer-offer] with that description,
    addressed to the peer; it did nothing else. *)
Theorem accepted_join_sends_offer (st : State) (sock : Socket) (s : string) :
  ioConnection st = Some sock ->
  registry_valid st ->
  let value := JStr s in
  let line := [LogText "on-join"; LogUserIds (Some [value])] in
  let st' := exec (on_join (Some [value])) st in
  rejected (since st st') = [] ->
  exists pc st0 offer,
    getOrCreatePeerConnection value (logged line st) = (Returned pc, st0)
    /\ match JSMap.get value (peerConnectionMap st) with
       | Some pc0 => pc = pc0 /\ st0 = logged line st
       | None => pc = length (pcs st) /\ pcs st0 = pcs st ++ [wired_pc value]
       end
    /\ JSMap.get value (peerConnectionMap st') = Some pc
    /\ since st0 st' =
         (PcAddTrack pc <$> local_tracks st) ++
         [PcCreateOffer pc;
          PcSetLocalDescription pc offer;
          SocketEmit (TransferOffer (Some offer) (socket_id sock) value)]
    /\ pcs st' !! pc ≫= pc_localDescription = Some offer.
Proof.
  intros Hio Hvalid value line st' Hclean.
  set (stl := logged line st).
  assert (ioConnection stl = Some sock) as Hiol by done.
  assert (registry_valid stl) as Hvalidl by done.
  destruct (sendOffers_run [value] sock stl Hiol)
    as (begun & described & ds & rs & sta & stb & stc & Hbegun & Hdescribed & Hemit
        & Hrun & _ & _ & _ & _ & _ & Hfa & Hfb & Hfc).
  assert (st' = stc) as Hst'.
  { subst st'. unfold exec, on_join.
    rewrite (bind_returned _ _ tt st stl) by done. by rewrite Hrun. }
  clearbody st'. subst st'.
  destruct Hfa as [Hioa (ta & Hta & _)]. destruct Hfb as [Hiob (tb & Htb & _)].
  destruct Hfc as [_ (tc & Htc & _)].
  assert (trace stl = trace st ++ [ConsoleLog line]) as Htl by done.
  assert (since st stc = [ConsoleLog line] ++ ta ++ tb ++ tc) as Hsince.
  { apply since_app. rewrite Htc, Htb, Hta, Htl. by rewrite <- !app_assoc. }
  rewrite Hsince, !rejected_app in Hclean.
  apply app_eq_nil in Hclean as [_ [Hca [Hcb Hcc]%app_eq_nil]%app_eq_nil].
  (* the first stretch *)
  destruct (each_settled_one_clean value sendOffers_begin stl sta begun ta)
    as ([[value' pc] promise] & -> & Hbegin); [|done..|].
  { apply (sends_sendOffers_begin (fun _ => True) I (fun _ _ _ _ => I)). }
  revert Hbegin. unfold sendOffers_begin.
  intros (pc' & st0 & Hget & Hbegin)%bind_returned_inv.
  destruct (getOrCreatePeerConnection_spec _ _ _ _ Hget)
    as (Hio0 & Hsrc & _ & Hreg & _ & Hv).
  destruct Hv as [Hlt _]; [done|].
  apply lookup_lt_is_Some in Hlt as [p Hp].
  apply bind_returned_inv in Hbegin as ([] & st1 & Htracks & Hbegin).
  apply addLocalTracks_returned in Htracks.
  revert Hbegin. unfold bind, pc_createOffer_call, ret. intros [= <- <- _ Hsta].
  (* the second stretch *)
  destruct (each_settled_one_clean (value, pc', promise) sendOffers_describe
              sta stb described tb) as (d & -> & Hdescribe); [|done..|].
  { apply (sends_sendOffers_describe (fun _ => True) I (fun _ _ _ _ => I)). }
  destruct (sendOffers_describe_returned _ _ _ _ _ _ Hdescribe)
    as (offer & _ & -> & Hstb).
  assert (pcs stb !! pc'
          = Some (set_pc_localDescription offer
                    (add_pc_senders (local_tracks st0) p))) as Hpb.
  { rewrite Hstb, <- Hsta, Htracks. cbn. by rewrite !list_lookup_alter_eq, Hp. }
  assert (ioConnection stb = Some sock) as Hiob' by (by rewrite Hiob, Hioa).
  (* the last stretch *)
  assert (stc = with_trace
                  (trace stb ++
                   [SocketEmit (TransferOffer (Some offer) (socket_id sock) value)])
                  stb) as Hstc.
  { revert Hemit. cbn [each_settled].
    rewrite (bind_returned _ _ (Some tt) stb
               (with_trace
                  (trace stb ++
                   [SocketEmit (TransferOffer (Some offer) (socket_id sock) value)])
                  stb)).
    - unfold bind, ret. by intros [= _ <-].
    - unfold settled. rewrite (sendOffers_emit_eq value pc' sock stb Hiob').
      by rewrite Hpb. }
  exists pc', st0, offer. split_and!.
  - done.
  - by apply session_obtained.
  - rewrite Hstc, Hstb, <- Hsta, Htracks. exact Hreg.
  - apply since_app. rewrite Hstc, Hstb, <- Hsta, Htracks. cbn.
    unfold local_tracks. rewrite Hsrc. by rewrite <- !app_assoc.
  - rewrite Hstc. cbn. by rewrite Hpb.
Qed.

End Accepted.

(** * Concrete runs *)

Section Concrete.
#[local] Existing Instance sample_platform.

(** C1, on the code.  The page is in a call with "B": one peer session and
    one remote stream.  The socket reports [disconnect].  The listener closes
    the peer connection, and both registries still hold their entry for "B":
    [removeAllPeerConnection] pops a copy of the values and never touches the
    [Map]s. *)
Theorem disconnect_keeps_entries :
  let st' := deliver (FromSocket Disconnect) in_call in
  peerConnectionMap st' = [(JStr "B", 0)]
  /\ targetUserStreamDataMap st' = [(JStr "B", [remote_track])]
  /\ pc_closed <$> pcs st' !! 0 = Some true.
Proof. vm_compute. by split_and!. Qed.

(** C3, on the code.  The page is in a call with "B" and the local stream is
    replaced.  [remove-connection] goes out for "B"; the registry still maps
    "B" to the same connection object, and no object is created or closed: the
    new track is added to the connection that already has a local description,
    and a new offer is sent from it. *)
Theorem stream_change_keeps_session_object :
  let st' := exec (getUserStreamData (Some [new_camera_track])) in_call in
  JSMap.get (JStr "B") (peerConnectionMap in_call) = Some 0
  /\ JSMap.get (JStr "B") (peerConnectionMap st') = Some 0
  /\ length (pcs st') = length (pcs in_call)
  /\ pc_closed <$> pcs st' !! 0 = Some false
  /\ drop (length (trace in_call)) (trace st') =
       [SocketEmit (RemoveConnection (JStr "B"));
        PcAddTrack 0 new_camera_track;
        PcCreateOffer 0;
        PcSetLocalDescription 0 (mkSdp SdpOffer "offer");
        SocketEmit (TransferOffer (Some (mkSdp SdpOffer "offer")) "me" (JStr "B"))].
Proof. vm_compute. by split_and!. Qed.

(** C4, on the code.  WebRTC is supported, a webcam is detected, and the
    video probe yields a stream whose only track is enabled: the web check
    throws [RTCNoAvailableCameraError], before it stops any track. *)
Theorem enabled_camera_is_rejected :
  let probe :=
    checkWebRTCAvailability (mkDetectRTC true true true)
      (Some [camera_track]) (Some [microphone_track]) in
  track_enabled camera_track = true
  /\ outcome probe newHomePage = Thrown RTCNoAvailableCameraError
  /\ stopped (exec probe newHomePage) = [].
Proof. vm_compute. by split_and!. Qed.

(** The same probe passes as soon as one video track is disabled. *)
Example disabled_camera_is_accepted :
  outcome
    (checkWebRTCAvailability (mkDetectRTC true true true)
       (Some [mkTrack 1 false]) (Some [microphone_track]))
    newHomePage
  = Returned tt.
Proof. reflexivity. Qed.

(** A session may be there before any of its tracks: the converse of C7's
    inclusion does not hold. *)
Example session_may_lack_stream :
  let st := deliver (FromSocket (OnJoin (Some [JStr "B"]))) joined in
  JSMap.keys (peerConnectionMap st) = [JStr "B"]
  /\ JSMap.keys (targetUserStreamDataMap st) = [].
Proof. vm_compute. by split. Qed.

(** "B" leaves the call: both registries lose their entry, the connection is
    closed and the remote track stopped. *)
Example peer_b_leaves :
  let st := deliver (FromSocket (OnUserDisconnect (JStr "B"))) in_call in
  peerConnectionMap st = []
  /\ targetUserStreamDataMap st = []
  /\ pc_closed <$> pcs st !! 0 = Some true
  /\ stopped st = [track_id remote_track].
Proof. vm_compute. by split_and!. Qed.

(** C2, on the code.  The page is in a call with "B": the session of "B"
    carries the local tracks and, as its local description, the offer that
    went out to "B".  An offer arrives from "B".  The listener obtains that
    same session and calls [addTrack] on it, after the description was set;
    the browser refuses a track the connection already sends, the listener
    is rejected there, and the inbound offer is not set as the remote
    description, no answer is created and no [transfer-answer] is sent. *)
Theorem repeated_offer_is_not_answered :
  let offer := mkOffer (mkSdp SdpOffer "remote") (JStr "B") (JStr "me") in
  let st' := deliver (FromSocket (OnReceivedOffer offer)) in_call in
  JSMap.get (JStr "B") (peerConnectionMap in_call) = Some 0
  /\ pcs in_call !! 0 = Some session_b
  /\ pc_localDescription session_b = Some (mkSdp SdpOffer "offer")
  /\ since in_call st' =
       [ConsoleLog [LogText "on-received-offer"; LogOffer offer];
        PcAddTrack 0 camera_track;
        UnhandledRejection InvalidAccessError]
  /\ pcs st' = pcs in_call
  /\ pcs st' !! 0 ≫= pc_remoteDescription = None
  /\ emitted (since in_call st') = [].
Proof. vm_compute. by split_and!. Qed.

(** C5, on the code.  The page is in a call with "B", whose session carries
    the local tracks and the offer as its local description, and [on-join]
    names "B".  The callback of [sendOffers] obtains that same session and
    calls [addTrack] on it, after the description was set; the browser
    refuses a track the connection already sends, the callback is rejected
    there, and no offer is created and no [transfer-offer] is sent to "B". *)
Theorem repeated_join_sends_no_offer :
  let st' := deliver (FromSocket (OnJoin (Some [JStr "B"]))) in_call in
  JSMap.get (JStr "B") (peerConnectionMap in_call) = Some 0
  /\ pcs in_call !! 0 = Some session_b
  /\ pc_localDescription session_b = Some (mkSdp SdpOffer "offer")
  /\ since in_call st' =
       [ConsoleLog [LogText "on-join"; LogUserIds (Some [JStr "B"])];
        PcAddTrack 0 camera_track;
        UnhandledRejection InvalidAccessError]
  /\ pcs st' = pcs in_call
  /\ emitted (since in_call st') = [].
Proof. vm_compute. by split_and!. Qed.

(** The same [on-join] once the relay was lost: [disconnect] closed the
    connection of "B" and left it registered, so the callback finds it,
    [addTrack] throws on the closed connection and no offer goes out. *)
Example join_after_disconnect_sends_no_offer :
  let st := deliver (FromSocket Disconnect) in_call in
  let st' := deliver (FromSocket (OnJoin (Some [JStr "B"]))) st in
  since st st' =
    [ConsoleLog [LogText "on-join"; LogUserIds (Some [JStr "B"])];
     PcAddTrack 0 camera_track;
     UnhandledRejection InvalidStateError].
Proof. vm_compute. reflexivity. Qed.

(** A room that held "B" and "D" when the page joined: the callbacks of
    [sendOffers] take turns, each running to its [await] before the next
    starts, and both offers go out. *)
Example join_two_peers :
  let st' := deliver (FromSocket (OnJoin (Some [JStr "B"; JStr "D"]))) joined in
  JSMap.keys (peerConnectionMap st') = [JStr "B"; JStr "D"]
  /\ since joined st' =
       ConsoleLog [LogText "on-join"; LogUserIds (Some [JStr "B"; JStr "D"])]
       :: wiring 0 (JStr "B")
       ++ [PcAddTrack 0 camera_track; PcAddTrack 0 microphone_track; PcCreateOffer 0]
       ++ wiring 1 (JStr "D")
       ++ [PcAddTrack 1 camera_track; PcAddTrack 1 microphone_track; PcCreateOffer 1;
           PcSetLocalDescription 0 (mkSdp SdpOffer "offer");
           PcSetLocalDescription 1 (mkSdp SdpOffer "offer");
           SocketEmit (TransferOffer (Some (mkSdp SdpOffer "offer")) "me" (JStr "B"));
           SocketEmit (TransferOffer (Some (mkSdp SdpOffer "offer")) "me" (JStr "D"))].
Proof. vm_compute. by split. Qed.

(** C9, on the code.  An offer whose [senderId] is [undefined] reaches the
    page just after it joined.  It is not dropped: a peer connection is
    created and stored in the Peer Session Registry under [undefined], and
    an answer is sent to [undefined].  A second such offer stores a new
    connection under the same key; the first one is still open and no entry
    names it any more.  [on-user-disconnect] for [undefined], which
    [removePeerConnection] and [removeStream] ignore, removes nothing. *)
Theorem missing_sender_session_is_kept :
  let offer := mkOffer (mkSdp SdpOffer "remote") JUndefined (JStr "me") in
  let st1 := deliver (FromSocket (OnReceivedOffer offer)) joined in
  let st2 := deliver (FromSocket (OnReceivedOffer offer)) st1 in
  let st3 := deliver (FromSocket (OnUserDisconnect JUndefined)) st2 in
  peerConnectionMap joined = []
  /\ pcs joined = []
  /\ peerConnectionMap st1 = [(JUndefined, 0)]
  /\ length (pcs st1) = 1
  /\ emitted (since joined st1)
     = [TransferAnswer (Some (mkSdp SdpAnswer "answer")) "me" JUndefined]
  /\ peerConnectionMap st2 = [(JUndefined, 1)]
  /\ pc_closed <$> pcs st2 !! 0 = Some false
  /\ peerConnectionMap st3 = [(JUndefined, 1)]
  /\ pcs st3 = pcs st2.
Proof. vm_compute. by split_and!. Qed.

(** C6 at work: the session of "C", asked for twice while in a call with
    "B". *)
Lemma getOrCreatePeerConnection_idempotent_witness :
  JSMap.wf (peerConnectionMap in_call)
  /\ exists pc st1,
       getOrCreatePeerConnection (JStr "C") in_call = (Returned pc, st1)
       /\ getOrCreatePeerConnection (JStr "C") st1 = (Returned pc, st1)
       /\ JSMap.get (JStr "C") (peerConnectionMap st1) = Some pc
       /\ JSMap.count (JStr "C") (peerConnectionMap st1) = 1
       /\ Forall (fun slot =>
            assignments slot (JStr "C") (trace st1)
            = assignments slot (JStr "C") (trace in_call)
              + (if JSMap.has (JStr "C") (peerConnectionMap in_call) then 0 else 1))
          [Onicecandidate; Ontrack; Onconnectionstatechange;
           Onnegotiationneeded; Oniceconnectionstatechange].
Proof.
  assert (JSMap.wf (peerConnectionMap in_call)) as Hwf.
  { apply (wf_set (JStr "B") 0 []), wf_empty. }
  split; [exact Hwf|].
  exact (getOrCreatePeerConnection_idempotent in_call "C" Hwf).
Defined.

(** Messages with an [undefined] sender reach a page in a call with "B". *)
Lemma missing_sender_registers_session_witness :
  nullish JUndefined = true
  /\ let sdp := mkSdp SdpOffer "remote" in
     let offer := mkOffer sdp JUndefined (JStr "me") in
     let answer := mkAnswer sdp JUndefined (JStr "me") in
     let candidate := mkCandidate "candidate:0" JUndefined (JStr "me") in
     session_registered JUndefined [LogText "on-received-offer"; LogOffer offer]
       in_call (exec (on_received_offer offer) in_call)
     /\ session_registered JUndefined [LogText "on-received-answer"; LogAnswer answer]
          in_call (exec (on_received_answer answer) in_call)
     /\ session_registered JUndefined
          [LogText "on-received-candidate"; LogCandidate candidate]
          in_call (exec (on_received_candidate candidate) in_call).
Proof.
  split; [reflexivity|].
  exact (missing_sender_registers_session in_call JUndefined (JStr "me")
           (mkSdp SdpOffer "remote") "candidate:0" eq_refl).
Defined.

(** C10 at work: the page is destroyed while in a call with "B". *)
Lemma ngOnDestroy_tears_down_witness :
  ioConnection in_call = Some sample_socket
  /\ registry_valid in_call
  /\ let st' := exec ngOnDestroy in_call in
     outcome ngOnDestroy in_call = Returned tt
     /\ Forall (fun pc => PcClose pc ∈ trace st'
                          /\ pc_closed <$> pcs st' !! pc = Some true)
          (JSMap.values (peerConnectionMap in_call))
     /\ Forall (fun stream =>
          Forall (fun track => TrackStop track ∈ trace st'
                               /\ track_id track ∈ stopped st') stream)
          (JSMap.values (targetUserStreamDataMap in_call))
     /\ peerConnectionMap st' = JSMap.empty
     /\ targetUserStreamDataMap st' = JSMap.empty
     /\ ioConnection st' = Some (mkSocket (socket_id sample_socket) true)
     /\ SocketClose ∈ trace st'.
Proof.
  assert (registry_valid in_call) as Hvalid.
  { repeat constructor. }
  split_and!; [reflexivity|exact Hvalid|].
  exact (ngOnDestroy_tears_down in_call sample_socket eq_refl Hvalid).
Defined.

End Concrete.

(** * More concrete runs *)

Section Worked.
#[local] Existing Instance sample_platform.

(** X5 at work: the session of "B" reports a local candidate. *)
Lemma local_candidate_is_relayed_witness :
  let st := run [FromSocket (OnJoin (Some [JStr "B"]));
                 FromPeer 0 (TrackEvent remote_track)]
              (exec (ngOnInit sample_env) newHomePage) in
  ioConnection st = Some sample_socket
  /\ JSMap.get (JStr "B") (peerConnectionMap st) = Some 0
  /\ pcs st !! 0 = Some session_b
  /\ pc_closed session_b = false
  /\ deliver (FromPeer 0 (IceCandidateEvent (Some "candidate:1"))) st
     = with_trace
         (trace st ++
          [ConsoleLog [LogText "onicecandidate"; LogIceEvent (Some "candidate:1")];
           SocketEmit (TransferCandidate "candidate:1" (socket_id sample_socket)
                         (JStr "B"))]) st
  /\ deliver (FromPeer 0 (IceCandidateEvent None)) st
     = logged [LogText "onicecandidate"; LogIceEvent None] st.
Proof.
  intros st.
  assert (ioConnection st = Some sample_socket) as Hio by (vm_compute; reflexivity).
  assert (JSMap.get (JStr "B") (peerConnectionMap st) = Some 0) as Hk
    by (vm_compute; reflexivity).
  assert (pcs st !! 0 = Some session_b) as Hp by (vm_compute; reflexivity).
  assert (pc_closed session_b = false) as Hopen by reflexivity.
  do 4 (split; [assumption|]).
  exact (local_candidate_is_relayed sample_env
           [FromSocket (OnJoin (Some [JStr "B"])); FromPeer 0 (TrackEvent remote_track)]
           sample_socket (JStr "B") 0 session_b "candidate:1" Hio Hk Hp Hopen).
Defined.

(** X6 at work: a second track of "B" arrives. *)
Lemma remote_track_joins_stream_witness :
  let st := run [FromSocket (OnJoin (Some [JStr "B"]));
                 FromPeer 0 (TrackEvent remote_track)]
              (exec (ngOnInit sample_env) newHomePage) in
  let st' := deliver (FromPeer 0 (TrackEvent (mkTrack 8 true))) st in
  JSMap.get (JStr "B") (peerConnectionMap st) = Some 0
  /\ pcs st !! 0 = Some session_b
  /\ pc_closed session_b = false
  /\ (exists stream,
        JSMap.get (JStr "B") (targetUserStreamDataMap st') = Some stream
        /\ mkTrack 8 true ∈ stream
        /\ default [] (JSMap.get (JStr "B") (targetUserStreamDataMap st)) ⊆ stream)
  /\ (forall k', k' <> JStr "B" ->
        JSMap.get k' (targetUserStreamDataMap st')
        = JSMap.get k' (targetUserStreamDataMap st))
  /\ peerConnectionMap st' = peerConnectionMap st.
Proof.
  intros st st'.
  assert (JSMap.get (JStr "B") (peerConnectionMap st) = Some 0) as Hk
    by (vm_compute; reflexivity).
  assert (pcs st !! 0 = Some session_b) as Hp by (vm_compute; reflexivity).
  assert (pc_closed session_b = false) as Hopen by reflexivity.
  do 3 (split; [assumption|]).
  exact (remote_track_joins_stream sample_env
           [FromSocket (OnJoin (Some [JStr "B"])); FromPeer 0 (TrackEvent remote_track)]
           (JStr "B") 0 session_b (mkTrack 8 true) Hk Hp Hopen).
Defined.

(** X7 at work: offers for "B", for an [undefined] identifier and for "B"
    again. *)
Lemma sendOffers_offers_those_not_rejected_witness :
  let userIds := [JStr "B"; JUndefined; JStr "B"] in
  let st' := exec (sendOffers userIds) joined in
  ioConnection joined = Some sample_socket
  /\ outcome (sendOffers userIds) joined = Returned tt
  /\ ioConnection st' = Some sample_socket
  /\ Forall (fun value => value ∈ JSMap.keys (peerConnectionMap st')) userIds
  /\ exists ids ds t,
       trace st' = trace joined ++ t
       /\ sublist ids userIds
       /\ length ds = length ids
       /\ emitted t ≡ₚ zip_with
                         (fun d value => TransferOffer d (socket_id sample_socket) value)
                         ds ids
       /\ length ids + length (rejected t) = length userIds
       /\ (rejected t = [] -> ids = userIds).
Proof.
  intros userIds st'.
  assert (ioConnection joined = Some sample_socket) as Hio by (vm_compute; reflexivity).
  split; [assumption|].
  exact (sendOffers_offers_those_not_rejected userIds sample_socket joined Hio).
Defined.

(** The same run, step by step: the second callback for "B" finds the
    session the first one made and is rejected at [addTrack]; two offers go
    out, one to "B" and one to [undefined]. *)
Example repeated_identifier_is_offered_once :
  let st' := exec (sendOffers [JStr "B"; JUndefined; JStr "B"]) joined in
  JSMap.keys (peerConnectionMap st') = [JStr "B"; JUndefined]
  /\ rejected (since joined st') = [InvalidAccessError]
  /\ emitted (since joined st')
     = [TransferOffer (Some (mkSdp SdpOffer "offer")) "me" (JStr "B");
        TransferOffer (Some (mkSdp SdpOffer "offer")) "me" JUndefined].
Proof. vm_compute. by split_and!. Qed.

(** X8 at work: an answer from "B" while in the call. *)
Lemma silent_listeners_send_nothing_witness :
  let e := OnReceivedAnswer (mkAnswer (mkSdp SdpAnswer "remote") (JStr "B") (JStr "me")) in
  silent e = true
  /\ follows [] in_call (exec (socket_listener e) in_call).
Proof.
  intros e.
  assert (silent e = true) as He by reflexivity.
  split; [assumption|].
  exact (silent_listeners_send_nothing e in_call He).
Defined.

(** X10 at work: the camera is replaced while in the call with "B". *)
Lemma getUserStreamData_notifies_then_offers_witness :
  let stream := [new_camera_track] in
  let st' := exec (getUserStreamData (Some stream)) in_call in
  let userIds := JSMap.keys (peerConnectionMap in_call) in
  ioConnection in_call = Some sample_socket
  /\ outcome (getUserStreamData (Some stream)) in_call = Returned tt
  /\ localUserStreamData st' = Some stream
  /\ localVideo_srcObject st' = Some stream
  /\ exists ids ds ms t,
       trace st' = trace in_call ++ t
       /\ emitted t = (RemoveConnection <$> userIds) ++ ms
       /\ sublist ids userIds
       /\ length ds = length ids
       /\ ms ≡ₚ zip_with (fun d value => TransferOffer d (socket_id sample_socket) value)
                  ds ids
       /\ length ids + length (rejected t) = length userIds
       /\ (rejected t = [] -> ids = userIds).
Proof.
  intros stream st' userIds.
  assert (ioConnection in_call = Some sample_socket) as Hio by (vm_compute; reflexivity).
  split; [assumption|].
  exact (getUserStreamData_notifies_then_offers stream sample_socket in_call Hio).
Defined.

(** X11 at work: the relay drops, then "C" leaves; "B" stays registered. *)
Lemma session_stays_until_peer_leaves_witness :
  let evs := [FromSocket Disconnect; FromSocket (OnUserDisconnect (JStr "C"))] in
  (FromSocket (OnUserDisconnect (JStr "B")) ∉ evs)
  /\ JStr "B" ∈ JSMap.keys (peerConnectionMap in_call)
  /\ JStr "B" ∈ JSMap.keys (peerConnectionMap (run evs in_call)).
Proof.
  intros evs.
  assert (FromSocket (OnUserDisconnect (JStr "B")) ∉ evs) as Hevs.
  { intros Hin. apply elem_of_cons in Hin as [Hin|Hin]; [discriminate|].
    apply elem_of_cons in Hin as [Hin|Hin]; [discriminate|].
    by apply elem_of_nil in Hin. }
  assert (JStr "B" ∈ JSMap.keys (peerConnectionMap in_call)) as Hk.
  { apply elem_of_keys_get. exists 0. vm_compute. reflexivity. }
  do 2 (split; [assumption|]).
  exact (session_stays_until_peer_leaves (JStr "B") evs in_call Hevs Hk).
Defined.

(** X12 at work: the relay drops while in the call with "B". *)
Lemma disconnect_closes_sessions_witness :
  let st' := exec on_disconnect in_call in
  registry_valid in_call
  /\ JSMap.get (JStr "B") (peerConnectionMap in_call) = Some 0
  /\ JSMap.get (JStr "B") (peerConnectionMap st') = Some 0
  /\ (exists p, pcs in_call !! 0 = Some p /\ pcs st' !! 0 = Some (set_pc_closed p))
  /\ PcClose 0 ∈ since in_call st'
  /\ emitted (since in_call st') = []
  /\ (forall pc', pc' ∉ JSMap.values (peerConnectionMap in_call) ->
      pcs st' !! pc' = pcs in_call !! pc').
Proof.
  intros st'.
  assert (registry_valid in_call) as Hvalid.
  { repeat constructor. }
  assert (JSMap.get (JStr "B") (peerConnectionMap in_call) = Some 0) as Hk
    by (vm_compute; reflexivity).
  do 2 (split; [assumption|]).
  exact (disconnect_closes_sessions in_call (JStr "B") 0 Hvalid Hk).
Defined.

(** X13 at work: the room held "B"; "B" answers; nothing is rejected. *)
Lemma answer_completes_offer_witness :
  let sdp := mkSdp SdpAnswer "remote" in
  let st1 := deliver (FromSocket (OnJoin (Some [JStr "B"]))) joined in
  let st2 := deliver (FromSocket (OnReceivedAnswer (mkAnswer sdp (JStr "B") (JStr "me"))))
               st1 in
  ioConnection joined = Some sample_socket
  /\ registry_valid joined
  /\ rejected (since joined st2) = []
  /\ follows [] st1 st2
  /\ exists pc p offer,
       JSMap.get (JStr "B") (peerConnectionMap st2) = Some pc
       /\ pcs st2 !! pc = Some p
       /\ pc_localDescription p = Some offer
       /\ pc_remoteDescription p = Some sdp
       /\ emitted (since joined st1)
          = [TransferOffer (Some offer) (socket_id sample_socket) (JStr "B")].
Proof.
  intros sdp st1 st2.
  assert (ioConnection joined = Some sample_socket) as Hio by (vm_compute; reflexivity).
  assert (registry_valid joined) as Hvalid.
  { constructor. }
  assert (rejected (since joined st2) = []) as Hclean by (vm_compute; reflexivity).
  do 3 (split; [assumption|]).
  destruct (answer_completes_offer joined sample_socket "B" (JStr "me") sdp Hio Hvalid)
    as [Hfollows Hsession].
  split; [exact Hfollows|exact (Hsession Hclean)].
Defined.

(** X14 at work: "B" has answered, and two of its candidates arrive; the
    browser accepts both. *)
Lemma inbound_candidates_reach_session_witness :
  let cs := ["candidate:1"; "candidate:2"] in
  let st' :=
    run ((fun c => FromSocket (OnReceivedCandidate (mkCandidate c (JStr "B") (JStr "me"))))
           <$> cs) answered in
  ioConnection answered = Some sample_socket
  /\ JSMap.get (JStr "B") (peerConnectionMap answered) = Some 0
  /\ pcs answered !! 0 = Some session_b_answered
  /\ peerConnectionMap st' = peerConnectionMap answered
  /\ emitted (since answered st') = []
  /\ candidates_tried 0 (since answered st') = cs
  /\ exists accepted p',
       sublist accepted cs
       /\ pcs st' !! 0 = Some p'
       /\ pc_iceCandidates p' = pc_iceCandidates session_b_answered ++ accepted
       /\ length accepted + length (rejected (since answered st')) = length cs
       /\ (rejected (since answered st') = [] -> accepted = cs).
Proof.
  intros cs st'.
  assert (ioConnection answered = Some sample_socket) as Hio by (vm_compute; reflexivity).
  assert (JSMap.get (JStr "B") (peerConnectionMap answered) = Some 0) as Hk
    by (vm_compute; reflexivity).
  assert (pcs answered !! 0 = Some session_b_answered) as Hp by (vm_compute; reflexivity).
  do 3 (split; [assumption|]).
  exact (inbound_candidates_reach_session answered sample_socket "B" (JStr "me") 0
           session_b_answered cs Hio Hk Hp).
Defined.

(** Candidates that come before the answer, as in the call with "B": the
    browser has no remote description to match them with and refuses both;
    the session holds none. *)
Example early_candidates_are_refused :
  let st' :=
    run ((fun c => FromSocket (OnReceivedCandidate (mkCandidate c (JStr "B") (JStr "me"))))
           <$> ["candidate:1"; "candidate:2"]) in_call in
  candidates_tried 0 (since in_call st') = ["candidate:1"; "candidate:2"]
  /\ rejected (since in_call st') = [InvalidStateError; InvalidStateError]
  /\ pc_iceCandidates <$> pcs st' !! 0 = Some [].
Proof. vm_compute. by split_and!. Qed.

(** X15 at work: the camera permission was refused, the page is left. *)
Lemma ngOnDestroy_needs_socket_witness :
  let st := exec (ngOnInit refused_env) newHomePage in
  let st' := exec ngOnDestroy st in
  ioConnection st = None
  /\ outcome ngOnDestroy st = Thrown TypeError
  /\ peerConnectionMap st' = JSMap.empty
  /\ targetUserStreamDataMap st' = JSMap.empty
  /\ ioConnection st' = None
  /\ emitted (trace st') = emitted (trace st)
  /\ (SocketClose ∈ trace st' -> SocketClose ∈ trace st).
Proof.
  intros st st'.
  assert (ioConnection st = None) as Hio by (vm_compute; reflexivity).
  split; [assumption|].
  exact (ngOnDestroy_needs_socket st Hio).
Defined.

(** X17 at work: while in the call with "B", an offer arrives from "C". *)
Lemma accepted_offer_is_answered_witness :
  let sdp := mkSdp SdpOffer "remote" in
  let offer := mkOffer sdp (JStr "C") (JStr "me") in
  let line := [LogText "on-received-offer"; LogOffer offer] in
  let st' := exec (on_received_offer offer) in_call in
  ioConnection in_call = Some sample_socket
  /\ registry_valid in_call
  /\ rejected (since in_call st') = []
  /\ outcome (on_received_offer offer) in_call = Returned tt
  /\ exists pc st0 answer,
       getOrCreatePeerConnection (JStr "C") (logged line in_call) = (Returned pc, st0)
       /\ match JSMap.get (JStr "C") (peerConnectionMap in_call) with
          | Some pc0 => pc = pc0 /\ st0 = logged line in_call
          | None =>
              pc = length (pcs in_call)
              /\ pcs st0 = pcs in_call ++ [wired_pc (JStr "C")]
          end
       /\ JSMap.get (JStr "C") (peerConnectionMap st') = Some pc
       /\ since st0 st' =
            (PcAddTrack pc <$> local_tracks in_call) ++
            [PcSetRemoteDescription pc sdp;
             PcCreateAnswer pc;
             PcSetLocalDescription pc answer;
             SocketEmit (TransferAnswer (Some answer) (socket_id sample_socket)
                           (JStr "C"))]
       /\ pcs st' !! pc ≫= pc_remoteDescription = Some sdp
       /\ pcs st' !! pc ≫= pc_localDescription = Some answer.
Proof.
  intros sdp offer line st'.
  assert (ioConnection in_call = Some sample_socket) as Hio by (vm_compute; reflexivity).
  assert (registry_valid in_call) as Hvalid.
  { repeat constructor. }
  assert (rejected (since in_call st') = []) as Hclean by (vm_compute; reflexivity).
  do 3 (split; [assumption|]).
  destruct (accepted_offer_is_answered in_call sample_socket sdp "C" (JStr "me")
              Hio Hvalid) as [Hreturns Hsteps].
  split; [exact Hreturns|exact (Hsteps Hclean)].
Defined.

(** X18 at work: the room held "B" when the page joined. *)
Lemma accepted_join_sends_offer_witness :
  let value := JStr "B" in
  let line := [LogText "on-join"; LogUserIds (Some [value])] in
  let st' := exec (on_join (Some [value])) joined in
  ioConnection joined = Some sample_socket
  /\ registry_valid joined
  /\ rejected (since joined st') = []
  /\ exists pc st0 offer,
       getOrCreatePeerConnection value (logged line joined) = (Returned pc, st0)
       /\ match JSMap.get value (peerConnectionMap joined) with
          | Some pc0 => pc = pc0 /\ st0 = logged line joined
          | None =>
              pc = length (pcs joined) /\ pcs st0 = pcs joined ++ [wired_pc value]
          end
       /\ JSMap.get value (peerConnectionMap st') = Some pc
       /\ since st0 st' =
            (PcAddTrack pc <$> local_tracks joined) ++
            [PcCreateOffer pc;
             PcSetLocalDescription pc offer;
             SocketEmit (TransferOffer (Some offer) (socket_id sample_socket) value)]
       /\ pcs st' !! pc ≫= pc_localDescription = Some offer.
Proof.
  intros value line st'.
  assert (ioConnection joined = Some sample_socket) as Hio by (vm_compute; reflexivity).
  assert (registry_valid joined) as Hvalid.
  { constructor. }
  assert (rejected (since joined st') = []) as Hclean by (vm_compute; reflexivity).
  do 3 (split; [assumption|]).
  exact (accepted_join_sends_offer joined sample_socket "B" Hio Hvalid Hclean).
Defined.

End Worked.
